(** * Label placement and occlusion in tangram-es

    A shallow embedding of [core/src/tile/labels/labels.cpp] (the label
    manager [Labels]) and of [core/src/style/textStyle.cpp] (the text
    style builders [TextStyle]), with the properties of the label
    pipeline proved over it.

    Conventions.
    - C++ [float] values are idealised as real numbers ([R]); [floor],
      [sqrt] and the comparisons are the real ones.  The logarithm of
      [LODDiscardFunc] is the real one on the positive numbers, minus
      infinity at zero and a NaN below it, as in the code.
    - [size_t] is a 64-bit unsigned integer and [int] a 32-bit signed
      one; both are carried as [Z] with the wrap-around written out.
    - A [Label*] / [shared_ptr<Label>] is an address into a finite map
      of live labels; a [weak_ptr] that has expired is an address that
      the map no longer binds.
    - The mutex around the pending queue is not modelled: every function
      is embedded as the sequential code between lock and unlock. *)

From Stdlib Require Import Reals Lra ZArith Lia String List Sorted.
From stdpp Require Import gmap strings list fin_maps.

Local Open Scope Z_scope.

(** ** Machine integers *)

Definition size_t_modulus : Z := 2 ^ 64.
Definition SIZE_MAX : Z := size_t_modulus - 1.
Definition INT_MAX : Z := 2 ^ 31 - 1.
Definition INT_MIN : Z := - 2 ^ 31.

(** Conversion of an integer value to [size_t] (reduction modulo 2^64). *)
Definition to_size_t (z : Z) : Z := z mod size_t_modulus.

Definition size_t_add (a b : Z) : Z := to_size_t (a + b).
Definition size_t_sub (a b : Z) : Z := to_size_t (a - b).

(** Conversion of an integer value to [int] (two's complement, 32 bits). *)
Definition to_int (z : Z) : Z := (z + 2 ^ 31) mod 2 ^ 32 - 2 ^ 31.

(** [v.size()] of a [std::vector]. *)
Definition size {A} (v : list A) : Z := Z.of_nat (length v).

(** ** Geometry *)

Record vec2 := Vec2 { vx : R; vy : R }.
Record vec3 := Vec3 { x3 : R; y3 : R; z3 : R }.

(** [glm::vec2(p)] for a [glm::vec3] [p]: the first two components. *)
Definition vec2_of (p : vec3) : vec2 := Vec2 (x3 p) (y3 p).

Definition vec2_sub (a b : vec2) : vec2 :=
  Vec2 (vx a - vx b)%R (vy a - vy b)%R.

(** [glm::length]. *)
Definition vec2_length (v : vec2) : R := sqrt (vx v * vx v + vy v * vy v)%R.

(** [v /= n] for an [int] [n]: each component divided by [n] as a float. *)
Definition vec2_div (v : vec2) (n : Z) : vec2 :=
  Vec2 (vx v / IZR n)%R (vy v / IZR n)%R.

(** Comparisons on floats, as booleans. *)
Definition Rltb (a b : R) : bool := if Rlt_dec a b then true else false.
Definition Rgtb (a b : R) : bool := Rltb b a.

(** [floor] on floats. *)
Definition floor (x : R) : R := IZR (Int_part x).

(** The conversion [(int) x] of a float: truncation toward zero. *)
Definition int_of_float (x : R) : Z :=
  if Rle_dec 0 x then Int_part x else - Int_part (- x).

(** ** Floats that are not numbers

    Floats are taken as real numbers throughout.  The one place where
    the code computes with a value that is no number is the logarithm
    in [LODDiscardFunc]: at zero it is minus infinity, below zero it is
    a NaN.  Through the operations that follow, these values obey the
    rules of IEEE 754 arithmetic. *)

Module Float.

Inductive t :=
| Finite (x : R)
| Infinite (negative : bool)
| NaN.

(** [log]: minus infinity at zero, a NaN on the negative numbers. *)
Definition log (x : R) : t :=
  if Rlt_dec x 0 then NaN
  else if Req_dec_T x 0 then Infinite true
  else Finite (ln x).

(** The sign of a number.  A zero counts as positive: the only zero
    that divides here is that of [log 1], which is +0. *)
Definition negative (x : R) : bool := Rltb x 0.

(** [a / b] *)
Definition div (a b : t) : t :=
  match a, b with
  | NaN, _ | _, NaN => NaN
  | Infinite _, Infinite _ => NaN
  | Infinite s, Finite y => Infinite (xorb s (negative y))
  | Finite _, Infinite _ => Finite 0
  | Finite x, Finite y =>
      if Req_dec_T y 0 then
        if Req_dec_T x 0 then NaN else Infinite (negative x)
      else Finite (x / y)
  end.

(** [a * b] *)
Definition mul (a b : t) : t :=
  match a, b with
  | NaN, _ | _, NaN => NaN
  | Infinite s, Infinite s' => Infinite (xorb s s')
  | Infinite s, Finite y =>
      if Req_dec_T y 0 then NaN else Infinite (xorb s (negative y))
  | Finite x, Infinite s =>
      if Req_dec_T x 0 then NaN else Infinite (xorb (negative x) s)
  | Finite x, Finite y => Finite (x * y)
  end.

(** [floor] leaves the infinities and the NaN as they are. *)
Definition floor (a : t) : t :=
  match a with
  | Finite x => Finite (floor x)
  | _ => a
  end.

(** [a < b]: false whenever one side is a NaN. *)
Definition lt (a b : t) : bool :=
  match a, b with
  | NaN, _ | _, NaN => false
  | Finite x, Finite y => Rltb x y
  | Finite _, Infinite s => negb s
  | Infinite s, Finite _ => s
  | Infinite s, Infinite s' => s && negb s'
  end.

(** The conversion [(int) a]: truncation toward zero of a number that
    an [int] can hold.  For the other values the C++ standard leaves
    the conversion undefined; the model gives [INT_MIN], the value
    that the conversion instructions of x86 produce. *)
Definition to_int (a : t) : Z :=
  match a with
  | Finite x =>
      if Rltb (IZR INT_MIN - 1) x && Rltb x (IZR INT_MAX + 1)
      then int_of_float x
      else INT_MIN
  | _ => INT_MIN
  end.

End Float.

(** Addresses of heap-allocated labels. *)
Definition ptr := positive.

(** ** The label object *)

Module Label.

(** Modelled from the spec: [Label] is declared in [labels/label.h],
    which is not among the sources.  The spec (3, 4.1) gives a label an
    occlusion state machine with the states [NONE] and [WAIT_OCC] and a
    phase in which the occlusion is decided for the frame, a type tag,
    a transform, an "occludable" flag, the occlusion mark of the
    current frame and the verdict of the previous frame.  [WAIT_OCC] is
    the one state the manager's code names. *)
Inductive State := NONE | WAIT_OCC | DECIDED.

Definition State_eqb (a b : State) : bool :=
  match a, b with
  | NONE, NONE | WAIT_OCC, WAIT_OCC | DECIDED, DECIDED => true
  | _, _ => false
  end.

(** [Label::Type], as used by the style builders. *)
Inductive Type_ := point | line.

(** [Label::Transform]: the two screen anchors given at construction. *)
Record Transform := { anchor1 : vec2; anchor2 : vec2 }.

(** [isect2d::AABB]: the box and the back-pointer [m_userData]. *)
Record AABB := {
  m_min : vec2;
  m_max : vec2;
  m_userData : option ptr
}.

Record t := {
  m_transform : Transform;
  m_state : State;
  m_occludable : bool;
  m_occluded : bool;
  m_occludedLastFrame : bool;
  m_aabb : AABB
}.

Definition getState (l : t) : State := m_state l.
Definition canOcclude (l : t) : bool := m_occludable l.
Definition occludedLastFrame (l : t) : bool := m_occludedLastFrame l.
Definition getAABB (l : t) : AABB := m_aabb l.

(** Modelled from the spec: "marks the label as occluded for the
    current frame; idempotent within a frame".  The verdict of the
    previous frame and the state are left alone: the former is "the
    occlusion verdict from the previous completed pass", the latter
    advances in [occlusionSolved]. *)
Definition setOcclusion (b : bool) (l : t) : t :=
  {| m_transform := m_transform l;
     m_state := m_state l; m_occludable := m_occludable l;
     m_occluded := b;
     m_occludedLastFrame := m_occludedLastFrame l;
     m_aabb := m_aabb l |}.

End Label.

(** ** The parameters of a text label *)

Module TextParams.

(** [TextTransform] and [Parameters], the value object that [parseRule]
    fills in (fields as the code assigns them). *)
Inductive TextTransform := none | capitalize | lowercase | uppercase.

Record Parameters := {
  fontKey : string;
  fontSize : R;
  fill : Z;
  strokeColor : Z;
  strokeWidth : R;
  offset : vec2;
  blurSpread : R;
  transform : TextTransform;
  visible : bool;
  priority : Z;
  textSource : string
}.

End TextParams.

(** ** Collaborators outside the two source files

    The view, the tiles, the font context and the label's own geometry
    are used by the code but declared elsewhere.  What the code needs
    from them is gathered in one interface; every result below holds for
    each of its implementations. *)

Class Externals := {
  (** 4x4 matrices and their product. *)
  Mat4 : Type;
  mat_mul : Mat4 -> Mat4 -> Mat4;
  (** [Label::update(mvp, screenSize, dt)]. *)
  Label_update : Mat4 -> vec2 -> R -> Label.t -> Label.t;
  (** The constructors of the two label classes, [TextLabel] and
      [SpriteLabel], with the arguments the manager passes. *)
  new_TextLabel : Label.Transform -> string -> Z -> Label.Type_ -> Label.t;
  new_SpriteLabel : Label.Transform -> vec2 -> Label.t;
  (** The rasterization buffer of the font context: [genTextID], and
      [TextLabel::rasterize], which reports success and may write to the
      label and to the buffer. *)
  Buffer : Type;
  genTextID : Buffer -> Z * Buffer;
  rasterize : Label.t -> Buffer -> bool * Label.t * Buffer;
  (** [View::s_maxZoom] and the macro [MAX_LOD], an [int]. *)
  s_maxZoom : R;
  MAX_LOD : Z;
  MAX_LOD_int : INT_MIN <= MAX_LOD <= INT_MAX;
  (** A default-constructed [Parameters]. *)
  default_Parameters : TextParams.Parameters
}.

(** ** The label store and the commands on it

    The occlusion pass works on raw [Label*] taken from the boxes.  The
    store binds the addresses of the live labels; [calls] records, in
    program order, every [setOcclusion] call made through a pointer. *)

Record store := Store {
  cells : gmap ptr Label.t;
  calls : list (ptr * bool)
}.

(** Commands: a state transformer that fails on a pointer that is not
    bound (the C++ behaviour is undefined there). *)
Definition M (A : Type) : Type := store -> option (A * store).

Definition ret {A} (a : A) : M A := fun s => Some (a, s).

Definition bind {A B} (c : M A) (k : A -> M B) : M B :=
  fun s => match c s with
           | Some (a, s') => k a s'
           | None => None
           end.

Declare Scope cmd_scope.
Delimit Scope cmd_scope with cmd.
Notation "'let*' x ':=' c 'in' k" := (bind c (fun x => k))
  (at level 10, x name, c at level 100, k at level 200) : cmd_scope.
Notation "c ';;' k" := (bind c (fun _ => k))
  (at level 100, k at level 200, right associativity) : cmd_scope.

(** [p->occludedLastFrame()] *)
Definition occludedLastFrame (p : ptr) : M bool :=
  fun s => match cells s !! p with
           | Some l => Some (Label.occludedLastFrame l, s)
           | None => None
           end.

(** [p->getState()] *)
Definition getState (p : ptr) : M Label.State :=
  fun s => match cells s !! p with
           | Some l => Some (Label.getState l, s)
           | None => None
           end.

(** [p->setOcclusion(b)] *)
Definition setOcclusion (p : ptr) (b : bool) : M unit :=
  fun s => match cells s !! p with
           | Some l =>
               Some (tt, {| cells := <[p := Label.setOcclusion b l]> (cells s);
                            calls := calls s ++ [(p, b)] |})
           | None => None
           end.

(** [if (c) { body }] *)
Definition when (c : bool) (body : M unit) : M unit :=
  if c then body else ret tt.

(** The store after a [setOcclusion(b)] on the live label at [p]. *)
Definition marked (p : ptr) (b : bool) (s : store) : store :=
  {| cells := alter (Label.setOcclusion b) p (cells s);
     calls := calls s ++ [(p, b)] |}.

(** The same under a condition. *)
Definition marked_if (c : bool) (p : ptr) (s : store) : store :=
  if c then marked p true s else s.

(** [p] points to a live label. *)
Definition live (s : store) (p : ptr) : Prop := is_Some (cells s !! p).

(** ** The label manager (labels.cpp) *)

Module Labels.

Local Open Scope cmd_scope.

(** [TileID], as far as the manager reads it: the coordinates and the
    zoom level [z]. *)
Record TileID := { tile_x : Z; tile_y : Z; z : Z }.

(** [MapTile]: its id, its model matrix, and the labels it owns, each
    under the name of the style that asked for it ([MapTile::addLabel]). *)
Record MapTile `{Externals} := {
  getID : TileID;
  getModelMatrix : Mat4;
  tile_labels : list (string * ptr)
}.

(** [MapTile::addLabel(styleName, label)] *)
Definition MapTile_addLabel `{Externals} (styleName : string) (label : ptr)
    (tile : MapTile) : MapTile :=
  {| getID := getID tile; getModelMatrix := getModelMatrix tile;
     tile_labels := tile_labels tile ++ [(styleName, label)] |}.

(** [View], read-only to the manager. *)
Record View `{Externals} := {
  getZoom : R;
  getViewProjectionMatrix : Mat4;
  getWidth : R;
  getHeight : R
}.

(** [LabelUnit]: a weak reference to the label, the id of the tile and
    the name of the style. *)
Record LabelUnit := {
  m_label : ptr;
  m_tileID : TileID;
  m_styleName : string
}.

(** [LabelUnit::getWeakLabel()]: the label when it is still alive, null
    otherwise. *)
Definition getWeakLabel (heap : gmap ptr Label.t) (u : LabelUnit)
    : option (ptr * Label.t) :=
  match heap !! m_label u with
  | Some l => Some (m_label u, l)
  | None => None
  end.

(** The label of the unit can still be resolved. *)
Definition alive (heap : gmap ptr Label.t) (u : LabelUnit) : Prop :=
  is_Some (heap !! m_label u).

#[global] Instance alive_dec heap u : Decision (alive heap u).
Proof. unfold alive. apply _. Defined.

(** The members of [Labels]. *)
Record t `{Externals} := {
  m_labelUnits : list LabelUnit;
  m_pendingLabelUnits : list LabelUnit;
  m_currentZoom : R;
  m_screenSize : vec2;
  m_view : View;
  (** [m_ftContext->getCurrentBuffer()], null when there is none *)
  currentBuffer : option Buffer
}.

(** The manager together with the heap of live labels; [allocations]
    counts the [new] expressions evaluated so far. *)
Record World `{Externals} := {
  this : t;
  heap : gmap ptr Label.t;
  allocations : nat
}.

(** The macro [MIN]: [a < b ? a : b], so the second argument when the
    first is a NaN. *)
Definition MIN (a b : Float.t) : Float.t := if Float.lt a b then a else b.

(** [Labels::LODDiscardFunc] (labels.cpp, 14-16) *)
Definition LODDiscardFunc `{Externals} (_maxZoom _zoom : R) : Z :=
  Float.to_int
    (MIN (Float.floor
            (Float.mul
               (Float.mul (Float.div (Float.log (- _zoom + (_maxZoom + 2)))
                                     (Float.log (_maxZoom + 2)))
                          (Float.Finite _maxZoom))
               (Float.Finite 0.5)))
         (Float.Finite (IZR MAX_LOD))).

(** The admission test that opens both [addTextLabel] and
    [addSpriteLabel]:
    [(m_currentZoom - _tile.getID().z) > LODDiscardFunc(View::s_maxZoom, m_currentZoom)]. *)
Definition LOD_discards `{Externals} (L : t) (_tile : MapTile) : bool :=
  Rgtb (m_currentZoom L - IZR (z (getID _tile)))
       (IZR (LODDiscardFunc s_maxZoom (m_currentZoom L))).

(** Field updates on the world. *)
Definition set_heap `{Externals} (h : gmap ptr Label.t) (w : World) : World :=
  {| this := this w; heap := h; allocations := allocations w |}.

Definition set_currentBuffer `{Externals} (b : option Buffer) (w : World)
    : World :=
  {| this := {| m_labelUnits := m_labelUnits (this w);
                m_pendingLabelUnits := m_pendingLabelUnits (this w);
                m_currentZoom := m_currentZoom (this w);
                m_screenSize := m_screenSize (this w);
                m_view := m_view (this w);
                currentBuffer := b |};
     heap := heap w; allocations := allocations w |}.

Definition set_pendingLabelUnits `{Externals} (q : list LabelUnit) (w : World)
    : World :=
  {| this := {| m_labelUnits := m_labelUnits (this w);
                m_pendingLabelUnits := q;
                m_currentZoom := m_currentZoom (this w);
                m_screenSize := m_screenSize (this w);
                m_view := m_view (this w);
                currentBuffer := currentBuffer (this w) |};
     heap := heap w; allocations := allocations w |}.

(** [new T(...)]: the object is placed at an address not in use. *)
Definition new_Label `{Externals} (l : Label.t) (w : World) : ptr * World :=
  let p := fresh (dom (heap w)) in
  (p, {| this := this w; heap := <[p := l]> (heap w);
         allocations := S (allocations w) |}).

(** [Labels::addLabel] (labels.cpp, 44-54).  [None] stands for the
    dereference of a pointer that is not bound. *)
Definition addLabel `{Externals} (w : World) (_tile : MapTile)
    (_styleName : string) (_label : ptr) : option (World * MapTile) :=
  match heap w !! _label with
  | None => None
  | Some l =>
      let l' := Label_update
                  (mat_mul (getViewProjectionMatrix (m_view (this w)))
                           (getModelMatrix _tile))
                  (m_screenSize (this w)) 0%R l in
      let w1 := set_heap (<[_label := l']> (heap w)) w in
      let tileID := getID _tile in
      let tile1 := MapTile_addLabel _styleName _label _tile in
      let unit := {| m_label := _label; m_tileID := tileID;
                     m_styleName := _styleName |} in
      Some (set_pendingLabelUnits (m_pendingLabelUnits (this w1) ++ [unit]) w1,
            tile1)
  end.

(** [Labels::addTextLabel] (labels.cpp, 18-42).  The result is the
    returned pointer ([None] for [nullptr]), the world and the tile
    afterwards. *)
Definition addTextLabel `{Externals} (w : World) (_tile : MapTile)
    (_styleName : string) (_transform : Label.Transform) (_text : string)
    (_type : Label.Type_) : option (option ptr * World * MapTile) :=
  if LOD_discards (this w) _tile then Some (None, w, _tile)
  else
    match currentBuffer (this w) with
    | Some buf =>
        let '(textID, buf1) := genTextID buf in
        let '(label, w1) :=
          new_Label (new_TextLabel _transform _text textID _type)
                    (set_currentBuffer (Some buf1) w) in
        match heap w1 !! label with
        | None => None
        | Some l =>
            let '(ok, l', buf2) := rasterize l buf1 in
            let w2 := set_currentBuffer (Some buf2)
                        (set_heap (<[label := l']> (heap w1)) w1) in
            if negb ok then
              (* label.reset(): the only owner lets go, the label dies *)
              Some (None, set_heap (delete label (heap w2)) w2, _tile)
            else
              match addLabel w2 _tile _styleName label with
              | Some (w3, tile3) => Some (Some label, w3, tile3)
              | None => None
              end
        end
    | None => Some (None, w, _tile)
    end.

(** The three ways in which [addTextLabel] produces no label. *)
Definition LOD_rejects `{Externals} (w : World) (_tile : MapTile) : Prop :=
  (m_currentZoom (this w) - IZR (z (getID _tile))
   > IZR (LODDiscardFunc s_maxZoom (m_currentZoom (this w))))%R.

Definition no_current_buffer `{Externals} (w : World) : Prop :=
  currentBuffer (this w) = None.

Definition rasterization_fails `{Externals} (w : World)
    (_transform : Label.Transform) (_text : string) (_type : Label.Type_)
    : Prop :=
  exists buf,
    currentBuffer (this w) = Some buf
    /\ (rasterize (new_TextLabel _transform _text (genTextID buf).1 _type)
                   (genTextID buf).2).1.1 = false.

(** [Labels::addSpriteLabel] (labels.cpp, 56-65) *)
Definition addSpriteLabel `{Externals} (w : World) (_tile : MapTile)
    (_styleName : string) (_transform : Label.Transform) (_size : vec2)
    : option (option ptr * World * MapTile) :=
  if LOD_discards (this w) _tile then Some (None, w, _tile)
  else
    let '(label, w1) := new_Label (new_SpriteLabel _transform _size) w in
    match addLabel w1 _tile _styleName label with
    | Some (w2, tile2) => Some (Some label, w2, tile2)
    | None => None
    end.

(** *** [Labels::updateOcclusions] (labels.cpp, 67-131)

    Embedded are the merge of the pending units, the loop that prunes
    the units and collects the boxes, and the loop that resolves the
    occlusions.  The broad and the narrow phase in between call the
    intersection library, which is outside these sources: the resolve
    loop takes the set of occlusions they deliver, in the order in which
    the set is iterated. *)

(** Lines 68-77: the zoom is read from the view and the pending units
    are moved to the end of the authoritative list; the pending queue is
    left empty. *)
Definition merge `{Externals} (L : t) : t :=
  {| m_labelUnits := m_labelUnits L ++ m_pendingLabelUnits L;
     m_pendingLabelUnits := [];
     m_currentZoom := getZoom (m_view L);
     m_screenSize := m_screenSize L;
     m_view := m_view L;
     currentBuffer := currentBuffer L |}.

(** [aabb.m_userData = (void* )label.get()] *)
Definition with_userData (a : Label.AABB) (p : ptr) : Label.AABB :=
  {| Label.m_min := Label.m_min a; Label.m_max := Label.m_max a;
     Label.m_userData := Some p |}.

(** [v.pop_back()] *)
Definition pop_back {A} (v : list A) : list A := removelast v.

(** Lines 82-97: the loop that drops the units whose label is gone and
    collects the boxes of the labels that can occlude.  [i] is the
    [size_t] loop variable; one unit of [fuel] is spent per evaluation
    of the loop condition.  [None] stands for running out of fuel or for
    an access outside the vector. *)
Fixpoint prune_loop (fuel : nat) (heap : gmap ptr Label.t)
    (m_labelUnits : list LabelUnit) (i : Z) (aabbs : list Label.AABB)
    : option (list LabelUnit * list Label.AABB) :=
  match fuel with
  | O => None
  | S fuel' =>
      if i <? size m_labelUnits then
        match m_labelUnits !! Z.to_nat i with
        | None => None
        | Some labelUnit =>
            match getWeakLabel heap labelUnit with
            | None =>
                (* m_labelUnits[i--] = std::move(m_labelUnits[size() - 1]);
                   m_labelUnits.pop_back(); continue; *)
                match m_labelUnits !! Z.to_nat (size_t_sub (size m_labelUnits) 1) with
                | None => None
                | Some lastUnit =>
                    let units1 := <[Z.to_nat i := lastUnit]> m_labelUnits in
                    let i1 := size_t_sub i 1 in
                    prune_loop fuel' heap (pop_back units1) (size_t_add i1 1) aabbs
                end
            | Some (p, label) =>
                if negb (Label.canOcclude label) then
                  prune_loop fuel' heap m_labelUnits (size_t_add i 1) aabbs
                else
                  let aabb := with_userData (Label.getAABB label) p in
                  prune_loop fuel' heap m_labelUnits (size_t_add i 1)
                             (aabbs ++ [aabb])
            end
        end
      else Some (m_labelUnits, aabbs)
  end.

(** The loop run from [i = 0] with no box collected yet.  It evaluates
    its condition at most once more than there are units. *)
Definition prune (heap : gmap ptr Label.t) (m_labelUnits : list LabelUnit)
    : option (list LabelUnit * list Label.AABB) :=
  prune_loop (S (length m_labelUnits)) heap m_labelUnits 0 [].

(** Lines 68-97 together: merge, then prune and collect. *)
Definition merge_and_prune `{Externals} (w : World)
    : option (World * list Label.AABB) :=
  let L := merge (this w) in
  match prune (heap w) (m_labelUnits L) with
  | Some (units, aabbs) =>
      Some ({| this := {| m_labelUnits := units;
                           m_pendingLabelUnits := m_pendingLabelUnits L;
                           m_currentZoom := m_currentZoom L;
                           m_screenSize := m_screenSize L;
                           m_view := m_view L;
                           currentBuffer := currentBuffer L |};
               heap := heap w; allocations := allocations w |}, aabbs)
  | None => None
  end.

(** Lines 113-123: the body of [for (auto& pair : occlusions)]. *)
Definition resolve_pair (pair : ptr * ptr) : M unit :=
  (let* o1 := occludedLastFrame pair.1 in
   when (negb o1)
     (let* st := getState pair.2 in
      when (Label.State_eqb st Label.WAIT_OCC) (setOcclusion pair.2 true)));;
  (let* o2 := occludedLastFrame pair.2 in
   when (negb o2)
     (let* st := getState pair.1 in
      when (Label.State_eqb st Label.WAIT_OCC) (setOcclusion pair.1 true)));;
  (let* o3 := occludedLastFrame pair.2 in
   when (negb o3) (setOcclusion pair.1 true)).

(** The loop over the set of occlusions, in its iteration order. *)
Fixpoint resolve (occlusions : list (ptr * ptr)) : M unit :=
  match occlusions with
  | [] => ret tt
  | pr :: rest => resolve_pair pr;; resolve rest
  end.

(** *** The tie-break as the specification words it

    Three checks, each a condition and the label it marks occluded,
    applied one after the other. *)
Record check := { guard : M bool; target : ptr }.

Definition not_occluded_last_frame (p : ptr) : M bool :=
  let* o := occludedLastFrame p in ret (negb o).

Definition in_WAIT_OCC (p : ptr) : M bool :=
  let* st := getState p in ret (Label.State_eqb st Label.WAIT_OCC).

Definition both (c1 c2 : M bool) : M bool :=
  let* b1 := c1 in let* b2 := c2 in ret (b1 && b2).

Definition tie_break (A B : ptr) : list check :=
  [ {| guard := both (not_occluded_last_frame A) (in_WAIT_OCC B); target := B |};
    {| guard := both (not_occluded_last_frame B) (in_WAIT_OCC A); target := A |};
    {| guard := not_occluded_last_frame B; target := A |} ].

Definition run_check (c : check) : M unit :=
  let* g := guard c in when g (setOcclusion (target c) true).

Fixpoint run_checks (cs : list check) : M unit :=
  match cs with
  | [] => ret tt
  | c :: rest => run_check c;; run_checks rest
  end.

(** Pure readings of the store, for stating results. *)
Definition last_frame (s : store) (p : ptr) : bool :=
  match cells s !! p with
  | Some l => Label.occludedLastFrame l
  | None => false
  end.

Definition waiting (s : store) (p : ptr) : bool :=
  match cells s !! p with
  | Some l => Label.State_eqb (Label.getState l) Label.WAIT_OCC
  | None => false
  end.

Definition occluded (s : store) (p : ptr) : bool :=
  match cells s !! p with
  | Some l => Label.m_occluded l
  | None => false
  end.

(** The marks the three checks make on a pair, read off the store the
    step starts from. *)
Definition marks (s : store) (A B : ptr) : list (ptr * bool) :=
  (if negb (last_frame s A) && waiting s B then [(B, true)] else [])
  ++ (if negb (last_frame s B) && waiting s A then [(A, true)] else [])
  ++ (if negb (last_frame s B) then [(A, true)] else []).

(** *** The level of detail as the specification words it

    "[LODDiscardFunc] is monotonically non-decreasing as
    [currentZoom - tileZoom] shrinks": of two zooms over the same tile,
    the one with the smaller delta has the threshold that is not the
    smaller one. *)
Definition LOD_monotone_as_stated `{Externals}
    (maxZoom tileZoom zoom1 zoom2 : R) : Prop :=
  (zoom1 - tileZoom <= zoom2 - tileZoom)%R ->
  LODDiscardFunc maxZoom zoom2 <= LODDiscardFunc maxZoom zoom1.

(** *** The hysteresis property as the specification words it

    [A] was not occluded in the previous frame, [B] was, and the pass
    starts with no mark on [A].  Whichever way round the pair is stored,
    the step returns, makes no mark on [A], and leaves [B] occluded. *)
Definition hysteresis_as_stated (s : store) (A B : ptr) : Prop :=
  live s A -> live s B ->
  last_frame s A = false -> last_frame s B = true ->
  occluded s A = false ->
  forall pr, pr = (A, B) \/ pr = (B, A) ->
    exists s', resolve_pair pr s = Some (tt, s')
               /\ occluded s' A = false /\ occluded s' B = true.

(** Two overlapping labels at the start of a frame: label 1 was visible
    in the previous frame and waits for this frame's result; label 2
    was occluded in the previous frame and is not in [WAIT_OCC]. *)
Definition visible_label : Label.t :=
  {| Label.m_transform := {| Label.anchor1 := Vec2 0 0; Label.anchor2 := Vec2 0 0 |};
     Label.m_state := Label.WAIT_OCC; Label.m_occludable := true;
     Label.m_occluded := false; Label.m_occludedLastFrame := false;
     Label.m_aabb := {| Label.m_min := Vec2 0 0; Label.m_max := Vec2 10 10;
                        Label.m_userData := None |} |}.

Definition hidden_label : Label.t :=
  {| Label.m_transform := {| Label.anchor1 := Vec2 5 5; Label.anchor2 := Vec2 5 5 |};
     Label.m_state := Label.DECIDED; Label.m_occludable := true;
     Label.m_occluded := false; Label.m_occludedLastFrame := true;
     Label.m_aabb := {| Label.m_min := Vec2 5 5; Label.m_max := Vec2 15 15;
                        Label.m_userData := None |} |}.

Definition two_labels : store :=
  {| cells := <[1%positive := visible_label]> (<[2%positive := hidden_label]> ∅);
     calls := [] |}.

End Labels.

(** ** The text style builders (textStyle.cpp) *)

Module StyleParamKey.

(** The keys [parseRule] asks a drawing rule for. *)
Inductive t :=
| font_family | font_weight | font_style | font_size | font_fill | offset
| font_stroke | font_stroke_color | font_stroke_width | transform | visible
| priority | text_source.

End StyleParamKey.

Module TextStyle.

(** [key_name] and the names of the text transforms (textStyle.cpp, 14-17) *)
Definition key_name : string := "name".
Definition uppercase : string := "uppercase".
Definition lowercase : string := "lowercase".
Definition capitalize : string := "capitalize".

(** The members of [TextStyle] that the builders read. *)
Record t := {
  m_sdf : bool;
  m_sdfMultisampling : bool;
  m_pixelScale : R
}.

(** Modelled from the spec: [DrawRule] is declared elsewhere; it is "a
    key-value lookup exposing typed getters (string, float, color,
    boolean) by a fixed enumeration of style-parameter keys".  A getter
    answers [None] when the rule has no value of that type under the
    key. *)
Record DrawRule := {
  get_string : StyleParamKey.t -> option string;
  get_float : StyleParamKey.t -> option R;
  get_color : StyleParamKey.t -> option Z;
  get_vec2 : StyleParamKey.t -> option vec2;
  get_bool : StyleParamKey.t -> option bool;
  get_int : StyleParamKey.t -> option Z
}.

(** [_rule.get(key, out)]: whether a value was found, and [out]
    afterwards (written only when found). *)
Definition get {A} (found : option A) (out : A) : bool * A :=
  match found with
  | Some v => (true, v)
  | None => (false, out)
  end.

(** Modelled from the spec: [Properties] is declared elsewhere; it
    exposes "string lookup by feature attribute name", and an absent
    attribute reads as the empty string. *)
Definition Properties := gmap string string.

Definition getString (_props : gmap string string) (key : string) : string :=
  match _props !! key with
  | Some v => v
  | None => ""%string
  end.

(** [Label::Options], as [optionsFromTextParams] fills it. *)
Record Options := {
  color : Z;
  opt_priority : Z;
  opt_offset : vec2
}.

(** One call of [TextBuffer::addLabel], with its five arguments. *)
Record LabelRequest := {
  text : string;
  transform : Label.Transform;
  type : Label.Type_;
  params : TextParams.Parameters;
  options : Options
}.

(** The output mesh, as the sequence of labels added to it. *)
Definition TextBuffer := list LabelRequest.

Definition addLabel (text : string) (transform : Label.Transform)
    (type : Label.Type_) (params : TextParams.Parameters) (options : Options)
    (buffer : list LabelRequest) : list LabelRequest :=
  buffer ++ [ {| text := text; transform := transform; type := type;
                 params := params; options := options |} ].

(** [TextStyle::parseRule] (textStyle.cpp, 54-91) *)
Definition parseRule `{Externals} (style : t) (_rule : DrawRule)
    : TextParams.Parameters :=
  let p := default_Parameters in
  let fontFamily := (get (get_string _rule StyleParamKey.font_family) ""%string).2 in
  let fontWeight := (get (get_string _rule StyleParamKey.font_weight) ""%string).2 in
  let fontStyle := (get (get_string _rule StyleParamKey.font_style) ""%string).2 in
  let fontSize := (get (get_float _rule StyleParamKey.font_size) (TextParams.fontSize p)).2 in
  let fill := (get (get_color _rule StyleParamKey.font_fill) (TextParams.fill p)).2 in
  let offset := (get (get_vec2 _rule StyleParamKey.offset) (TextParams.offset p)).2 in
  let strokeColor :=
    let '(found, c) := get (get_color _rule StyleParamKey.font_stroke)
                           (TextParams.strokeColor p) in
    if found then (get (get_color _rule StyleParamKey.font_stroke_color) c).2
    else c in
  let strokeWidth := (get (get_float _rule StyleParamKey.font_stroke_width)
                          (TextParams.strokeWidth p)).2 in
  let transform := (get (get_string _rule StyleParamKey.transform) ""%string).2 in
  let visible := (get (get_bool _rule StyleParamKey.visible) (TextParams.visible p)).2 in
  let priority := (get (get_int _rule StyleParamKey.priority) (TextParams.priority p)).2 in
  let textSource := (get (get_string _rule StyleParamKey.text_source)
                         (TextParams.textSource p)).2 in
  let p_transform :=
    if String.eqb transform capitalize then TextParams.capitalize
    else if String.eqb transform lowercase then TextParams.lowercase
    else if String.eqb transform uppercase then TextParams.uppercase
    else TextParams.transform p in
  let fontKey := (fontFamily ++ "_" ++ fontWeight ++ "_" ++ fontStyle)%string in
  let emSize := (fontSize / 16)%R in
  {| TextParams.fontKey := fontKey;
     TextParams.fontSize := (fontSize * m_pixelScale style)%R;
     TextParams.fill := fill;
     TextParams.strokeColor := strokeColor;
     TextParams.strokeWidth := strokeWidth;
     TextParams.offset := offset;
     TextParams.blurSpread := if m_sdf style then (emSize * 5)%R else 0%R;
     TextParams.transform := p_transform;
     TextParams.visible := visible;
     TextParams.priority := priority;
     TextParams.textSource := textSource |}.

(** [TextStyle::optionsFromTextParams] (textStyle.cpp, 93-99) *)
Definition optionsFromTextParams (_params : TextParams.Parameters) : Options :=
  {| color := TextParams.fill _params;
     opt_priority := TextParams.priority _params;
     opt_offset := TextParams.offset _params |}.

(** [s.empty()] *)
Definition empty (s : string) : bool :=
  match s with
  | EmptyString => true
  | String _ _ => false
  end.

(** [TextStyle::applyTextSource] (textStyle.cpp, 101-107) *)
Definition applyTextSource (_parameters : TextParams.Parameters)
    (_props : gmap string string) : string :=
  if negb (empty (TextParams.textSource _parameters)) then
    TextParams.textSource _parameters
  else getString _props key_name.

(** [TextStyle::buildPoint] (textStyle.cpp, 109-123) *)
Definition buildPoint `{Externals} (style : t) (_point : vec3)
    (_rule : DrawRule) (_props : gmap string string)
    (buffer : list LabelRequest) : list LabelRequest :=
  let params := parseRule style _rule in
  if negb (TextParams.visible params) then buffer
  else
    let text := applyTextSource params _props in
    if (String.length text =? 0)%nat then buffer
    else
      addLabel text
        {| Label.anchor1 := vec2_of _point; Label.anchor2 := vec2_of _point |}
        Label.point params (optionsFromTextParams params) buffer.

(** How a run of [buildLine] ends: it returns with the mesh it built,
    it indexes the line outside its bounds, or the fuel given to the
    loop is used up. *)
Inductive outcome :=
| Done (buffer : list LabelRequest)
| OutOfBounds (i : Z)
| OutOfFuel.

(** [float minLength = 0.15] *)
Definition minLength : R := (15 / 100)%R.

(** [int lineLength = _line.size()] *)
Definition lineLength (_line : list vec3) : Z := to_int (size _line).

(** [int skipOffset = floor(lineLength / 2)]: the division is the
    integer one, so [floor] and the conversion back to [int] receive an
    integral value and return it. *)
Definition skipOffset (_line : list vec3) : Z := Z.quot (lineLength _line) 2.

(** The loop condition [i < _line.size() - 1], in [size_t]. *)
Definition loop_continues (_line : list vec3) (i : Z) : bool :=
  i <? size_t_sub (size _line) 1.

(** The loop increment [i += skipOffset], in [size_t]. *)
Definition loop_next (_line : list vec3) (i : Z) : Z :=
  size_t_add i (to_size_t (skipOffset _line)).

(** The loop of [buildLine] (textStyle.cpp, 143-155); one unit of
    [fuel] is spent per evaluation of the loop condition. *)
Fixpoint buildLine_loop (fuel : nat) (_line : list vec3) (text : string)
    (params : TextParams.Parameters) (i : Z) (buffer : list LabelRequest)
    : outcome :=
  match fuel with
  | O => OutOfFuel
  | S fuel' =>
      if loop_continues _line i then
        match _line !! Z.to_nat i, _line !! Z.to_nat (size_t_add i 1) with
        | Some a, Some b =>
            let p1 := vec2_of a in
            let p2 := vec2_of b in
            let p1p2 := vec2_sub p2 p1 in
            let length := vec2_length p1p2 in
            if Rltb length minLength then
              buildLine_loop fuel' _line text params (loop_next _line i) buffer
            else
              buildLine_loop fuel' _line text params (loop_next _line i)
                (addLabel text {| Label.anchor1 := p1; Label.anchor2 := p2 |}
                          Label.line params (optionsFromTextParams params)
                          buffer)
        | _, _ => OutOfBounds i
        end
      else Done buffer
  end.

(** [TextStyle::buildLine] (textStyle.cpp, 125-157).  The loop is given
    one unit of fuel more than the line has points. *)
Definition buildLine `{Externals} (style : t) (_line : list vec3)
    (_rule : DrawRule) (_props : gmap string string)
    (buffer : list LabelRequest) : outcome :=
  let params := parseRule style _rule in
  if negb (TextParams.visible params) then Done buffer
  else
    let text := applyTextSource params _props in
    if (String.length text =? 0)%nat then Done buffer
    else buildLine_loop (S (length _line)) _line text params 0 buffer.

(** The two nested loops of [buildPolygon] (textStyle.cpp, 172-181):
    the running sum of the coordinates and the count [n].  [centroid]
    starts as the zero vector.  [n] is an [int]: [n++] is taken in two's
    complement, so that the count after [INT_MAX] is [INT_MIN] (the C++
    standard leaves this increment undefined). *)
Definition accumulate_ring (acc : vec2 * Z) (l : list vec3) : vec2 * Z :=
  fold_left (fun '(centroid, n) p =>
               (Vec2 (vx centroid + x3 p)%R (vy centroid + y3 p)%R,
                to_int (n + 1)))
            l acc.

Definition accumulate (_polygon : list (list vec3)) : vec2 * Z :=
  fold_left accumulate_ring _polygon (Vec2 0 0, 0).

(** [TextStyle::buildPolygon] (textStyle.cpp, 159-187) *)
Definition buildPolygon `{Externals} (style : t) (_polygon : list (list vec3))
    (_rule : DrawRule) (_props : gmap string string)
    (buffer : list LabelRequest) : list LabelRequest :=
  let params := parseRule style _rule in
  if negb (TextParams.visible params) then buffer
  else
    let text := applyTextSource params _props in
    if (String.length text =? 0)%nat then buffer
    else
      let '(centroid, n) := accumulate _polygon in
      if n =? 0 then buffer
      else
        let centroid := vec2_div centroid n in
        addLabel text
          {| Label.anchor1 := centroid; Label.anchor2 := centroid |}
          Label.point params (optionsFromTextParams params) buffer.

(** *** Reference definitions, in the words of the specification *)

(** The text source and the visibility flag of a rule: the value the
    rule carries under the key, the default of [Parameters] when it
    carries none. *)
Definition rule_text_source `{Externals} (_rule : DrawRule) : string :=
  match get_string _rule StyleParamKey.text_source with
  | Some s => s
  | None => TextParams.textSource default_Parameters
  end.

Definition rule_visible `{Externals} (_rule : DrawRule) : bool :=
  match get_bool _rule StyleParamKey.visible with
  | Some b => b
  | None => TextParams.visible default_Parameters
  end.

(** The text of a label: the rule's text source when it is not empty,
    the feature's "name" property otherwise. *)
Definition resolved_text `{Externals} (_rule : DrawRule)
    (_props : gmap string string) : string :=
  if String.eqb (rule_text_source _rule) "" then
    match _props !! "name"%string with Some v => v | None => ""%string end
  else rule_text_source _rule.

(** The unweighted mean of a list of vertices: the sum of each
    coordinate over the number of vertices. *)
Definition sum_x (pts : list vec3) : R := fold_right Rplus 0%R (map x3 pts).
Definition sum_y (pts : list vec3) : R := fold_right Rplus 0%R (map y3 pts).

Definition mean (pts : list vec3) : vec2 :=
  Vec2 (sum_x pts / INR (length pts))%R (sum_y pts / INR (length pts))%R.

(** The polygon label as the specification words it: "at most one
    label, anchored at the unweighted arithmetic mean of all vertices
    flattened across all rings of the polygon; for a polygon containing
    zero vertices in total, no label is produced". *)
Definition centroid_as_stated `{Externals} (style : t)
    (_polygon : list (list vec3)) (_rule : DrawRule)
    (_props : gmap string string) (buffer : list LabelRequest) : Prop :=
  let out := buildPolygon style _polygon _rule _props buffer in
  let centroid := mean (concat _polygon) in
  (out = buffer
   \/ exists l,
        out = buffer ++ [l]
        /\ transform l = {| Label.anchor1 := centroid;
                            Label.anchor2 := centroid |})
  /\ (concat _polygon = [] -> out = buffer).

(** Termination as the specification words it: "buildLine terminates
    for every input line containing at least one point".  Whenever the
    rule is visible and the text is not empty, so that [buildLine]
    enters its loop, the loop comes to its end after some number of
    evaluations of its condition. *)
Definition terminates_as_stated `{Externals} (_line : list vec3) : Prop :=
  _line <> [] ->
  forall (style : t) (_rule : DrawRule) (_props : gmap string string)
         (buffer : list LabelRequest),
    TextParams.visible (parseRule style _rule) = true ->
    applyTextSource (parseRule style _rule) _props <> ""%string ->
    exists fuel out,
      buildLine_loop fuel _line
        (applyTextSource (parseRule style _rule) _props)
        (parseRule style _rule) 0 buffer
      = Done out.

(** The starting indices sampled on a line of [n] points: the multiples
    of the stride [n / 2] among the indices that start a segment. *)
Definition sampled (n : nat) : list nat :=
  filter (fun i => Z.of_nat i mod (Z.of_nat n / 2) = 0) (seq 0 (n - 1)).

(** The segment that starts at index [i], as a label transform. *)
Definition segment (_line : list vec3) (i : nat) : option Label.Transform :=
  match _line !! i, _line !! S i with
  | Some a, Some b =>
      Some {| Label.anchor1 := vec2_of a; Label.anchor2 := vec2_of b |}
  | _, _ => None
  end.

Definition segment_length (tr : Label.Transform) : R :=
  vec2_length (vec2_sub (Label.anchor2 tr) (Label.anchor1 tr)).

(** The line label for a segment. *)
Definition line_label (text : string) (params : TextParams.Parameters)
    (tr : Label.Transform) : LabelRequest :=
  {| text := text; transform := tr; type := Label.line; params := params;
     options := optionsFromTextParams params |}.

(** The label for the segment that starts at index [i]: none when the
    segment is shorter than [minLength] (or when there is no such
    segment). *)
Definition label_at (_line : list vec3) (text : string)
    (params : TextParams.Parameters) (i : nat) : list LabelRequest :=
  match segment _line i with
  | Some tr =>
      if Rltb (segment_length tr) minLength then []
      else [line_label text params tr]
  | None => []
  end.

(** The labels for a list of starting indices, in their order. *)
Definition labels_at (_line : list vec3) (text : string)
    (params : TextParams.Parameters) (indices : list nat)
    : list LabelRequest :=
  flat_map (label_at _line text params) indices.

(** The labels [added] start, in this order, at the points of the line
    with the given indices. *)
Definition labels_start_at (_line : list vec3) (indices : list nat)
    (added : list LabelRequest) : Prop :=
  map (fun l => Some (Label.anchor1 (transform l))) added
  = map (fun i => vec2_of <$> _line !! i) indices.

(** No sub-segment of the line is below the threshold. *)
Definition no_short_segment (_line : list vec3) : Prop :=
  forall i tr, segment _line i = Some tr -> (minLength <= segment_length tr)%R.

(** The nine-point scenario as the specification words it: labels at
    the starting indices 0, 4 and 8. *)
Definition nine_points_as_stated `{Externals} (style : t)
    (_line : list vec3) (_rule : DrawRule) (_props : gmap string string)
    (buffer : list LabelRequest) : Prop :=
  length _line = 9%nat ->
  TextParams.visible (parseRule style _rule) = true ->
  applyTextSource (parseRule style _rule) _props <> ""%string ->
  no_short_segment _line ->
  exists added,
    buildLine style _line _rule _props buffer = Done (buffer ++ added)
    /\ labels_start_at _line [0; 4; 8]%nat added.

End TextStyle.

(** ** Concrete inputs

    One implementation of the collaborators and a few inputs, at which
    the results below are instantiated. *)

Definition sample_externals : Externals :=
  {| Mat4 := unit;
     mat_mul := fun _ _ => tt;
     Label_update := fun _ _ _ l => l;
     new_TextLabel := fun tr _ _ _ =>
       {| Label.m_transform := tr; Label.m_state := Label.NONE;
          Label.m_occludable := true; Label.m_occluded := false;
          Label.m_occludedLastFrame := false;
          Label.m_aabb := {| Label.m_min := Label.anchor1 tr;
                             Label.m_max := Label.anchor2 tr;
                             Label.m_userData := None |} |};
     new_SpriteLabel := fun tr _ =>
       {| Label.m_transform := tr; Label.m_state := Label.NONE;
          Label.m_occludable := false; Label.m_occluded := false;
          Label.m_occludedLastFrame := false;
          Label.m_aabb := {| Label.m_min := Label.anchor1 tr;
                             Label.m_max := Label.anchor2 tr;
                             Label.m_userData := None |} |};
     Buffer := Z;
     genTextID := fun b => (b, b + 1);
     rasterize := fun l b => (true, l, b);
     s_maxZoom := 18%R;
     MAX_LOD := 6;
     MAX_LOD_int := ltac:(split; cbv; discriminate);
     default_Parameters :=
       {| TextParams.fontKey := ""; TextParams.fontSize := 12%R;
          TextParams.fill := 0; TextParams.strokeColor := 0;
          TextParams.strokeWidth := 0%R; TextParams.offset := Vec2 0 0;
          TextParams.blurSpread := 0%R;
          TextParams.transform := TextParams.none;
          TextParams.visible := true; TextParams.priority := 0;
          TextParams.textSource := "" |} |}.

Definition sample_tileID : Labels.TileID :=
  {| Labels.tile_x := 0; Labels.tile_y := 0; Labels.z := 0 |}.

Definition sample_unit (p : ptr) : Labels.LabelUnit :=
  {| Labels.m_label := p; Labels.m_tileID := sample_tileID;
     Labels.m_styleName := "text" |}.

Definition sample_view : @Labels.View sample_externals :=
  @Labels.Build_View sample_externals 0%R tt 800%R 600%R.

Definition sample_tile : @Labels.MapTile sample_externals :=
  @Labels.Build_MapTile sample_externals sample_tileID tt [].

(** A manager at zoom 0 with two units in its list, the second one
    dangling, and one pending unit; labels 1 and 2 are alive. *)
Definition sample_labels : @Labels.t sample_externals :=
  @Labels.Build_t sample_externals
    [sample_unit 1%positive; sample_unit 7%positive]
    [sample_unit 2%positive]
    0%R (Vec2 800 600) sample_view (Some 0).

Definition sample_world : @Labels.World sample_externals :=
  @Labels.Build_World sample_externals sample_labels
    (cells Labels.two_labels) 0%nat.

(** The same manager with the view zoomed in to 19. *)
Definition zoomed_world : @Labels.World sample_externals :=
  @Labels.Build_World sample_externals
    (@Labels.Build_t sample_externals
       [sample_unit 1%positive] [] 19%R (Vec2 800 600) sample_view (Some 0))
    (cells Labels.two_labels) 0%nat.

Definition sample_style : TextStyle.t :=
  {| TextStyle.m_sdf := false; TextStyle.m_sdfMultisampling := false;
     TextStyle.m_pixelScale := 1%R |}.

(** A rule that sets nothing: the defaults apply (visible, no text
    source of its own). *)
Definition plain_rule : TextStyle.DrawRule :=
  {| TextStyle.get_string := fun _ => None;
     TextStyle.get_float := fun _ => None;
     TextStyle.get_color := fun _ => None;
     TextStyle.get_vec2 := fun _ => None;
     TextStyle.get_bool := fun _ => None;
     TextStyle.get_int := fun _ => None |}.

(** A rule with an empty text source of its own: the text falls back on
    the "name" of the feature; without a name no label is built. *)
Definition empty_source_rule : TextStyle.DrawRule :=
  {| TextStyle.get_string := fun k =>
       match k with
       | StyleParamKey.text_source => Some ""%string
       | _ => None
       end;
     TextStyle.get_float := fun _ => None;
     TextStyle.get_color := fun _ => None;
     TextStyle.get_vec2 := fun _ => None;
     TextStyle.get_bool := fun _ => None;
     TextStyle.get_int := fun _ => None |}.

Definition street_props : gmap string string :=
  {[ "name"%string := "Main Street"%string ]}.

(** Nine points one unit apart on a straight line. *)
Definition nine_points : list vec3 :=
  [Vec3 0 0 0; Vec3 1 0 0; Vec3 2 0 0; Vec3 3 0 0; Vec3 4 0 0;
   Vec3 5 0 0; Vec3 6 0 0; Vec3 7 0 0; Vec3 8 0 0].

(** The same manager with the view zoomed in to 19.5, past
    [s_maxZoom + 1]. *)
Definition overzoomed_world : @Labels.World sample_externals :=
  @Labels.Build_World sample_externals
    (@Labels.Build_t sample_externals
       [sample_unit 1%positive] [] 19.5%R (Vec2 800 600) sample_view (Some 0))
    (cells Labels.two_labels) 0%nat.

(** Two rules that name the font "Open Sans bold" in two ways: the
    family "Open_Sans" in weight "bold", and the family "Open" in weight
    "Sans_bold". *)
Definition open_sans_rule : TextStyle.DrawRule :=
  {| TextStyle.get_string := fun k =>
       match k with
       | StyleParamKey.font_family => Some "Open_Sans"%string
       | StyleParamKey.font_weight => Some "bold"%string
       | _ => None
       end;
     TextStyle.get_float := fun _ => None;
     TextStyle.get_color := fun _ => None;
     TextStyle.get_vec2 := fun _ => None;
     TextStyle.get_bool := fun _ => None;
     TextStyle.get_int := fun _ => None |}.

Definition open_rule : TextStyle.DrawRule :=
  {| TextStyle.get_string := fun k =>
       match k with
       | StyleParamKey.font_family => Some "Open"%string
       | StyleParamKey.font_weight => Some "Sans_bold"%string
       | _ => None
       end;
     TextStyle.get_float := fun _ => None;
     TextStyle.get_color := fun _ => None;
     TextStyle.get_vec2 := fun _ => None;
     TextStyle.get_bool := fun _ => None;
     TextStyle.get_int := fun _ => None |}.

(** A font context whose rasterization always fails. *)
Definition failing_externals : Externals :=
  {| Mat4 := unit;
     mat_mul := fun _ _ => tt;
     Label_update := fun _ _ _ l => l;
     new_TextLabel := @new_TextLabel sample_externals;
     new_SpriteLabel := @new_SpriteLabel sample_externals;
     Buffer := Z;
     genTextID := fun b => (b, b + 1);
     rasterize := fun l b => (false, l, b);
     s_maxZoom := 18%R;
     MAX_LOD := 6;
     MAX_LOD_int := ltac:(split; cbv; discriminate);
     default_Parameters := @default_Parameters sample_externals |}.

Definition failing_world : @Labels.World failing_externals :=
  @Labels.Build_World failing_externals
    (@Labels.Build_t failing_externals
       [sample_unit 1%positive] [sample_unit 2%positive] 0%R (Vec2 800 600)
       (@Labels.Build_View failing_externals 0%R tt 800%R 600%R) (Some 0))
    (cells Labels.two_labels) 0%nat.

Definition failing_tile : @Labels.MapTile failing_externals :=
  @Labels.Build_MapTile failing_externals sample_tileID tt [].

(** A polygon of three vertices in two rings. *)
Definition sample_polygon : list (list vec3) :=
  [[Vec3 0 0 0; Vec3 2 0 0]; [Vec3 4 6 0]].

(** A polygon of one ring that holds the vertex (1, 0) 2^31 times: one
    more than [INT_MAX]. *)
Definition overflowing_polygon : list (list vec3) :=
  [repeat (Vec3 1 0 0) (Z.to_nat (2 ^ 31))].

(** A ring that holds the vertex (1, 0) 2^32 times: as many as an
    [int] has values. *)
Definition wrapped_polygon : list (list vec3) :=
  [repeat (Vec3 1 0 0) (Z.to_nat (2 ^ 32))].

(** A line of 2^32 + 1 points: one more than the number of values of
    an [int]. *)
Definition wrapped_line : list vec3 :=
  repeat (Vec3 0 0 0) (Z.to_nat (2 ^ 32 + 1)).

(** ** The rest of the occlusion pass

    The boxes the prune loop collects, the narrow phase that fills the
    set of occlusions, and the loop that closes the pass
    (labels.cpp, 79-111 and 125-130). *)

Module Pass.

(** The intersection library and the parts of [Label] that these lines
    use, all declared outside the two source files: the oriented box of
    a label, the broad phase over the collected boxes (a split and a
    resolution; the result is iterated as pairs of indices into the
    boxes), the narrow test on two oriented boxes, and
    [Label::occlusionSolved]. *)
Class Intersection := {
  OBB : Type;
  getOBB : Label.t -> OBB;
  broad_phase : list Label.AABB -> vec2 -> vec2 -> list (Z * Z);
  narrow_phase : OBB -> OBB -> bool;
  occlusionSolved : Label.t -> Label.t
}.

(** The box a unit contributes to [aabbs]: the box of its label with the
    back-pointer set, when the label is alive and can occlude. *)
Definition box_of (heap : gmap ptr Label.t) (u : Labels.LabelUnit)
    : list Label.AABB :=
  match Labels.getWeakLabel heap u with
  | Some (p, label) =>
      if negb (Label.canOcclude label) then []
      else [Labels.with_userData (Label.getAABB label) p]
  | None => []
  end.

Definition boxes (heap : gmap ptr Label.t) (units : list Labels.LabelUnit)
    : list Label.AABB :=
  flat_map (box_of heap) units.

(** The order of [std::set<std::pair<Label*, Label*>>]: pairs compare
    by their first pointer, then by their second. *)
Definition pair_lt (a b : ptr * ptr) : bool :=
  (a.1 <? b.1)%positive || ((a.1 =? b.1)%positive && (a.2 <? b.2)%positive).

(** [occlusions.insert(x)] on the set kept as the list of its elements
    in iteration order: nothing changes when [x] is there already. *)
Fixpoint set_insert (x : ptr * ptr) (occlusions : list (ptr * ptr))
    : list (ptr * ptr) :=
  match occlusions with
  | [] => [x]
  | y :: rest =>
      if pair_lt x y then x :: y :: rest
      else if pair_lt y x then y :: set_insert x rest
      else y :: rest
  end.

(** Lines 102-111: the loop over the pairs of the broad phase.  [None]
    stands for an index outside [aabbs] or for a back-pointer that is
    null or not bound. *)
Fixpoint narrow_loop `{Intersection} (heap : gmap ptr Label.t)
    (aabbs : list Label.AABB) (pairs : list (Z * Z))
    (occlusions : list (ptr * ptr)) : option (list (ptr * ptr)) :=
  match pairs with
  | [] => Some occlusions
  | pr :: rest =>
      match aabbs !! Z.to_nat (to_size_t pr.1),
            aabbs !! Z.to_nat (to_size_t pr.2) with
      | Some aabb1, Some aabb2 =>
          match Label.m_userData aabb1, Label.m_userData aabb2 with
          | Some l1, Some l2 =>
              match heap !! l1, heap !! l2 with
              | Some label1, Some label2 =>
                  narrow_loop heap aabbs rest
                    (if narrow_phase (getOBB label1) (getOBB label2)
                     then set_insert (l1, l2) occlusions
                     else occlusions)
              | _, _ => None
              end
          | _, _ => None
          end
      | _, _ => None
      end
  end.

(** Lines 125-130: [occlusionSolved] on the label of every unit that
    still resolves. *)
Fixpoint solve_loop `{Intersection} (units : list Labels.LabelUnit)
    (heap : gmap ptr Label.t) : gmap ptr Label.t :=
  match units with
  | [] => heap
  | labelUnit :: rest =>
      match Labels.getWeakLabel heap labelUnit with
      | Some (p, label) => solve_loop rest (<[p := occlusionSolved label]> heap)
      | None => solve_loop rest heap
      end
  end.

(** [Labels::updateOcclusions] as a whole (labels.cpp, 67-131).  The
    result is the world afterwards and the [setOcclusion] calls made, in
    program order. *)
Definition updateOcclusions `{Externals} `{Intersection} (w : Labels.World)
    : option (Labels.World * list (ptr * bool)) :=
  match Labels.merge_and_prune w with
  | None => None
  | Some (w1, aabbs) =>
      let view := Labels.m_view (Labels.this w1) in
      let pairs := broad_phase aabbs (Vec2 4 4)
                     (Vec2 (Labels.getWidth view) (Labels.getHeight view)) in
      match narrow_loop (Labels.heap w1) aabbs pairs [] with
      | None => None
      | Some occlusions =>
          match Labels.resolve occlusions
                  {| cells := Labels.heap w1; calls := [] |} with
          | None => None
          | Some (_, s) =>
              Some ({| Labels.this := Labels.this w1;
                       Labels.heap :=
                         solve_loop (Labels.m_labelUnits (Labels.this w1))
                                    (cells s);
                       Labels.allocations := Labels.allocations w1 |},
                    calls s)
          end
      end
  end.

(** What the pass needs from the broad phase: the indices it reports
    are indices of the boxes it was given. *)
Definition in_bounds (aabbs : list Label.AABB) (pr : Z * Z) : Prop :=
  (0 <= pr.1 < size aabbs) /\ (0 <= pr.2 < size aabbs).

Definition broad_phase_in_bounds `{Intersection} : Prop :=
  forall aabbs split resolution,
    Forall (in_bounds aabbs) (broad_phase aabbs split resolution).

(** The pair of labels behind a pair of indices, when the narrow test
    accepts it. *)
Definition accepted `{Intersection} (heap : gmap ptr Label.t)
    (aabbs : list Label.AABB) (ij : Z * Z) : option (ptr * ptr) :=
  match aabbs !! Z.to_nat ij.1, aabbs !! Z.to_nat ij.2 with
  | Some aabb1, Some aabb2 =>
      match Label.m_userData aabb1, Label.m_userData aabb2 with
      | Some l1, Some l2 =>
          match heap !! l1, heap !! l2 with
          | Some label1, Some label2 =>
              if narrow_phase (getOBB label1) (getOBB label2)
              then Some (l1, l2) else None
          | _, _ => None
          end
      | _, _ => None
      end
  | _, _ => None
  end.

(** The back-pointer of a box is bound. *)
Definition box_live (heap : gmap ptr Label.t) (a : Label.AABB) : Prop :=
  exists p, Label.m_userData a = Some p /\ is_Some (heap !! p).

(** The set is in its iteration order: strictly increasing. *)
Definition set_ordered (occlusions : list (ptr * ptr)) : Prop :=
  StronglySorted (fun a b => pair_lt a b = true) occlusions.

End Pass.

(** ** The debug overlay ([Labels::drawDebug], labels.cpp, 133-166) *)

Module Debug.

(** The calls to [Primitives]: the outline of a label, named by its
    pointer, and a rectangle by its two corners. *)
Inductive draw :=
| DrawPoly (label : ptr)
| DrawRect (x y x2 y2 : Z).

(** Conversion of an integer value to [short] (two's complement, 16
    bits), and [ceilf]. *)
Definition to_short (z : Z) : Z := (z + 2 ^ 15) mod 2 ^ 16 - 2 ^ 15.
Definition ceilf (x : R) : R := IZR (- Int_part (- x)).

(** Lines 139-146: the outline of every label that is alive and can
    occlude, in the order of the list. *)
Definition outlines (heap : gmap ptr Label.t) (units : list Labels.LabelUnit)
    : list draw :=
  flat_map (fun labelUnit =>
              match Labels.getWeakLabel heap labelUnit with
              | Some (p, label) =>
                  if Label.canOcclude label then [DrawPoly p] else []
              | None => []
              end)
           units.

(** The body of the inner loop (lines 156-162) on the [short]s [x] and
    [y] and the rectangles drawn so far.  The corners [x + xpad] and
    [y + ypad] are computed in [int]. *)
Definition grid_cell (res : vec2) (xpad ypad : Z) (st : Z * Z * list draw)
    : Z * Z * list draw :=
  let '(x, y, out) := st in
  let out := out ++ [DrawRect x y (x + xpad) (y + ypad)] in
  let x := to_short (x + xpad) in
  if negb (Rltb (IZR x) (vx res)) then (0, to_short (y + ypad), out)
  else (x, y, out).

(** Lines 148-164: [split] is (4, 4), so each of the two loops runs
    four times. *)
Definition grid (res : vec2) : list draw :=
  let split := Vec2 4 4 in
  let xpad := to_short (int_of_float (ceilf (vx res / vx split))) in
  let ypad := to_short (int_of_float (ceilf (vy res / vy split))) in
  (Nat.iter 4 (Nat.iter 4 (grid_cell res xpad ypad)) (0, 0, [])).2.

(** [Labels::drawDebug], given the value of the debug flag for labels. *)
Definition drawDebug `{Externals} (flag : bool) (w : Labels.World) : list draw :=
  if negb flag then []
  else
    let view := Labels.m_view (Labels.this w) in
    outlines (Labels.heap w) (Labels.m_labelUnits (Labels.this w))
    ++ grid (Vec2 (Labels.getWidth view) (Labels.getHeight view)).

(** The cells of a regular grid of four by four, row by row. *)
Definition regular_grid (xpad ypad : Z) : list draw :=
  flat_map (fun j =>
              map (fun i => DrawRect (i * xpad) (j * ypad)
                                     ((i + 1) * xpad) ((j + 1) * ypad))
                  [0; 1; 2; 3])
           [0; 1; 2; 3].

(** The least integer that is not below [x]. *)
Definition ceiling (x : R) : Z := - Int_part (- x).

End Debug.

(** An intersection library for the concrete inputs: the broad phase
    reports the first two boxes, the narrow test accepts every pair, and
    [occlusionSolved] makes the mark of the frame the verdict of the
    previous one. *)
Definition sample_intersection : Pass.Intersection :=
  {| Pass.OBB := Label.AABB;
     Pass.getOBB := Label.getAABB;
     Pass.broad_phase := fun aabbs _ _ =>
       if 2 <=? size aabbs then [(0, 1)] else [];
     Pass.narrow_phase := fun _ _ => true;
     Pass.occlusionSolved := fun l =>
       {| Label.m_transform := Label.m_transform l;
          Label.m_state := Label.WAIT_OCC;
          Label.m_occludable := Label.m_occludable l;
          Label.m_occluded := false;
          Label.m_occludedLastFrame := Label.m_occluded l;
          Label.m_aabb := Label.m_aabb l |} |}.

(** * Properties *)

(** ** Reading and marking through pointers *)

Lemma occludedLastFrame_live s p :
  live s p -> occludedLastFrame p s = Some (Labels.last_frame s p, s).
Proof.
  intros [l Hl]. unfold occludedLastFrame, Labels.last_frame. now rewrite Hl.
Qed.

Lemma getState_waiting {A} s p (k : bool -> M A) :
  live s p ->
  bind (getState p) (fun st => k (Label.State_eqb st Label.WAIT_OCC)) s
  = k (Labels.waiting s p) s.
Proof.
  intros [l Hl]. unfold bind, getState, Labels.waiting. now rewrite Hl.
Qed.

Lemma setOcclusion_live s p b :
  live s p -> setOcclusion p b s = Some (tt, marked p b s).
Proof.
  intros [l Hl]. unfold setOcclusion, marked. rewrite Hl.
  do 3 f_equal. apply map_eq. intros q.
  destruct (decide (p = q)) as [->|Hne].
  - now rewrite lookup_insert_eq, lookup_alter_eq, Hl.
  - now rewrite lookup_insert_ne, lookup_alter_ne.
Qed.

Lemma setOcclusion_dead s p b :
  cells s !! p = None -> setOcclusion p b s = None.
Proof. intros Hl. unfold setOcclusion. now rewrite Hl. Qed.

Lemma marked_lookup p b s q :
  cells (marked p b s) !! q
  = if decide (p = q) then Label.setOcclusion b <$> cells s !! q
    else cells s !! q.
Proof.
  unfold marked; simpl. destruct (decide (p = q)) as [->|Hne].
  - apply lookup_alter_eq.
  - now apply lookup_alter_ne.
Qed.

Lemma marked_live p b s q : live (marked p b s) q <-> live s q.
Proof.
  unfold live. rewrite marked_lookup. destruct (decide (p = q)); [|tauto].
  rewrite fmap_is_Some. tauto.
Qed.

Lemma marked_last_frame p b s q :
  Labels.last_frame (marked p b s) q = Labels.last_frame s q.
Proof.
  unfold Labels.last_frame. rewrite marked_lookup.
  destruct (decide (p = q)); [|reflexivity].
  now destruct (cells s !! q).
Qed.

Lemma marked_waiting p b s q :
  Labels.waiting (marked p b s) q = Labels.waiting s q.
Proof.
  unfold Labels.waiting. rewrite marked_lookup.
  destruct (decide (p = q)); [|reflexivity].
  now destruct (cells s !! q).
Qed.

Lemma marked_occluded p b s q :
  live s q ->
  Labels.occluded (marked p b s) q
  = if decide (p = q) then b else Labels.occluded s q.
Proof.
  intros [l Hl]. unfold Labels.occluded. rewrite marked_lookup, Hl.
  now destruct (decide (p = q)).
Qed.

Lemma marked_other p b s q :
  p <> q -> cells (marked p b s) !! q = cells s !! q.
Proof. intros Hne. rewrite marked_lookup. now destruct (decide (p = q)). Qed.

Lemma marked_if_live c p s q : live (marked_if c p s) q <-> live s q.
Proof. destruct c; simpl; [apply marked_live | tauto]. Qed.

Lemma marked_if_last_frame c p s q :
  Labels.last_frame (marked_if c p s) q = Labels.last_frame s q.
Proof. destruct c; simpl; [apply marked_last_frame | reflexivity]. Qed.

Lemma marked_if_waiting c p s q :
  Labels.waiting (marked_if c p s) q = Labels.waiting s q.
Proof. destruct c; simpl; [apply marked_waiting | reflexivity]. Qed.

Lemma marked_if_other c p s q :
  p <> q -> cells (marked_if c p s) !! q = cells s !! q.
Proof. destruct c; simpl; [apply marked_other | reflexivity]. Qed.

Lemma marked_if_calls c p s :
  calls (marked_if c p s) = calls s ++ (if c then [(p, true)] else []).
Proof. destruct c; simpl; [reflexivity | now rewrite app_nil_r]. Qed.

(** The first two checks of the source, on live pointers. *)
Lemma guarded_check_live s X Y :
  live s X -> live s Y ->
  bind (occludedLastFrame X)
       (fun o => when (negb o)
          (bind (getState Y)
             (fun st => when (Label.State_eqb st Label.WAIT_OCC)
                             (setOcclusion Y true)))) s
  = Some (tt, marked_if (negb (Labels.last_frame s X) && Labels.waiting s Y) Y s).
Proof.
  intros HX HY. unfold bind at 1. rewrite (occludedLastFrame_live _ _ HX).
  destruct (Labels.last_frame s X); simpl; [reflexivity|].
  rewrite (getState_waiting s Y (fun c => when c (setOcclusion Y true)) HY).
  destruct (Labels.waiting s Y); simpl; [|reflexivity].
  now apply setOcclusion_live.
Qed.

(** The third check of the source, on live pointers. *)
Lemma plain_check_live s X Y :
  live s X -> live s Y ->
  bind (occludedLastFrame Y) (fun o => when (negb o) (setOcclusion X true)) s
  = Some (tt, marked_if (negb (Labels.last_frame s Y)) X s).
Proof.
  intros HX HY. unfold bind. rewrite (occludedLastFrame_live _ _ HY).
  destruct (Labels.last_frame s Y); simpl; [reflexivity|].
  now apply setOcclusion_live.
Qed.

(** The store after the three checks on a pair of live labels. *)
Lemma resolve_pair_live s A B :
  live s A -> live s B ->
  Labels.resolve_pair (A, B) s
  = Some (tt,
      marked_if (negb (Labels.last_frame s B)) A
        (marked_if (negb (Labels.last_frame s B) && Labels.waiting s A) A
           (marked_if (negb (Labels.last_frame s A) && Labels.waiting s B) B s))).
Proof.
  intros HA HB. unfold Labels.resolve_pair. cbn [fst snd].
  unfold bind at 1. rewrite (guarded_check_live s A B HA HB).
  unfold bind at 1. rewrite guarded_check_live by now apply marked_if_live.
  rewrite plain_check_live by now repeat apply marked_if_live.
  now rewrite !marked_if_last_frame, !marked_if_waiting.
Qed.

Lemma not_occluded_last_frame_live s p :
  live s p ->
  Labels.not_occluded_last_frame p s = Some (negb (Labels.last_frame s p), s).
Proof.
  intros Hp. unfold Labels.not_occluded_last_frame, bind.
  now rewrite (occludedLastFrame_live _ _ Hp).
Qed.

Lemma in_WAIT_OCC_live s p :
  live s p -> Labels.in_WAIT_OCC p s = Some (Labels.waiting s p, s).
Proof.
  intros Hp. unfold Labels.in_WAIT_OCC.
  now rewrite (getState_waiting s p (fun c => ret c) Hp).
Qed.

Lemma run_check_live s g c p :
  live s p -> g s = Some (c, s) ->
  Labels.run_check {| Labels.guard := g; Labels.target := p |} s
  = Some (tt, marked_if c p s).
Proof.
  intros Hp Hg. unfold Labels.run_check, bind; simpl. rewrite Hg.
  destruct c; simpl; [now apply setOcclusion_live | reflexivity].
Qed.

Lemma run_checks_live s A B :
  live s A -> live s B ->
  Labels.run_checks (Labels.tie_break A B) s
  = Some (tt,
      marked_if (negb (Labels.last_frame s B)) A
        (marked_if (negb (Labels.last_frame s B) && Labels.waiting s A) A
           (marked_if (negb (Labels.last_frame s A) && Labels.waiting s B) B s))).
Proof.
  intros HA HB. unfold Labels.tie_break, Labels.run_checks.
  unfold bind at 1.
  rewrite (run_check_live s _ (negb (Labels.last_frame s A) && Labels.waiting s B) B HB).
  2:{ unfold Labels.both, bind.
      now rewrite (not_occluded_last_frame_live _ _ HA), (in_WAIT_OCC_live _ _ HB). }
  set (s1 := marked_if _ B s).
  assert (HA1 : live s1 A) by now apply marked_if_live.
  assert (HB1 : live s1 B) by now apply marked_if_live.
  unfold bind at 1.
  rewrite (run_check_live s1 _ (negb (Labels.last_frame s B) && Labels.waiting s A) A HA1).
  2:{ unfold Labels.both, bind.
      rewrite (not_occluded_last_frame_live _ _ HB1), (in_WAIT_OCC_live _ _ HA1).
      unfold s1. now rewrite marked_if_last_frame, marked_if_waiting. }
  set (s2 := marked_if _ A s1).
  assert (HA2 : live s2 A) by now apply marked_if_live.
  assert (HB2 : live s2 B) by now apply marked_if_live.
  unfold bind at 1.
  rewrite (run_check_live s2 _ (negb (Labels.last_frame s B)) A HA2).
  2:{ rewrite (not_occluded_last_frame_live _ _ HB2).
      unfold s2, s1. now rewrite !marked_if_last_frame. }
  reflexivity.
Qed.

(** The three checks of the specification, run on any store, do what
    the source does. *)
Lemma resolve_pair_run_checks s A B :
  Labels.resolve_pair (A, B) s = Labels.run_checks (Labels.tie_break A B) s.
Proof.
  destruct (cells s !! A) as [la|] eqn:HA; destruct (cells s !! B) as [lb|] eqn:HB.
  - rewrite resolve_pair_live, run_checks_live; unfold live; rewrite ?HA, ?HB; eauto.
  - unfold Labels.resolve_pair, Labels.run_checks, Labels.tie_break,
      Labels.run_check, Labels.both, Labels.not_occluded_last_frame,
      Labels.in_WAIT_OCC. cbn [fst snd Labels.guard Labels.target].
    unfold bind, ret, occludedLastFrame, getState, when. rewrite HA, HB.
    destruct (negb (Label.occludedLastFrame la)); simpl; now rewrite ?HB.
  - unfold Labels.resolve_pair, Labels.run_checks, Labels.tie_break,
      Labels.run_check, Labels.both, Labels.not_occluded_last_frame,
      Labels.in_WAIT_OCC. cbn [fst snd Labels.guard Labels.target].
    unfold bind, ret, occludedLastFrame, getState, when. now rewrite HA.
  - unfold Labels.resolve_pair, Labels.run_checks, Labels.tie_break,
      Labels.run_check, Labels.both, Labels.not_occluded_last_frame,
      Labels.in_WAIT_OCC. cbn [fst snd Labels.guard Labels.target].
    unfold bind, ret, occludedLastFrame, getState, when. now rewrite HA.
Qed.

(** C1.  For a pair (A, B) of live labels the resolve step of
    [updateOcclusions] returns, and it is the run of the three checks of
    the specification in their order: (1) A not occluded last frame and
    B in [WAIT_OCC]: mark B; (2) B not occluded last frame and A in
    [WAIT_OCC]: mark A; (3) B not occluded last frame: mark A.  The
    [setOcclusion] calls it makes are exactly the marks of these checks,
    in this order, each with argument [true]; every label other than A
    and B is left as it was. *)
Theorem resolve_pair_three_checks (s : store) (A B : ptr) :
  live s A -> live s B ->
  Labels.resolve_pair (A, B) s = Labels.run_checks (Labels.tie_break A B) s
  /\ exists s',
       Labels.resolve_pair (A, B) s = Some (tt, s')
       /\ calls s' = calls s ++ Labels.marks s A B
       /\ (forall p, p <> A -> p <> B -> cells s' !! p = cells s !! p)
       /\ (forall p, live s' p <-> live s p).
Proof.
  intros HA HB. split; [apply resolve_pair_run_checks|].
  eexists. split; [now apply resolve_pair_live|]. split; [|split].
  - rewrite !marked_if_calls. unfold Labels.marks. now rewrite <- !app_assoc.
  - intros p HpA HpB. rewrite !marked_if_other; congruence.
  - intros p. now rewrite !marked_if_live.
Qed.

(** The theorem at two concrete labels. *)
Lemma resolve_pair_three_checks_witness :
  Labels.resolve_pair (1%positive, 2%positive) Labels.two_labels
  = Labels.run_checks (Labels.tie_break 1%positive 2%positive) Labels.two_labels
  /\ exists s',
       Labels.resolve_pair (1%positive, 2%positive) Labels.two_labels = Some (tt, s')
       /\ calls s' = calls Labels.two_labels
                     ++ Labels.marks Labels.two_labels 1%positive 2%positive
       /\ (forall p, p <> 1%positive -> p <> 2%positive ->
                     cells s' !! p = cells Labels.two_labels !! p)
       /\ (forall p, live s' p <-> live Labels.two_labels p).
Proof.
  apply (resolve_pair_three_checks Labels.two_labels 1%positive 2%positive).
  - exists Labels.visible_label. reflexivity.
  - exists Labels.hidden_label. reflexivity.
Defined.

(** The whole loop over the occlusions: it returns when every pointer
    is live, and the calls it makes are the marks of the pairs, one pair
    after the other, all of them read off the store the loop starts
    from (marking changes neither the previous-frame verdicts nor the
    states). *)
Lemma marks_invariant s s' A B :
  (forall p, Labels.last_frame s' p = Labels.last_frame s p) ->
  (forall p, Labels.waiting s' p = Labels.waiting s p) ->
  Labels.marks s' A B = Labels.marks s A B.
Proof. intros Hl Hw. unfold Labels.marks. now rewrite !Hl, !Hw. Qed.

Lemma resolve_marks (occlusions : list (ptr * ptr)) :
  forall s,
    Forall (fun pr => live s pr.1 /\ live s pr.2) occlusions ->
    exists s',
      Labels.resolve occlusions s = Some (tt, s')
      /\ calls s' = calls s ++ flat_map (fun pr => Labels.marks s pr.1 pr.2) occlusions
      /\ (forall p, live s' p <-> live s p)
      /\ (forall p, Labels.last_frame s' p = Labels.last_frame s p)
      /\ (forall p, Labels.waiting s' p = Labels.waiting s p).
Proof.
  induction occlusions as [|[A B] rest IH]; intros s Hlive.
  - exists s. cbn. rewrite app_nil_r. tauto.
  - apply Forall_cons in Hlive as [[HA HB] Hrest]. cbn [fst snd] in HA, HB.
    cbn [Labels.resolve]. unfold bind at 1.
    rewrite (resolve_pair_live s A B HA HB).
    set (s1 := marked_if _ A _).
    assert (Hl1 : forall p, live s1 p <-> live s p)
      by (intros p; unfold s1; now rewrite !marked_if_live).
    assert (Hf1 : forall p, Labels.last_frame s1 p = Labels.last_frame s p)
      by (intros p; unfold s1; now rewrite !marked_if_last_frame).
    assert (Hw1 : forall p, Labels.waiting s1 p = Labels.waiting s p)
      by (intros p; unfold s1; now rewrite !marked_if_waiting).
    destruct (IH s1) as (s' & Hrun & Hcalls & Hl & Hf & Hw).
    { eapply Forall_impl; [exact Hrest|]. intros pr [? ?].
      split; now apply Hl1. }
    exists s'. split; [exact Hrun|]. split; [|split; [|split]].
    + rewrite Hcalls. unfold s1. rewrite !marked_if_calls.
      cbn [flat_map fst snd]. unfold Labels.marks at 2.
      rewrite <- !app_assoc. do 4 f_equal.
      apply flat_map_ext. intros pr. now apply marks_invariant.
    + intros p. now rewrite Hl.
    + intros p. now rewrite Hf.
    + intros p. now rewrite Hw.
Qed.

(** ** Hysteresis *)

(** The two orientations on the two sample labels: stored as (1, 2)
    the step makes no call; stored as (2, 1) it marks label 2 once, by
    the third check. *)
Example resolve_pair_visible_hidden :
  (fun r => calls r.2) <$> Labels.resolve_pair (1%positive, 2%positive) Labels.two_labels
  = Some [].
Proof. reflexivity. Qed.

Example resolve_pair_hidden_visible :
  (fun r => calls r.2) <$> Labels.resolve_pair (2%positive, 1%positive) Labels.two_labels
  = Some [(2%positive, true)].
Proof. reflexivity. Qed.




(** ** Merge and prune *)

Lemma to_size_t_small z : 0 <= z < size_t_modulus -> to_size_t z = z.
Proof. intros Hz. unfold to_size_t. now apply Z.mod_small. Qed.

(** [i--] followed by the [i++] of the loop header brings [i] back, also
    across the wrap-around at zero. *)
Lemma size_t_dec_inc i :
  0 <= i < size_t_modulus -> size_t_add (size_t_sub i 1) 1 = i.
Proof.
  intros Hi. unfold size_t_add, size_t_sub, to_size_t.
  rewrite Zplus_mod_idemp_l. replace (i - 1 + 1) with i by lia.
  now apply Z.mod_small.
Qed.

Lemma size_app_cons {A} (pre : list A) x rest :
  size (pre ++ x :: rest) = size pre + 1 + size rest.
Proof. unfold size. rewrite length_app. simpl. lia. Qed.

Lemma size_nonneg {A} (v : list A) : 0 <= size v.
Proof. unfold size. lia. Qed.

Lemma insert_at_middle {A} (pre rest : list A) (x y : A) :
  <[length pre := y]> (pre ++ x :: rest) = pre ++ y :: rest.
Proof.
  rewrite insert_app_r_alt by lia. now rewrite Nat.sub_diag.
Qed.

Lemma getWeakLabel_None heap u :
  Labels.getWeakLabel heap u = None <-> ~ Labels.alive heap u.
Proof.
  unfold Labels.getWeakLabel, Labels.alive.
  destruct (heap !! Labels.m_label u) as [l|] eqn:E; split; intros H;
    try discriminate; try reflexivity.
  - exfalso. apply H. eauto.
  - intros [? ?]. discriminate.
Qed.

Lemma getWeakLabel_Some heap u p l :
  Labels.getWeakLabel heap u = Some (p, l) ->
  p = Labels.m_label u /\ heap !! p = Some l.
Proof.
  unfold Labels.getWeakLabel.
  destruct (heap !! Labels.m_label u) as [l'|] eqn:E; [|discriminate].
  intros [= <- <-]. auto.
Qed.

(** One iteration on a dead unit that is not the last one: the last
    unit takes its slot, the vector loses its back, the index stays. *)
Lemma prune_loop_dead_middle fuel heap pre x mid zlast aabbs :
  size (pre ++ x :: mid ++ [zlast]) < size_t_modulus ->
  ~ Labels.alive heap x ->
  Labels.prune_loop (S fuel) heap (pre ++ x :: mid ++ [zlast]) (size pre) aabbs
  = Labels.prune_loop fuel heap (pre ++ zlast :: mid) (size pre) aabbs.
Proof.
  intros Hsz Hx. pose proof (size_nonneg pre) as Hpre.
  pose proof (size_nonneg mid) as Hmid.
  rewrite size_app_cons in Hsz.
  assert (Hm : size (mid ++ [zlast]) = size mid + 1)
    by (unfold size; rewrite length_app; simpl; lia).
  rewrite Hm in Hsz.
  cbn [Labels.prune_loop].
  rewrite size_app_cons, Hm.
  destruct (Z.ltb_spec (size pre) (size pre + 1 + (size mid + 1))); [|lia].
  unfold size at 1. rewrite Nat2Z.id.
  rewrite list_lookup_middle by reflexivity.
  apply getWeakLabel_None in Hx. rewrite Hx.
  unfold size_t_sub at 1. rewrite to_size_t_small by lia.
  replace (Z.to_nat (size pre + 1 + (size mid + 1) - 1))
    with (length (pre ++ x :: mid)) by (rewrite length_app; simpl; unfold size; lia).
  replace (pre ++ x :: mid ++ [zlast]) with ((pre ++ x :: mid) ++ [zlast])
    by now rewrite <- app_assoc.
  rewrite list_lookup_middle by reflexivity.
  rewrite <- app_assoc. cbn [app].
  rewrite size_t_dec_inc by lia.
  f_equal. unfold Labels.pop_back.
  replace (<[Z.to_nat (size pre):=zlast]> (pre ++ x :: mid ++ [zlast]))
    with ((pre ++ zlast :: mid) ++ [zlast]).
  - apply removelast_last.
  - rewrite <- app_assoc. cbn [app]. unfold size. rewrite Nat2Z.id.
    symmetry. apply insert_at_middle.
Qed.

(** One iteration on a dead unit that is the last one: it is dropped. *)
Lemma prune_loop_dead_last fuel heap pre x aabbs :
  size (pre ++ [x]) < size_t_modulus ->
  ~ Labels.alive heap x ->
  Labels.prune_loop (S fuel) heap (pre ++ [x]) (size pre) aabbs
  = Labels.prune_loop fuel heap pre (size pre) aabbs.
Proof.
  intros Hsz Hx. pose proof (size_nonneg pre) as Hpre.
  rewrite size_app_cons in Hsz. change (size (@nil Labels.LabelUnit)) with 0 in Hsz.
  cbn [Labels.prune_loop].
  rewrite size_app_cons. change (size (@nil Labels.LabelUnit)) with 0.
  destruct (Z.ltb_spec (size pre) (size pre + 1 + 0)); [|lia].
  unfold size at 1. rewrite Nat2Z.id.
  rewrite list_lookup_middle by reflexivity.
  apply getWeakLabel_None in Hx. rewrite Hx.
  unfold size_t_sub at 1. rewrite to_size_t_small by lia.
  replace (Z.to_nat (size pre + 1 + 0 - 1)) with (length pre) by (unfold size; lia).
  rewrite list_lookup_middle by reflexivity.
  rewrite size_t_dec_inc by lia.
  f_equal. unfold Labels.pop_back. unfold size. rewrite Nat2Z.id.
  rewrite insert_at_middle. apply removelast_last.
Qed.

(** One iteration on a unit whose label is alive: the unit stays and the
    index moves on. *)
Lemma prune_loop_alive fuel heap units (i : nat) u aabbs :
  size units < size_t_modulus ->
  units !! i = Some u -> Labels.alive heap u ->
  exists aabbs',
    Labels.prune_loop (S fuel) heap units (Z.of_nat i) aabbs
    = Labels.prune_loop fuel heap units (Z.of_nat (S i)) aabbs'.
Proof.
  intros Hsz Hu [l Hl].
  pose proof (lookup_lt_Some _ _ _ Hu) as Hlt.
  cbn [Labels.prune_loop]. unfold size in *.
  destruct (Z.ltb_spec (Z.of_nat i) (Z.of_nat (length units))); [|lia].
  rewrite Nat2Z.id, Hu. unfold Labels.getWeakLabel. rewrite Hl.
  unfold size_t_add. rewrite to_size_t_small by lia.
  replace (Z.of_nat i + 1) with (Z.of_nat (S i)) by lia.
  destruct (negb (Label.canOcclude l)); eauto.
Qed.

(** The loop invariant: the units before the index are alive, and the
    units alive in the vector are those alive at the start. *)
Lemma prune_loop_invariant heap fuel :
  forall units (i : nat) aabbs,
    size units < size_t_modulus ->
    (i <= length units)%nat ->
    Forall (Labels.alive heap) (take i units) ->
    (length units - i < fuel)%nat ->
    exists units' aabbs',
      Labels.prune_loop fuel heap units (Z.of_nat i) aabbs = Some (units', aabbs')
      /\ Forall (Labels.alive heap) units'
      /\ units' ≡ₚ filter (Labels.alive heap) units.
Proof.
  induction fuel as [|fuel IH]; intros units i aabbs Hsz Hi Hpre Hfuel; [lia|].
  destruct (decide (i = length units)) as [->|Hne].
  - (* the loop condition fails *)
    cbn [Labels.prune_loop]. unfold size.
    destruct (Z.ltb_spec (Z.of_nat (length units)) (Z.of_nat (length units))); [lia|].
    rewrite firstn_all in Hpre.
    exists units, aabbs. split; [reflexivity|]. split; [assumption|].
    clear -Hpre. induction Hpre as [|u us Hu _ IHus]; [reflexivity|].
    rewrite filter_cons_True by assumption. now f_equiv.
  - assert (Hlt : (i < length units)%nat) by lia.
    destruct (lookup_lt_is_Some_2 units i Hlt) as [u Hu].
    pose proof (take_drop_middle units i u Hu) as Hsplit.
    assert (Hlen : length (take i units) = i) by (rewrite length_take; lia).
    destruct (decide (Labels.alive heap u)) as [Halive|Hdead].
    + destruct (prune_loop_alive fuel heap units i u aabbs Hsz Hu Halive)
        as [aabbs' ->].
      apply IH; try lia; try assumption.
      rewrite (take_S_r _ _ _ Hu). apply Forall_app. split; [assumption|].
      now constructor.
    + remember (take i units) as pre eqn:Hpre_def.
      assert (Hi' : Z.of_nat i = size pre) by (unfold size; lia).
      assert (Hcase : drop (S i) units = []
                      \/ exists mid y, drop (S i) units = mid ++ [y]).
      { destruct (drop (S i) units) as [|y mid _] using rev_ind; eauto. }
      destruct Hcase as [Hrest|(mid & y & Hrest)]; rewrite Hrest in Hsplit;
        rewrite <- Hsplit, Hi'; rewrite <- Hsplit in Hsz, Hfuel.
      * (* the dead unit is the last one *)
        rewrite prune_loop_dead_last by assumption.
        rewrite <- Hi'.
        destruct (IH pre i aabbs) as (units' & aabbs' & Hrun & Hall & Hperm).
        -- rewrite size_app_cons in Hsz.
           pose proof (size_nonneg (@nil Labels.LabelUnit)). lia.
        -- lia.
        -- rewrite <- Hlen at 1. now rewrite firstn_all.
        -- rewrite length_app in Hfuel. simpl in Hfuel. lia.
        -- exists units', aabbs'. split; [assumption|]. split; [assumption|].
           rewrite Hperm, filter_app, filter_cons_False by assumption.
           now rewrite filter_nil, app_nil_r.
      * (* the last unit moves into the slot of the dead one *)
        rewrite prune_loop_dead_middle by assumption.
        rewrite <- Hi'.
        destruct (IH (pre ++ y :: mid) i aabbs)
          as (units' & aabbs' & Hrun & Hall & Hperm).
        -- unfold size in *. rewrite !length_app in Hsz. simpl in Hsz.
           rewrite length_app in Hsz. simpl in Hsz.
           rewrite length_app. simpl. lia.
        -- rewrite length_app. lia.
        -- rewrite take_app_le by lia. rewrite <- Hlen at 1.
           now rewrite firstn_all.
        -- rewrite !length_app in Hfuel |- *. simpl in Hfuel |- *.
           rewrite length_app in Hfuel. simpl in Hfuel. lia.
        -- exists units', aabbs'. split; [assumption|]. split; [assumption|].
           rewrite Hperm. rewrite !filter_app.
           rewrite (filter_cons_False _ u) by assumption.
           rewrite filter_app, (filter_cons _ y mid).
           rewrite (filter_cons _ y []), filter_nil.
           destruct (decide (Labels.alive heap y)).
           ++ f_equiv. apply Permutation_cons_append.
           ++ now rewrite app_nil_r.
Qed.

(** A dangling unit at the front: the last unit takes its place, so the
    two surviving units change their order. *)
Example prune_moves_last_into_slot :
  fst <$> Labels.prune (cells Labels.two_labels)
            [sample_unit 7%positive; sample_unit 1%positive; sample_unit 2%positive]
  = Some [sample_unit 2%positive; sample_unit 1%positive].
Proof. reflexivity. Qed.

(** C3.  After the merge-and-prune phase of [updateOcclusions] the
    pending queue is empty and every unit left in the authoritative list
    resolves to a live label; the units left are, up to their order, the
    units of the merged list whose label is alive.  A unit is removed by
    moving the last unit into its slot and popping the back (or by
    popping it when it is the last one), the index staying where it is. *)
Theorem merge_and_prune_no_dangling `{Externals} (w : Labels.World) :
  size (Labels.m_labelUnits (Labels.this w)
        ++ Labels.m_pendingLabelUnits (Labels.this w)) < size_t_modulus ->
  (exists w' aabbs,
     Labels.merge_and_prune w = Some (w', aabbs)
     /\ Forall (fun u => is_Some (Labels.getWeakLabel (Labels.heap w') u))
               (Labels.m_labelUnits (Labels.this w'))
     /\ Labels.m_labelUnits (Labels.this w')
        ≡ₚ filter (Labels.alive (Labels.heap w))
                  (Labels.m_labelUnits (Labels.this w)
                   ++ Labels.m_pendingLabelUnits (Labels.this w))
     /\ Labels.m_pendingLabelUnits (Labels.this w') = []
     /\ Labels.heap w' = Labels.heap w)
  /\ (forall fuel heap pre x mid zlast aabbs,
        size (pre ++ x :: mid ++ [zlast]) < size_t_modulus ->
        ~ Labels.alive heap x ->
        Labels.prune_loop (S fuel) heap (pre ++ x :: mid ++ [zlast]) (size pre) aabbs
        = Labels.prune_loop fuel heap (pre ++ zlast :: mid) (size pre) aabbs)
  /\ (forall fuel heap pre x aabbs,
        size (pre ++ [x]) < size_t_modulus ->
        ~ Labels.alive heap x ->
        Labels.prune_loop (S fuel) heap (pre ++ [x]) (size pre) aabbs
        = Labels.prune_loop fuel heap pre (size pre) aabbs).
Proof.
  intros Hsz. split; [|split].
  - unfold Labels.merge_and_prune, Labels.prune.
    cbn [Labels.merge Labels.m_labelUnits].
    set (units := Labels.m_labelUnits (Labels.this w)
                  ++ Labels.m_pendingLabelUnits (Labels.this w)) in *.
    destruct (prune_loop_invariant (Labels.heap w) (S (length units)) units 0 [])
      as (units' & aabbs' & Hrun & Hall & Hperm).
    + assumption.
    + lia.
    + constructor.
    + lia.
    + change (Z.of_nat 0) with 0 in Hrun. rewrite Hrun.
      eexists _, aabbs'. split; [reflexivity|]. cbn.
      split; [|auto].
      eapply Forall_impl; [exact Hall|].
      intros u [l Hl]. unfold Labels.getWeakLabel. rewrite Hl. eauto.
  - intros. now apply prune_loop_dead_middle.
  - intros. now apply prune_loop_dead_last.
Qed.

(** The theorem at a manager whose list holds a dangling unit. *)
Lemma merge_and_prune_no_dangling_witness :
  exists w' aabbs,
    Labels.merge_and_prune sample_world = Some (w', aabbs)
    /\ Forall (fun u => is_Some (Labels.getWeakLabel (Labels.heap w') u))
              (Labels.m_labelUnits (Labels.this w'))
    /\ Labels.m_labelUnits (Labels.this w')
       ≡ₚ filter (Labels.alive (Labels.heap sample_world))
                 [sample_unit 1%positive; sample_unit 7%positive; sample_unit 2%positive]
    /\ Labels.m_pendingLabelUnits (Labels.this w') = []
    /\ Labels.heap w' = Labels.heap sample_world.
Proof.
  apply (@merge_and_prune_no_dangling sample_externals sample_world).
  reflexivity.
Defined.

(** ** Level of detail *)

Lemma Rltb_true a b : Rltb a b = true <-> (a < b)%R.
Proof.
  unfold Rltb. destruct (Rlt_dec a b); split; intros; try lra; congruence.
Qed.

Lemma Rltb_false a b : Rltb a b = false <-> (b <= a)%R.
Proof.
  unfold Rltb. destruct (Rlt_dec a b); split; intros; try lra; congruence.
Qed.

Lemma Int_part_monotone (x y : R) : (x <= y)%R -> Int_part x <= Int_part y.
Proof.
  intros Hxy.
  destruct (base_Int_part x) as [Hx _], (base_Int_part y) as [_ Hy].
  assert (H : (IZR (Int_part x) < IZR (Int_part y + 1))%R)
    by (rewrite plus_IZR; lra).
  apply lt_IZR in H. lia.
Qed.

Lemma Int_part_IZR (n : Z) : Int_part (IZR n) = n.
Proof. symmetry. apply Int_part_spec. lra. Qed.

Lemma Int_part_nonneg (x : R) : (0 <= x)%R -> 0 <= Int_part x.
Proof.
  intros Hx. rewrite <- (Int_part_IZR 0). now apply Int_part_monotone.
Qed.

Lemma floor_monotone (x y : R) : (x <= y)%R -> (floor x <= floor y)%R.
Proof. intros Hxy. unfold floor. apply IZR_le. now apply Int_part_monotone. Qed.

Lemma int_of_float_monotone (x y : R) :
  (x <= y)%R -> int_of_float x <= int_of_float y.
Proof.
  intros Hxy. unfold int_of_float.
  destruct (Rle_dec 0 x) as [Hx|Hx], (Rle_dec 0 y) as [Hy|Hy]; try lra.
  - now apply Int_part_monotone.
  - assert (0 <= Int_part (- x)) by (apply Int_part_nonneg; lra).
    assert (0 <= Int_part y) by now apply Int_part_nonneg.
    lia.
  - assert (Int_part (- y) <= Int_part (- x)) by (apply Int_part_monotone; lra).
    lia.
Qed.

Lemma int_of_float_IZR (n : Z) : int_of_float (IZR n) = n.
Proof.
  unfold int_of_float. destruct (Rle_dec 0 (IZR n)).
  - apply Int_part_IZR.
  - rewrite <- opp_IZR, Int_part_IZR. lia.
Qed.

(** [MIN] on two numbers is the smaller one. *)
Lemma MIN_finite (x y : R) :
  Labels.MIN (Float.Finite x) (Float.Finite y) = Float.Finite (Rmin x y).
Proof.
  unfold Labels.MIN, Float.lt, Rltb, Rmin.
  destruct (Rlt_dec x y), (Rle_dec x y); try reflexivity; try lra.
  f_equal. lra.
Qed.

(** The conversion to [int] of a number that an [int] can hold. *)
Lemma to_int_in_range (x : R) :
  (IZR INT_MIN - 1 < x)%R -> (x < IZR INT_MAX + 1)%R ->
  Float.to_int (Float.Finite x) = int_of_float x.
Proof.
  intros Hlo Hhi. unfold Float.to_int.
  apply Rltb_true in Hlo, Hhi. now rewrite Hlo, Hhi.
Qed.

Lemma to_int_IZR (n : Z) :
  INT_MIN <= n <= INT_MAX -> Float.to_int (Float.Finite (IZR n)) = n.
Proof.
  intros [Hlo Hhi]. apply IZR_le in Hlo, Hhi.
  rewrite to_int_in_range by lra. apply int_of_float_IZR.
Qed.

(** The result of a conversion is never below [INT_MIN]. *)
Lemma to_int_lower (a : Float.t) : INT_MIN <= Float.to_int a.
Proof.
  destruct a as [x| |]; cbn [Float.to_int]; try lia.
  destruct (Rltb (IZR INT_MIN - 1) x) eqn:Hlo; cbn [andb]; [|lia].
  destruct (Rltb x (IZR INT_MAX + 1)); [|lia].
  apply Rltb_true in Hlo.
  destruct (Rle_dec (IZR INT_MIN) x) as [Hx|Hx].
  - rewrite <- (int_of_float_IZR INT_MIN). now apply int_of_float_monotone.
  - unfold int_of_float. destruct (Rle_dec 0 x) as [H0|H0].
    + pose proof (Int_part_nonneg x H0). unfold INT_MIN. lia.
    + assert (Hle : Int_part (- x) <= Int_part (IZR (- INT_MIN + 1))).
      { apply Int_part_monotone. rewrite plus_IZR, opp_IZR. lra. }
      rewrite Int_part_IZR in Hle.
      destruct (base_Int_part (- x)) as [Hfloor _].
      assert (Hlt : (IZR (Int_part (- x)) < IZR (- INT_MIN + 1))%R).
      { rewrite plus_IZR, opp_IZR. lra. }
      apply lt_IZR in Hlt. lia.
Qed.

(** The conversion is monotone on the numbers up to [INT_MAX]. *)
Lemma to_int_monotone (x y : R) :
  (x <= y)%R -> (y <= IZR INT_MAX)%R ->
  Float.to_int (Float.Finite x) <= Float.to_int (Float.Finite y).
Proof.
  intros Hxy Hy.
  destruct (Rlt_dec (IZR INT_MIN - 1) x) as [Hx|Hx].
  - rewrite !to_int_in_range by lra. now apply int_of_float_monotone.
  - replace (Float.to_int (Float.Finite x)) with INT_MIN; [apply to_int_lower|].
    unfold Float.to_int.
    assert (Hf : Rltb (IZR INT_MIN - 1) x = false) by (apply Rltb_false; lra).
    now rewrite Hf.
Qed.

(** Whatever the first argument, the conversion of [MIN] against an
    [int] does not exceed that [int]. *)
Lemma to_int_MIN_capped (a : Float.t) (m : Z) :
  INT_MIN <= m <= INT_MAX ->
  Float.to_int (Labels.MIN a (Float.Finite (IZR m))) <= m.
Proof.
  intros Hm. unfold Labels.MIN.
  destruct (Float.lt a (Float.Finite (IZR m))) eqn:Hlt.
  - destruct a as [x|s|]; cbn [Float.lt] in Hlt; try discriminate.
    + apply Rltb_true in Hlt. rewrite <- (to_int_IZR m Hm) at 1.
      apply to_int_monotone; [lra|]. apply IZR_le. lia.
    + cbn [Float.to_int]. lia.
  - rewrite to_int_IZR by assumption. lia.
Qed.

Lemma ln_monotone (x y : R) : (0 < x)%R -> (x <= y)%R -> (ln x <= ln y)%R.
Proof.
  intros Hx [Hlt| ->]; [|lra]. left. now apply ln_increasing.
Qed.

(** The value under [floor] in [LODDiscardFunc] does not grow with the
    zoom, on the zooms for which the logarithm is defined. *)
Lemma falloff_antitone (maxZoom zoom1 zoom2 : R) :
  (0 <= maxZoom)%R -> (zoom1 <= zoom2)%R -> (zoom2 < maxZoom + 2)%R ->
  (ln (- zoom2 + (maxZoom + 2)) / ln (maxZoom + 2) * maxZoom * 0.5
   <= ln (- zoom1 + (maxZoom + 2)) / ln (maxZoom + 2) * maxZoom * 0.5)%R.
Proof.
  intros Hm Hz Hdom.
  assert (HL : (0 < ln (maxZoom + 2))%R).
  { rewrite <- ln_1. apply ln_increasing; lra. }
  assert (Hln : (ln (- zoom2 + (maxZoom + 2)) <= ln (- zoom1 + (maxZoom + 2)))%R)
    by (apply ln_monotone; lra).
  apply Rmult_le_compat_r; [lra|].
  apply Rmult_le_compat_r; [lra|].
  apply Rmult_le_compat_r; [|assumption].
  left. now apply Rinv_0_lt_compat.
Qed.

(** Where both logarithms are numbers and the divisor is not zero, the
    computation of [LODDiscardFunc] stays within the numbers. *)
Lemma LODDiscardFunc_defined `{Externals} (maxZoom zoom : R) :
  (zoom < maxZoom + 2)%R -> (0 < maxZoom + 2)%R -> (maxZoom + 2 <> 1)%R ->
  Labels.LODDiscardFunc maxZoom zoom
  = Float.to_int
      (Float.Finite
         (Rmin (floor (ln (- zoom + (maxZoom + 2)) / ln (maxZoom + 2)
                       * maxZoom * 0.5))
               (IZR MAX_LOD))).
Proof.
  intros Hz Hm H1. unfold Labels.LODDiscardFunc, Float.log.
  destruct (Rlt_dec (- zoom + (maxZoom + 2)) 0); [lra|].
  destruct (Req_dec_T (- zoom + (maxZoom + 2)) 0); [lra|].
  destruct (Rlt_dec (maxZoom + 2) 0); [lra|].
  destruct (Req_dec_T (maxZoom + 2) 0); [lra|].
  cbn [Float.div].
  destruct (Req_dec_T (ln (maxZoom + 2)) 0) as [Hl|_].
  { exfalso. apply H1. apply ln_inv; [lra|lra|]. now rewrite ln_1. }
  cbn [Float.mul Float.floor]. now rewrite MIN_finite.
Qed.

Lemma LODDiscardFunc_antitone `{Externals} (maxZoom zoom1 zoom2 : R) :
  (0 <= maxZoom)%R -> (zoom1 <= zoom2)%R -> (zoom2 < maxZoom + 2)%R ->
  Labels.LODDiscardFunc maxZoom zoom2 <= Labels.LODDiscardFunc maxZoom zoom1.
Proof.
  intros Hm Hz Hdom. rewrite !LODDiscardFunc_defined by lra.
  pose proof MAX_LOD_int as [_ Hhi]. apply IZR_le in Hhi.
  apply to_int_monotone.
  - apply Rle_min_compat_r, floor_monotone. now apply falloff_antitone.
  - etransitivity; [apply Rmin_r | exact Hhi].
Qed.

Lemma LODDiscardFunc_capped `{Externals} (maxZoom zoom : R) :
  Labels.LODDiscardFunc maxZoom zoom <= MAX_LOD.
Proof. apply to_int_MIN_capped, MAX_LOD_int. Qed.

(** Past [maxZoom + 2] the logarithm is a NaN, every comparison with it
    fails, and [MIN] gives [MAX_LOD]. *)
Lemma LODDiscardFunc_past_domain `{Externals} (maxZoom zoom : R) :
  (maxZoom + 2 < zoom)%R -> Labels.LODDiscardFunc maxZoom zoom = MAX_LOD.
Proof.
  intros Hz. unfold Labels.LODDiscardFunc, Float.log.
  destruct (Rlt_dec (- zoom + (maxZoom + 2)) 0); [|lra].
  cbn [Float.div Float.mul Float.floor]. unfold Labels.MIN. cbn [Float.lt].
  apply to_int_IZR, MAX_LOD_int.
Qed.

Lemma negative_false (x : R) : (0 <= x)%R -> Float.negative x = false.
Proof. intros Hx. unfold Float.negative. apply Rltb_false. lra. Qed.

(** At [maxZoom + 2] the logarithm is minus infinity, and so is the
    value converted to [int]. *)
Lemma LODDiscardFunc_at_limit `{Externals} (maxZoom : R) :
  (0 < maxZoom)%R -> Labels.LODDiscardFunc maxZoom (maxZoom + 2) = INT_MIN.
Proof.
  intros Hm. unfold Labels.LODDiscardFunc, Float.log.
  replace (- (maxZoom + 2) + (maxZoom + 2))%R with 0%R by lra.
  destruct (Rlt_dec 0 0); [lra|].
  destruct (Req_dec_T 0 0); [|lra].
  destruct (Rlt_dec (maxZoom + 2) 0); [lra|].
  destruct (Req_dec_T (maxZoom + 2) 0); [lra|].
  assert (HL : (0 < ln (maxZoom + 2))%R).
  { rewrite <- ln_1. apply ln_increasing; lra. }
  cbn [Float.div]. rewrite negative_false by lra. cbn [xorb Float.mul].
  destruct (Req_dec_T maxZoom 0); [lra|].
  rewrite negative_false by lra. cbn [xorb Float.mul].
  destruct (Req_dec_T 0.5 0); [lra|].
  rewrite negative_false by lra. reflexivity.
Qed.

(** Both construction calls return null at once when the admission test
    fails: nothing is allocated, nothing is rasterized, nothing changes. *)
Lemma addTextLabel_discarded `{Externals} w tile style tr text type :
  Labels.LOD_discards (Labels.this w) tile = true ->
  Labels.addTextLabel w tile style tr text type = Some (None, w, tile).
Proof. intros Hd. unfold Labels.addTextLabel. now rewrite Hd. Qed.

Lemma addSpriteLabel_discarded `{Externals} w tile style tr sz :
  Labels.LOD_discards (Labels.this w) tile = true ->
  Labels.addSpriteLabel w tile style tr sz = Some (None, w, tile).
Proof. intros Hd. unfold Labels.addSpriteLabel. now rewrite Hd. Qed.

Lemma LOD_discards_spec `{Externals} (L : Labels.t) (tile : Labels.MapTile) :
  Labels.LOD_discards L tile = true
  <-> (Labels.m_currentZoom L - IZR (Labels.z (Labels.getID tile))
       > IZR (Labels.LODDiscardFunc s_maxZoom (Labels.m_currentZoom L)))%R.
Proof. unfold Labels.LOD_discards, Rgtb. rewrite Rltb_true. lra. Qed.

(** With [s_maxZoom = 18] and [MAX_LOD = 6], the threshold at zoom 19, and
    at zoom 0, where the falloff gives 9 and the cap applies. *)
Lemma LODDiscardFunc_at_19 :
  @Labels.LODDiscardFunc sample_externals 18 19 = 0.
Proof.
  rewrite LODDiscardFunc_defined by lra.
  replace (Ropp 19 + (18 + 2))%R with 1%R by lra. rewrite ln_1.
  unfold Rdiv. rewrite !Rmult_0_l. unfold floor.
  rewrite (Int_part_IZR 0). cbn [MAX_LOD sample_externals].
  rewrite Rmin_left by lra. now apply (to_int_IZR 0).
Qed.

Lemma LODDiscardFunc_at_0 :
  @Labels.LODDiscardFunc sample_externals 18 0 = 6.
Proof.
  rewrite LODDiscardFunc_defined by lra.
  replace (Ropp 0 + (18 + 2))%R with (18 + 2)%R by lra.
  assert (HL : (0 < ln (18 + 2))%R).
  { rewrite <- ln_1. apply ln_increasing; lra. }
  replace (ln (18 + 2) / ln (18 + 2))%R with 1%R by (field; lra).
  replace (1 * 18 * 0.5)%R with 9%R by lra.
  unfold floor. rewrite (Int_part_IZR 9).
  cbn [MAX_LOD sample_externals].
  rewrite Rmin_right by lra. now apply (to_int_IZR 6).
Qed.

Lemma Int_part_negative (x : R) : (x < 0)%R -> Int_part x <= -1.
Proof.
  intros Hx. destruct (base_Int_part x) as [Hle _].
  assert (H : (IZR (Int_part x) < IZR 0)%R) by lra.
  apply lt_IZR in H. lia.
Qed.

(** With [s_maxZoom = 18] the threshold at zoom 19.5 is -3: the
    quotient of the logarithms of 1/2 and of 20 lies between -1/3 and
    -2/9, because 2^3 <= 20 and 20^2 < 2^9. *)
Lemma LODDiscardFunc_at_19_5 :
  @Labels.LODDiscardFunc sample_externals 18 19.5 = -3.
Proof.
  rewrite LODDiscardFunc_defined by lra.
  replace (Ropp 19.5 + (18 + 2))%R with (/ 2)%R by lra.
  replace (18 + 2)%R with 20%R by lra.
  rewrite ln_Rinv by lra.
  assert (H2 : (0 < ln 2)%R) by (rewrite <- ln_1; apply ln_increasing; lra).
  assert (H8 : (3 * ln 2 <= ln 20)%R).
  { replace (3 * ln 2)%R with (ln 8).
    - apply ln_monotone; lra.
    - replace 8%R with (2 * (2 * 2))%R by lra. rewrite !ln_mult by lra. lra. }
  assert (H400 : (2 * ln 20 < 9 * ln 2)%R).
  { replace (2 * ln 20)%R with (ln 400).
    - replace (9 * ln 2)%R with (ln 512).
      + apply ln_increasing; lra.
      + replace 512%R with (2 * (2 * (2 * (2 * (2 * (2 * (2 * (2 * 2))))))))%R by lra.
        rewrite !ln_mult by lra. lra.
    - replace 400%R with (20 * 20)%R by lra. rewrite ln_mult by lra. lra. }
  assert (HL : (0 < ln 20)%R) by lra.
  set (v := (- ln 2 / ln 20 * 18 * 0.5)%R).
  assert (Hv : (-3 <= v < -2)%R).
  { unfold v. replace (- ln 2 / ln 20 * 18 * 0.5)%R with (- (9 * ln 2 / ln 20))%R
      by (unfold Rdiv; lra).
    assert (Hq : (2 < 9 * ln 2 / ln 20 <= 3)%R).
    { split.
      - apply Rmult_lt_reg_r with (ln 20); [assumption|].
        unfold Rdiv. rewrite Rmult_assoc, Rinv_l by lra. lra.
      - apply Rmult_le_reg_r with (ln 20); [assumption|].
        unfold Rdiv. rewrite Rmult_assoc, Rinv_l by lra. lra. }
    lra. }
  assert (Hf : floor v = IZR (-3)).
  { unfold floor. f_equal. symmetry. apply Int_part_spec.
    replace (IZR (-3)) with (-3)%R by reflexivity. lra. }
  rewrite Hf. cbn [MAX_LOD sample_externals].
  rewrite Rmin_left by (replace (IZR (-3)) with (-3)%R by reflexivity; lra).
  now apply (to_int_IZR (-3)).
Qed.

(** C5, as stated, fails past [maxZoom + 2].  With [s_maxZoom = 18]
    and [MAX_LOD = 6], over a tile at zoom 19, the delta shrinks from
    zoom 21 to zoom 19.5, and the threshold shrinks with it, from 6 (the
    logarithm of a negative number is a NaN, and [MIN] then gives
    [MAX_LOD]) to -3. *)
Lemma LODDiscardFunc_monotone_counterexample :
  ~ @Labels.LOD_monotone_as_stated sample_externals 18 19 19.5 21.
Proof.
  unfold Labels.LOD_monotone_as_stated. intros Hclaim.
  rewrite LODDiscardFunc_at_19_5 in Hclaim.
  rewrite (@LODDiscardFunc_past_domain sample_externals) in Hclaim by lra.
  cbn [MAX_LOD sample_externals] in Hclaim.
  assert (H : 6 <= -3) by (apply Hclaim; lra). lia.
Qed.

(** C5, amended.  For [0 <= maxZoom] and on the zooms below
    [maxZoom + 2], where both logarithms are numbers, [LODDiscardFunc]
    does not decrease when the zoom delta [currentZoom - tileZoom]
    shrinks over a tile at a fixed zoom.  For all arguments its result
    never exceeds [MAX_LOD]; past [maxZoom + 2] it is [MAX_LOD] itself.
    When the delta of a tile exceeds the threshold, [addTextLabel] and
    [addSpriteLabel] return null with the world as it was: no label has
    been allocated. *)
Theorem LODDiscardFunc_admission `{Externals} :
  (forall maxZoom tileZoom zoom1 zoom2 : R,
     (0 <= maxZoom)%R -> (zoom2 < maxZoom + 2)%R ->
     (zoom1 - tileZoom <= zoom2 - tileZoom)%R ->
     Labels.LODDiscardFunc maxZoom zoom2 <= Labels.LODDiscardFunc maxZoom zoom1)
  /\ (forall maxZoom zoom : R, Labels.LODDiscardFunc maxZoom zoom <= MAX_LOD)
  /\ (forall maxZoom zoom : R,
        (maxZoom + 2 < zoom)%R -> Labels.LODDiscardFunc maxZoom zoom = MAX_LOD)
  /\ forall (w : Labels.World) (tile : Labels.MapTile) style tr text type sz,
       (Labels.m_currentZoom (Labels.this w) - IZR (Labels.z (Labels.getID tile))
        > IZR (Labels.LODDiscardFunc s_maxZoom (Labels.m_currentZoom (Labels.this w))))%R ->
       Labels.addTextLabel w tile style tr text type = Some (None, w, tile)
       /\ Labels.addSpriteLabel w tile style tr sz = Some (None, w, tile).
Proof.
  split; [|split; [|split]].
  - intros maxZoom tileZoom zoom1 zoom2 Hm Hdom Hdelta.
    apply LODDiscardFunc_antitone; lra.
  - apply LODDiscardFunc_capped.
  - apply LODDiscardFunc_past_domain.
  - intros w tile style tr text type sz Hgt.
    apply LOD_discards_spec in Hgt. split.
    + now apply addTextLabel_discarded.
    + now apply addSpriteLabel_discarded.
Qed.

Lemma zoomed_world_discards :
  (Labels.m_currentZoom (Labels.this zoomed_world)
   - IZR (Labels.z (Labels.getID sample_tile))
   > IZR (@Labels.LODDiscardFunc sample_externals (@s_maxZoom sample_externals)
            (Labels.m_currentZoom (Labels.this zoomed_world))))%R.
Proof.
  cbn [Labels.m_currentZoom Labels.this zoomed_world Labels.z Labels.getID
       sample_tile sample_tileID s_maxZoom sample_externals].
  rewrite LODDiscardFunc_at_19. lra.
Qed.

(** The theorem with [s_maxZoom = 18] and [MAX_LOD = 6]: zooms 0 and 1
    over a tile at zoom 0, zoom 21, and the two construction calls at
    zoom 19. *)
Lemma LODDiscardFunc_admission_witness :
  @Labels.LODDiscardFunc sample_externals 18 1
    <= @Labels.LODDiscardFunc sample_externals 18 0
  /\ @Labels.LODDiscardFunc sample_externals 18 0 <= 6
  /\ @Labels.LODDiscardFunc sample_externals 18 21 = 6
  /\ Labels.addTextLabel zoomed_world sample_tile "text"
       {| Label.anchor1 := Vec2 0 0; Label.anchor2 := Vec2 0 0 |}
       "Main Street" Label.point
     = Some (None, zoomed_world, sample_tile)
  /\ Labels.addSpriteLabel zoomed_world sample_tile "text"
       {| Label.anchor1 := Vec2 0 0; Label.anchor2 := Vec2 0 0 |} (Vec2 8 8)
     = Some (None, zoomed_world, sample_tile).
Proof.
  destruct (@LODDiscardFunc_admission sample_externals)
    as (Hmono & Hcap & Hpast & Hnull).
  split; [apply (Hmono 18 0 0 1)%R; lra|].
  split; [apply (Hcap 18 0)%R|].
  split; [apply (Hpast 18 21)%R; lra|].
  apply Hnull. exact zoomed_world_discards.
Defined.

(** ** Label construction *)

Lemma fresh_unbound (heap : gmap ptr Label.t) : heap !! fresh (dom heap) = None.
Proof. apply not_elem_of_dom, is_fresh. Qed.

(** [addLabel] on a pointer that is bound. *)
Lemma addLabel_bound `{Externals} (w : Labels.World) (tile : Labels.MapTile)
    style p l :
  Labels.heap w !! p = Some l ->
  exists w' tile',
    Labels.addLabel w tile style p = Some (w', tile')
    /\ Labels.heap w'
       = <[p := Label_update
                  (mat_mul (Labels.getViewProjectionMatrix
                              (Labels.m_view (Labels.this w)))
                           (Labels.getModelMatrix tile))
                  (Labels.m_screenSize (Labels.this w)) 0%R l]> (Labels.heap w)
    /\ Labels.tile_labels tile' = Labels.tile_labels tile ++ [(style, p)]
    /\ Labels.getID tile' = Labels.getID tile
    /\ Labels.m_pendingLabelUnits (Labels.this w')
       = Labels.m_pendingLabelUnits (Labels.this w)
         ++ [ {| Labels.m_label := p; Labels.m_tileID := Labels.getID tile;
                 Labels.m_styleName := style |} ]
    /\ Labels.m_labelUnits (Labels.this w') = Labels.m_labelUnits (Labels.this w)
    /\ Labels.allocations w' = Labels.allocations w.
Proof.
  intros Hp. unfold Labels.addLabel. rewrite Hp.
  eexists _, _. split; [reflexivity|]. cbn. auto 10.
Qed.

(** C10.  [addSpriteLabel] always returns; it returns null if and only
    if the zoom of the manager minus the zoom of the tile exceeds the
    discard threshold.  Otherwise it returns a pointer to a label newly
    allocated from the [SpriteLabel] constructor and updated once, which
    the tile has registered under the style name and for which a unit
    sits at the back of the pending queue. *)
Theorem addSpriteLabel_null_iff_discarded `{Externals}
    (w : Labels.World) (tile : Labels.MapTile) (style : string)
    (tr : Label.Transform) (sz : vec2) :
  exists r w' tile',
    Labels.addSpriteLabel w tile style tr sz = Some (r, w', tile')
    /\ (r = None <-> Labels.LOD_rejects w tile)
    /\ (~ Labels.LOD_rejects w tile ->
        exists p,
          r = Some p
          /\ Labels.heap w !! p = None
          /\ Labels.heap w' !! p
             = Some (Label_update
                       (mat_mul (Labels.getViewProjectionMatrix
                                   (Labels.m_view (Labels.this w)))
                                (Labels.getModelMatrix tile))
                       (Labels.m_screenSize (Labels.this w)) 0%R
                       (new_SpriteLabel tr sz))
          /\ Labels.tile_labels tile' = Labels.tile_labels tile ++ [(style, p)]
          /\ Labels.m_pendingLabelUnits (Labels.this w')
             = Labels.m_pendingLabelUnits (Labels.this w)
               ++ [ {| Labels.m_label := p; Labels.m_tileID := Labels.getID tile;
                       Labels.m_styleName := style |} ]
          /\ Labels.m_labelUnits (Labels.this w')
             = Labels.m_labelUnits (Labels.this w)
          /\ Labels.allocations w' = S (Labels.allocations w)).
Proof.
  unfold Labels.addSpriteLabel, Labels.LOD_rejects.
  destruct (Labels.LOD_discards (Labels.this w) tile) eqn:Hd.
  - apply LOD_discards_spec in Hd.
    eexists _, _, _. split; [reflexivity|]. split; [tauto|].
    intros Hn. contradiction.
  - assert (Hadmit : ~ (Labels.m_currentZoom (Labels.this w)
                        - IZR (Labels.z (Labels.getID tile))
                        > IZR (Labels.LODDiscardFunc s_maxZoom
                                 (Labels.m_currentZoom (Labels.this w))))%R).
    { intros Hgt. apply LOD_discards_spec in Hgt. congruence. }
    unfold Labels.new_Label.
    set (p := fresh (dom (Labels.heap w))).
    set (w1 := Labels.Build_World _ _ _ _).
    destruct (addLabel_bound w1 tile style p (new_SpriteLabel tr sz))
      as (w2 & tile2 & Hrun & Hheap & Htile & _ & Hpend & Hunits & Halloc).
    { apply lookup_insert_eq. }
    rewrite Hrun. eexists _, _, _. split; [reflexivity|].
    split; [split; [discriminate | tauto]|].
    intros _. exists p. split; [reflexivity|].
    split; [apply fresh_unbound|].
    split; [rewrite Hheap; apply lookup_insert_eq|].
    auto.
Qed.

(** C4.  [addTextLabel] always returns, and it returns null in exactly
    three cases: the zoom delta of the tile exceeds the discard
    threshold, the font context has no current buffer, or the
    rasterization of the new text label fails.  In each of them the
    pending queue and the authoritative list are as they were; so are
    the tile and the heap of labels. *)
Theorem addTextLabel_null_cases `{Externals}
    (w : Labels.World) (tile : Labels.MapTile) (style : string)
    (tr : Label.Transform) (text : string) (type : Label.Type_) :
  exists r w' tile',
    Labels.addTextLabel w tile style tr text type = Some (r, w', tile')
    /\ (r = None <->
        Labels.LOD_rejects w tile
        \/ Labels.no_current_buffer w
        \/ Labels.rasterization_fails w tr text type)
    /\ (r = None ->
        Labels.m_pendingLabelUnits (Labels.this w')
        = Labels.m_pendingLabelUnits (Labels.this w)
        /\ Labels.m_labelUnits (Labels.this w')
           = Labels.m_labelUnits (Labels.this w)
        /\ tile' = tile
        /\ Labels.heap w' = Labels.heap w).
Proof.
  unfold Labels.addTextLabel, Labels.LOD_rejects, Labels.no_current_buffer,
    Labels.rasterization_fails.
  destruct (Labels.LOD_discards (Labels.this w) tile) eqn:Hd.
  { apply LOD_discards_spec in Hd.
    eexists _, _, _. split; [reflexivity|]. split; [tauto|auto]. }
  assert (Hadmit : ~ (Labels.m_currentZoom (Labels.this w)
                      - IZR (Labels.z (Labels.getID tile))
                      > IZR (Labels.LODDiscardFunc s_maxZoom
                               (Labels.m_currentZoom (Labels.this w))))%R).
  { intros Hgt. apply LOD_discards_spec in Hgt. congruence. }
  destruct (Labels.currentBuffer (Labels.this w)) as [buf|] eqn:Hbuf.
  2:{ eexists _, _, _. split; [reflexivity|]. split; [tauto|auto]. }
  destruct (genTextID buf) as [textID buf1] eqn:Hid.
  unfold Labels.new_Label.
  cbn [Labels.heap Labels.set_currentBuffer Labels.this Labels.allocations].
  set (p := fresh (dom (Labels.heap w))).
  rewrite lookup_insert_eq.
  destruct (rasterize (new_TextLabel tr text textID type) buf1)
    as [[ok l'] buf2] eqn:Hras.
  destruct ok; cbn [negb].
  - (* rasterized: the label is added *)
    match goal with |- context [Labels.addLabel ?w2 _ _ _] =>
      destruct (addLabel_bound w2 tile style p l') as (w3 & tile3 & Hrun & _)
    end.
    { cbn. apply lookup_insert_eq. }
    rewrite Hrun. eexists _, _, _. split; [reflexivity|].
    split; [|discriminate]. split; [discriminate|].
    intros [Hgt|[Hnone|(buf' & Hsome & Hfail)]]; [tauto|discriminate|].
    injection Hsome as <-. rewrite Hid in Hfail. cbn [fst snd] in Hfail.
    rewrite Hras in Hfail. discriminate.
  - (* rasterization failed: the label is destroyed *)
    eexists _, _, _. split; [reflexivity|]. split.
    + split; [|reflexivity]. intros _. right. right. exists buf.
      split; [reflexivity|]. rewrite Hid. cbn [fst snd]. now rewrite Hras.
    + intros _. cbn. split; [reflexivity|]. split; [reflexivity|].
      split; [reflexivity|].
      rewrite insert_insert_eq. apply delete_insert_id, fresh_unbound.
Qed.

(** ** Line labels *)

Lemma to_int_small z : 0 <= z <= INT_MAX -> to_int z = z.
Proof.
  unfold to_int, INT_MAX. intros Hz.
  rewrite Z.mod_small by lia. lia.
Qed.

Lemma skipOffset_small (line : list vec3) :
  size line <= INT_MAX -> TextStyle.skipOffset line = size line / 2.
Proof.
  intros Hn. pose proof (size_nonneg line).
  unfold TextStyle.skipOffset, TextStyle.lineLength.
  rewrite to_int_small by lia. apply Z.quot_div_nonneg; lia.
Qed.

Lemma loop_continues_small (line : list vec3) (i : Z) :
  1 <= size line <= INT_MAX ->
  TextStyle.loop_continues line i = (i <? size line - 1).
Proof.
  intros Hn. unfold TextStyle.loop_continues, size_t_sub, INT_MAX in *.
  rewrite to_size_t_small; [reflexivity|]. unfold size_t_modulus. lia.
Qed.

Lemma loop_next_small (line : list vec3) (i : Z) :
  size line <= INT_MAX -> 0 <= i <= INT_MAX ->
  TextStyle.loop_next line i = i + size line / 2.
Proof.
  intros Hn Hi. pose proof (size_nonneg line).
  assert (0 <= size line / 2 <= INT_MAX).
  { split; [apply Z.div_pos; lia|]. apply Z.div_le_upper_bound; lia. }
  unfold TextStyle.loop_next, size_t_add. rewrite skipOffset_small by assumption.
  unfold INT_MAX, size_t_modulus in *.
  rewrite !to_size_t_small; unfold size_t_modulus; try lia.
  rewrite to_size_t_small; unfold size_t_modulus; lia.
Qed.

(** One iteration of the loop at an index that starts a segment. *)
Lemma buildLine_loop_step fuel (line : list vec3) text params (i : nat) buf :
  1 <= size line <= INT_MAX ->
  Z.of_nat i < size line - 1 ->
  TextStyle.buildLine_loop (S fuel) line text params (Z.of_nat i) buf
  = TextStyle.buildLine_loop fuel line text params
      (Z.of_nat i + size line / 2)
      (buf ++ TextStyle.label_at line text params i).
Proof.
  intros Hn Hi. cbn [TextStyle.buildLine_loop].
  rewrite loop_continues_small by assumption.
  destruct (Z.ltb_spec (Z.of_nat i) (size line - 1)); [|lia].
  unfold size in *.
  destruct (lookup_lt_is_Some_2 line i) as [a Ha]; [lia|].
  destruct (lookup_lt_is_Some_2 line (S i)) as [b Hb]; [lia|].
  unfold size_t_add. rewrite to_size_t_small by (unfold size_t_modulus, INT_MAX in *; lia).
  replace (Z.to_nat (Z.of_nat i + 1)) with (S i) by lia.
  rewrite Nat2Z.id, Ha, Hb.
  rewrite loop_next_small by (unfold size, INT_MAX in *; lia).
  unfold TextStyle.label_at, TextStyle.segment. rewrite Ha, Hb.
  unfold TextStyle.segment_length. cbn [Label.anchor1 Label.anchor2].
  destruct (Rltb _ TextStyle.minLength).
  - now rewrite app_nil_r.
  - reflexivity.
Qed.

(** The loop stops as soon as the index reaches the last point. *)
Lemma buildLine_loop_stop fuel (line : list vec3) text params (i : Z) buf :
  1 <= size line <= INT_MAX ->
  size line - 1 <= i ->
  TextStyle.buildLine_loop (S fuel) line text params i buf = TextStyle.Done buf.
Proof.
  intros Hn Hi. cbn [TextStyle.buildLine_loop].
  rewrite loop_continues_small by assumption.
  destruct (Z.ltb_spec i (size line - 1)); [lia|reflexivity].
Qed.

Lemma filter_seq_none (P : nat -> Prop) `{forall i, Decision (P i)} a len :
  (forall i, (a <= i < a + len)%nat -> ~ P i) -> filter P (seq a len) = [].
Proof.
  revert a. induction len as [|len IH]; intros a Hnone; [reflexivity|].
  cbn [seq]. rewrite filter_cons_False by (apply Hnone; lia).
  apply IH. intros i Hi. apply Hnone. lia.
Qed.

(** The sampled indices in closed form: the loop visits index 0 and,
    on a line of three points or more, index [n / 2]; nothing else. *)
Lemma sampled_closed_form (n : nat) :
  TextStyle.sampled n
  = match n with
    | 0%nat | 1%nat => []
    | 2%nat => [0%nat]
    | _ => [0%nat; (n / 2)%nat]
    end.
Proof.
  destruct n as [|[|[|m]]]; try reflexivity.
  set (n := S (S (S m))). unfold TextStyle.sampled.
  set (s := (n / 2)%nat).
  assert (Hs : Z.of_nat n / 2 = Z.of_nat s).
  { unfold s. now rewrite (Nat2Z.inj_div n 2). }
  assert (Hs1 : (1 <= s)%nat).
  { unfold s. apply Nat.div_le_lower_bound; unfold n; lia. }
  assert (Hs2 : (n <= 2 * s + 1)%nat).
  { pose proof (Nat.div_mod_eq n 2) as Hdm.
    pose proof (Nat.mod_upper_bound n 2 ltac:(lia)). fold s in Hdm. lia. }
  assert (Hs3 : (2 * s <= n)%nat).
  { pose proof (Nat.div_mod_eq n 2) as Hdm. fold s in Hdm. lia. }
  rewrite Hs.
  replace (n - 1)%nat with (1 + ((s - 1) + (1 + (n - 2 - s))))%nat by lia.
  rewrite seq_app, filter_app. cbn [seq].
  rewrite (filter_cons_True _ 0%nat) by (now rewrite Z.mod_0_l by lia).
  rewrite filter_nil. cbn [app]. f_equal.
  rewrite seq_app, filter_app.
  rewrite filter_seq_none.
  2:{ intros i Hi. rewrite Z.mod_small by lia. lia. }
  cbn [app]. rewrite seq_app, filter_app.
  replace (0 + 1 + (s - 1))%nat with s by lia. cbn [seq].
  rewrite (filter_cons_True _ s) by (now rewrite Z.mod_same by lia).
  rewrite filter_nil. cbn [app]. f_equal.
  apply filter_seq_none. intros i Hi.
  replace (Z.of_nat i) with ((Z.of_nat i - Z.of_nat s) + 1 * Z.of_nat s) by lia.
  rewrite Z.mod_add by lia. rewrite Z.mod_small by lia. lia.
Qed.

(** The run of the loop from index 0 on a line that is not empty: it
    returns, and what it adds are the labels of the sampled indices whose
    segment is not shorter than [minLength]. *)
Lemma buildLine_loop_sampled (line : list vec3) text params buf :
  1 <= size line <= INT_MAX ->
  TextStyle.buildLine_loop (S (length line)) line text params 0 buf
  = TextStyle.Done
      (buf ++ TextStyle.labels_at line text params
                (TextStyle.sampled (length line))).
Proof.
  intros Hn. rewrite sampled_closed_form. unfold TextStyle.labels_at.
  destruct line as [|a [|b [|c rest]]].
  - unfold size in Hn. simpl in Hn. lia.
  - rewrite buildLine_loop_stop by (unfold size in *; simpl in *; lia).
    now rewrite app_nil_r.
  - cbn [length]. change 0 with (Z.of_nat 0).
    rewrite buildLine_loop_step by (unfold size in *; simpl in *; lia).
    change (Z.of_nat 0 + size [a; b] / 2) with 1.
    rewrite buildLine_loop_stop by (unfold size in *; simpl in *; lia).
    cbn [flat_map]. now rewrite app_nil_r.
  - set (line := a :: b :: c :: rest) in *.
    assert (Hlen : (3 <= length line)%nat) by (unfold line; simpl; lia).
    set (s := (length line / 2)%nat).
    assert (Hs : size line / 2 = Z.of_nat s).
    { unfold s, size. now rewrite (Nat2Z.inj_div (length line) 2). }
    assert (Hs1 : (1 <= s)%nat) by (unfold s; apply Nat.div_le_lower_bound; lia).
    assert (Hs2 : (length line <= 2 * s + 1)%nat).
    { pose proof (Nat.div_mod_eq (length line) 2) as Hdm.
      pose proof (Nat.mod_upper_bound (length line) 2 ltac:(lia)).
      fold s in Hdm. lia. }
    assert (Hs3 : (2 * s <= length line)%nat).
    { pose proof (Nat.div_mod_eq (length line) 2) as Hdm. fold s in Hdm. lia. }
    replace (match length line with
             | 0%nat | 1%nat => []
             | 2%nat => [0%nat]
             | S (S (S _)) => [0%nat; (length line / 2)%nat]
             end) with [0%nat; s]
      by (unfold line; reflexivity).
    destruct (length line) as [|[|[|m]]] eqn:Hm; try lia.
    change 0 with (Z.of_nat 0).
    rewrite buildLine_loop_step by (unfold size in *; lia).
    rewrite Hs. change (Z.of_nat 0 + Z.of_nat s) with (Z.of_nat s).
    rewrite buildLine_loop_step by (unfold size in *; lia).
    rewrite buildLine_loop_stop by (unfold size in *; lia).
    cbn [flat_map]. now rewrite app_nil_r, app_assoc.
Qed.

Lemma vec2_length_long (v : vec2) :
  (TextStyle.minLength * TextStyle.minLength <= vx v * vx v + vy v * vy v)%R ->
  (TextStyle.minLength <= vec2_length v)%R.
Proof.
  intros Hv. unfold vec2_length.
  rewrite <- (sqrt_square TextStyle.minLength) at 1
    by (unfold TextStyle.minLength; lra).
  now apply sqrt_le_1_alt.
Qed.

Lemma nine_points_no_short_segment : TextStyle.no_short_segment nine_points.
Proof.
  intros i tr Hseg. unfold TextStyle.segment_length.
  apply vec2_length_long.
  do 8 (destruct i as [|i];
        [injection Hseg as <-; unfold TextStyle.minLength; simpl; lra|]).
  unfold TextStyle.segment in Hseg. simpl in Hseg.
  destruct i; discriminate Hseg.
Qed.

Lemma label_at_length line text params i :
  (length (TextStyle.label_at line text params i) <= 1)%nat.
Proof.
  unfold TextStyle.label_at.
  destruct (TextStyle.segment line i); [|simpl; lia].
  destruct (Rltb _ _); simpl; lia.
Qed.

Lemma label_at_long line text params i tr :
  TextStyle.segment line i = Some tr ->
  (TextStyle.minLength <= TextStyle.segment_length tr)%R ->
  TextStyle.label_at line text params i = [TextStyle.line_label text params tr].
Proof.
  intros Hseg Hlong. unfold TextStyle.label_at. rewrite Hseg.
  apply Rltb_false in Hlong. now rewrite Hlong.
Qed.

Lemma String_length_eqb_0 (s : string) :
  (String.length s =? 0)%nat = TextStyle.empty s.
Proof. now destruct s. Qed.

Lemma empty_true (s : string) : TextStyle.empty s = true <-> s = ""%string.
Proof. destruct s; simpl; split; intros; congruence. Qed.

(** [buildLine] past its two guards. *)
Lemma buildLine_visible_text `{Externals} style line rule props buffer :
  TextParams.visible (TextStyle.parseRule style rule) = true ->
  TextStyle.applyTextSource (TextStyle.parseRule style rule) props <> ""%string ->
  TextStyle.buildLine style line rule props buffer
  = TextStyle.buildLine_loop (S (length line)) line
      (TextStyle.applyTextSource (TextStyle.parseRule style rule) props)
      (TextStyle.parseRule style rule) 0 buffer.
Proof.
  intros Hvis Htext. unfold TextStyle.buildLine. rewrite Hvis. cbn [negb].
  rewrite String_length_eqb_0.
  destruct (TextStyle.empty _) eqn:He; [|reflexivity].
  apply empty_true in He. contradiction.
Qed.

(** C6, as stated, fails on nine points one unit apart: the run adds
    two labels, so they cannot start at the three indices 0, 4 and 8. *)
Lemma buildLine_nine_points_counterexample :
  ~ @TextStyle.nine_points_as_stated sample_externals sample_style
      nine_points plain_rule street_props [].
Proof.
  intros Hclaim.
  destruct Hclaim as (added & Hrun & Hstart).
  - reflexivity.
  - reflexivity.
  - discriminate.
  - exact nine_points_no_short_segment.
  - rewrite (@buildLine_visible_text sample_externals) in Hrun
      by (reflexivity || discriminate).
    rewrite buildLine_loop_sampled in Hrun by (unfold size, INT_MAX; simpl; lia).
    injection Hrun as Hrun.
    apply (f_equal (@length _)) in Hstart. rewrite !length_map in Hstart.
    rewrite <- Hrun in Hstart. rewrite !length_app in Hstart.
    pose proof (label_at_length nine_points
                  (TextStyle.applyTextSource
                     (@TextStyle.parseRule sample_externals sample_style plain_rule)
                     street_props)
                  (@TextStyle.parseRule sample_externals sample_style plain_rule)
                  0%nat).
    pose proof (label_at_length nine_points
                  (TextStyle.applyTextSource
                     (@TextStyle.parseRule sample_externals sample_style plain_rule)
                     street_props)
                  (@TextStyle.parseRule sample_externals sample_style plain_rule)
                  4%nat).
    simpl in Hstart. lia.
Qed.

(** C6, amended.  On a line that is not empty, [buildLine] adds the
    labels of the segments that start at the multiples of the stride
    [floor(pointCount / 2)] and are not shorter than 0.15, in the order
    of the indices.  On nine points with no segment below the threshold
    these are two labels, starting at the indices 0 and 4. *)
Theorem buildLine_sampling `{Externals} (style : TextStyle.t)
    (line : list vec3) (rule : TextStyle.DrawRule)
    (props : gmap string string) (buffer : list TextStyle.LabelRequest) :
  1 <= size line <= INT_MAX ->
  TextParams.visible (TextStyle.parseRule style rule) = true ->
  TextStyle.applyTextSource (TextStyle.parseRule style rule) props <> ""%string ->
  TextStyle.buildLine style line rule props buffer
  = TextStyle.Done
      (buffer ++ TextStyle.labels_at line
                   (TextStyle.applyTextSource (TextStyle.parseRule style rule) props)
                   (TextStyle.parseRule style rule)
                   (TextStyle.sampled (length line)))
  /\ (length line = 9%nat -> TextStyle.no_short_segment line ->
      exists added,
        TextStyle.buildLine style line rule props buffer
        = TextStyle.Done (buffer ++ added)
        /\ TextStyle.labels_start_at line [0; 4]%nat added
        /\ length added = 2%nat).
Proof.
  intros Hn Hvis Htext.
  rewrite buildLine_visible_text by assumption.
  rewrite buildLine_loop_sampled by assumption.
  split; [reflexivity|].
  intros Hlen Hlong. eexists. split; [reflexivity|].
  do 9 (destruct line as [|? line]; [discriminate Hlen|]).
  destruct line; [|discriminate Hlen].
  change (TextStyle.sampled _) with [0%nat; 4%nat].
  unfold TextStyle.labels_at. cbn [flat_map].
  erewrite (label_at_long _ _ _ 0%nat) by (reflexivity || now apply (Hlong 0%nat)).
  erewrite (label_at_long _ _ _ 4%nat) by (reflexivity || now apply (Hlong 4%nat)).
  split; reflexivity.
Qed.

(** The theorem on nine points one unit apart, with the default rule
    and a feature named "Main Street". *)
Lemma buildLine_sampling_witness :
  @TextStyle.buildLine sample_externals sample_style nine_points plain_rule
     street_props []
  = TextStyle.Done
      ([] ++ TextStyle.labels_at nine_points
               (TextStyle.applyTextSource
                  (@TextStyle.parseRule sample_externals sample_style plain_rule)
                  street_props)
               (@TextStyle.parseRule sample_externals sample_style plain_rule)
               (TextStyle.sampled (length nine_points)))
  /\ (length nine_points = 9%nat -> TextStyle.no_short_segment nine_points ->
      exists added,
        @TextStyle.buildLine sample_externals sample_style nine_points
           plain_rule street_props []
        = TextStyle.Done ([] ++ added)
        /\ TextStyle.labels_start_at nine_points [0; 4]%nat added
        /\ length added = 2%nat).
Proof.
  apply (@buildLine_sampling sample_externals sample_style nine_points
           plain_rule street_props []).
  - unfold size, INT_MAX. simpl. lia.
  - reflexivity.
  - discriminate.
Defined.

(** ** Termination of [buildLine] *)

Lemma loop_next_empty_iter (k : nat) :
  Nat.iter k (TextStyle.loop_next []) 0 = 0.
Proof.
  induction k as [|k IH]; [reflexivity|].
  change (Nat.iter (S k) (TextStyle.loop_next []) 0)
    with (TextStyle.loop_next [] (Nat.iter k (TextStyle.loop_next []) 0)).
  now rewrite IH.
Qed.

Lemma buildLine_loop_stalls (line : list vec3) text params :
  2 <= size line < size_t_modulus ->
  TextStyle.skipOffset line = 0 ->
  forall fuel buf,
    TextStyle.buildLine_loop fuel line text params 0 buf = TextStyle.OutOfFuel.
Proof.
  intros Hn Hskip.
  assert (Hcont : TextStyle.loop_continues line 0 = true).
  { unfold TextStyle.loop_continues, size_t_sub.
    rewrite to_size_t_small by lia. apply Z.ltb_lt. lia. }
  assert (Hnext : TextStyle.loop_next line 0 = 0).
  { unfold TextStyle.loop_next. now rewrite Hskip. }
  unfold size in Hn.
  destruct (lookup_lt_is_Some_2 line 0%nat) as [a Ha]; [lia|].
  destruct (lookup_lt_is_Some_2 line 1%nat) as [b Hb]; [lia|].
  induction fuel as [|fuel IH]; intros buf; [reflexivity|].
  cbn [TextStyle.buildLine_loop]. rewrite Hcont, Hnext.
  change (Z.to_nat 0) with 0%nat. change (Z.to_nat (size_t_add 0 1)) with 1%nat.
  rewrite Ha, Hb. destruct (Rltb _ _); apply IH.
Qed.

Lemma wrapped_line_size : size wrapped_line = 2 ^ 32 + 1.
Proof.
  unfold size, wrapped_line. rewrite repeat_length. apply Z2Nat.id.
  vm_compute. discriminate.
Qed.

(** C9, as stated, fails on a line of 2^32 + 1 points under a visible
    rule and the text "Main Street": the count stored in the [int] is
    1, the stride is 0, and the loop stays at index 0 whatever the
    number of evaluations of its condition. *)
Lemma buildLine_terminates_counterexample :
  ~ @TextStyle.terminates_as_stated sample_externals wrapped_line.
Proof.
  intros Hclaim.
  assert (Hne : wrapped_line <> []).
  { intros Heq. pose proof wrapped_line_size as Hsz. rewrite Heq in Hsz.
    vm_compute in Hsz. discriminate. }
  destruct (Hclaim Hne sample_style plain_rule street_props [])
    as (fuel & out & Hrun); [reflexivity | discriminate |].
  rewrite buildLine_loop_stalls in Hrun; [discriminate| |].
  - rewrite wrapped_line_size. split; [vm_compute; discriminate | reflexivity].
  - unfold TextStyle.skipOffset, TextStyle.lineLength.
    rewrite wrapped_line_size. reflexivity.
Qed.

(** C9, amended.  On a line of at least one point and at most [INT_MAX]
    points [buildLine] returns, without indexing outside the line.  On
    the empty line the loop bound [_line.size() - 1] is the largest
    [size_t] value and the stride is zero: the loop condition holds at
    index 0, the increment leaves the index at 0 however often it is
    applied, and the first iteration reads [_line[0]] outside the
    bounds. *)
Theorem buildLine_terminates_on_nonempty `{Externals} (style : TextStyle.t)
    (line : list vec3) (rule : TextStyle.DrawRule)
    (props : gmap string string) (buffer : list TextStyle.LabelRequest) :
  1 <= size line <= INT_MAX ->
  (exists out, TextStyle.buildLine style line rule props buffer = TextStyle.Done out)
  /\ size_t_sub (size (@nil vec3)) 1 = SIZE_MAX
  /\ TextStyle.skipOffset [] = 0
  /\ TextStyle.loop_continues [] 0 = true
  /\ (forall k, Nat.iter k (TextStyle.loop_next []) 0 = 0)
  /\ (@nil vec3) !! Z.to_nat 0 = None
  /\ (forall fuel text params buf,
        TextStyle.buildLine_loop (S fuel) [] text params 0 buf
        = TextStyle.OutOfBounds 0)
  /\ (TextParams.visible (TextStyle.parseRule style rule) = true ->
      TextStyle.applyTextSource (TextStyle.parseRule style rule) props <> ""%string ->
      TextStyle.buildLine style [] rule props buffer = TextStyle.OutOfBounds 0).
Proof.
  intros Hn. split; [|repeat split].
  - unfold TextStyle.buildLine.
    destruct (negb (TextParams.visible (TextStyle.parseRule style rule)));
      [eauto|].
    destruct (String.length _ =? 0)%nat; [eauto|].
    rewrite buildLine_loop_sampled by assumption. eauto.
  - apply loop_next_empty_iter.
  - intros Hvis Htext. now rewrite buildLine_visible_text by assumption.
Qed.

(** The theorem on the nine points. *)
Lemma buildLine_terminates_on_nonempty_witness :
  (exists out,
     @TextStyle.buildLine sample_externals sample_style nine_points plain_rule
        street_props [] = TextStyle.Done out)
  /\ size_t_sub (size (@nil vec3)) 1 = SIZE_MAX
  /\ TextStyle.skipOffset [] = 0
  /\ TextStyle.loop_continues [] 0 = true
  /\ (forall k, Nat.iter k (TextStyle.loop_next []) 0 = 0)
  /\ (@nil vec3) !! Z.to_nat 0 = None
  /\ (forall fuel text params buf,
        TextStyle.buildLine_loop (S fuel) [] text params 0 buf
        = TextStyle.OutOfBounds 0)
  /\ (TextParams.visible
        (@TextStyle.parseRule sample_externals sample_style plain_rule) = true ->
      TextStyle.applyTextSource
        (@TextStyle.parseRule sample_externals sample_style plain_rule)
        street_props <> ""%string ->
      @TextStyle.buildLine sample_externals sample_style [] plain_rule
         street_props [] = TextStyle.OutOfBounds 0).
Proof.
  apply (@buildLine_terminates_on_nonempty sample_externals sample_style
           nine_points plain_rule street_props []).
  unfold size, INT_MAX. simpl. lia.
Defined.

(** ** Polygon labels *)

Lemma to_int_succ (a : Z) : to_int (to_int a + 1) = to_int (a + 1).
Proof.
  unfold to_int.
  replace ((a + 2 ^ 31) mod 2 ^ 32 - 2 ^ 31 + 1 + 2 ^ 31)
    with ((a + 2 ^ 31) mod 2 ^ 32 + 1) by lia.
  rewrite Zplus_mod_idemp_l. do 2 f_equal. lia.
Qed.

(** The loop over a ring adds the coordinates up and counts the
    vertices modulo 2^32. *)
Lemma accumulate_ring_sum (l : list vec3) (c : vec2) (n : Z) :
  TextStyle.accumulate_ring (c, to_int n) l
  = (Vec2 (vx c + TextStyle.sum_x l)%R (vy c + TextStyle.sum_y l)%R,
     to_int (n + size l)).
Proof.
  unfold TextStyle.accumulate_ring, TextStyle.sum_x, TextStyle.sum_y, size.
  revert c n. induction l as [|p l IH]; intros c n.
  - simpl. destruct c as [cx cy]. simpl.
    f_equal; [f_equal; lra | f_equal; lia].
  - cbn [fold_left map fold_right length]. rewrite to_int_succ, IH. cbn [vx vy].
    f_equal; [f_equal; lra | f_equal; lia].
Qed.

Lemma accumulate_ring_app (acc : vec2 * Z) (l1 l2 : list vec3) :
  TextStyle.accumulate_ring acc (l1 ++ l2)
  = TextStyle.accumulate_ring (TextStyle.accumulate_ring acc l1) l2.
Proof. unfold TextStyle.accumulate_ring. apply fold_left_app. Qed.

Lemma accumulate_flat (polygon : list (list vec3)) (acc : vec2 * Z) :
  fold_left TextStyle.accumulate_ring polygon acc
  = TextStyle.accumulate_ring acc (concat polygon).
Proof.
  revert acc. induction polygon as [|l polygon IH]; intros acc; [reflexivity|].
  cbn [fold_left concat]. now rewrite IH, accumulate_ring_app.
Qed.

Lemma accumulate_sum (polygon : list (list vec3)) :
  TextStyle.accumulate polygon
  = (Vec2 (TextStyle.sum_x (concat polygon)) (TextStyle.sum_y (concat polygon)),
     to_int (size (concat polygon))).
Proof.
  unfold TextStyle.accumulate. rewrite accumulate_flat.
  change 0 with (to_int 0) at 3. rewrite accumulate_ring_sum. cbn [vx vy].
  f_equal. f_equal; lra.
Qed.

Lemma vec2_div_mean (pts : list vec3) :
  vec2_div (Vec2 (TextStyle.sum_x pts) (TextStyle.sum_y pts)) (size pts) = TextStyle.mean pts.
Proof.
  unfold vec2_div, TextStyle.mean, size, TextStyle.sum_x, TextStyle.sum_y. cbn [vx vy].
  now rewrite <- INR_IZR_INZ.
Qed.

(** [buildPolygon] past its two guards. *)
Lemma buildPolygon_visible_text `{Externals} style polygon rule props buffer :
  TextParams.visible (TextStyle.parseRule style rule) = true ->
  TextStyle.applyTextSource (TextStyle.parseRule style rule) props <> ""%string ->
  TextStyle.buildPolygon style polygon rule props buffer
  = let params := TextStyle.parseRule style rule in
    let n := to_int (size (concat polygon)) in
    if n =? 0 then buffer
    else
      let centroid :=
        vec2_div (Vec2 (TextStyle.sum_x (concat polygon))
                       (TextStyle.sum_y (concat polygon))) n in
      TextStyle.addLabel (TextStyle.applyTextSource params props)
        {| Label.anchor1 := centroid; Label.anchor2 := centroid |}
        Label.point params (TextStyle.optionsFromTextParams params) buffer.
Proof.
  intros Hvis Htext. unfold TextStyle.buildPolygon.
  rewrite Hvis, accumulate_sum, String_length_eqb_0. cbn [negb].
  destruct (TextStyle.empty _) eqn:He; [|reflexivity].
  apply empty_true in He. contradiction.
Qed.

Lemma sum_x_repeat (v : vec3) (k : nat) :
  TextStyle.sum_x (repeat v k) = (INR k * x3 v)%R.
Proof.
  unfold TextStyle.sum_x. induction k as [|k IH].
  - simpl. lra.
  - change (repeat v (S k)) with (v :: repeat v k).
    cbn [map fold_right]. rewrite IH, S_INR. lra.
Qed.

Lemma sum_y_repeat (v : vec3) (k : nat) :
  TextStyle.sum_y (repeat v k) = (INR k * y3 v)%R.
Proof.
  unfold TextStyle.sum_y. induction k as [|k IH].
  - simpl. lra.
  - change (repeat v (S k)) with (v :: repeat v k).
    cbn [map fold_right]. rewrite IH, S_INR. lra.
Qed.

(** A ring of [k] copies of the vertex (1, 0): its count and its sums. *)
Lemma repeated_vertex_ring (k : Z) :
  0 <= k ->
  let ring := repeat (Vec3 1 0 0) (Z.to_nat k) in
  size (concat [ring]) = k
  /\ TextStyle.sum_x (concat [ring]) = IZR k
  /\ TextStyle.sum_y (concat [ring]) = 0%R
  /\ TextStyle.mean (concat [ring]) = Vec2 (IZR k / IZR k) (0 / IZR k).
Proof.
  intros Hk ring. rewrite concat_cons, concat_nil, app_nil_r.
  assert (Hlen : INR (Z.to_nat k) = IZR k)
    by now rewrite INR_IZR_INZ, Z2Nat.id.
  assert (Hx : TextStyle.sum_x ring = IZR k).
  { unfold ring. rewrite sum_x_repeat, Hlen. cbn [x3]. lra. }
  assert (Hy : TextStyle.sum_y ring = 0%R).
  { unfold ring. rewrite sum_y_repeat. cbn [y3]. lra. }
  split; [|split; [|split]]; try assumption.
  - unfold size, ring. rewrite repeat_length. now apply Z2Nat.id.
  - unfold TextStyle.mean. rewrite Hx, Hy.
    unfold ring. now rewrite repeat_length, Hlen.
Qed.

(** On 2^32 vertices the count is back at zero, and the polygon gets
    no label. *)
Example buildPolygon_wrapped_count :
  @TextStyle.buildPolygon sample_externals sample_style wrapped_polygon
     plain_rule street_props []
  = [].
Proof.
  rewrite buildPolygon_visible_text by (reflexivity || discriminate).
  cbv zeta. unfold wrapped_polygon.
  destruct (repeated_vertex_ring (2 ^ 32)) as (-> & _); [vm_compute; discriminate|].
  reflexivity.
Qed.




(** ** Text source *)

Lemma parseRule_textSource `{Externals} style rule :
  TextParams.textSource (TextStyle.parseRule style rule)
  = TextStyle.rule_text_source rule.
Proof.
  unfold TextStyle.parseRule, TextStyle.rule_text_source, TextStyle.get.
  cbn [TextParams.textSource].
  now destruct (TextStyle.get_string rule StyleParamKey.text_source).
Qed.

Lemma parseRule_visible `{Externals} style rule :
  TextParams.visible (TextStyle.parseRule style rule)
  = TextStyle.rule_visible rule.
Proof.
  unfold TextStyle.parseRule, TextStyle.rule_visible, TextStyle.get.
  cbn [TextParams.visible].
  now destruct (TextStyle.get_bool rule StyleParamKey.visible).
Qed.

Lemma applyTextSource_resolved `{Externals} style rule props :
  TextStyle.applyTextSource (TextStyle.parseRule style rule) props
  = TextStyle.resolved_text rule props.
Proof.
  unfold TextStyle.applyTextSource, TextStyle.resolved_text, TextStyle.getString.
  rewrite parseRule_textSource.
  now destruct (TextStyle.rule_text_source rule).
Qed.

(** Every label the loop of [buildLine] adds carries the text it was
    given. *)
Lemma buildLine_loop_texts line text params fuel :
  forall i buf out,
    TextStyle.buildLine_loop fuel line text params i buf = TextStyle.Done out ->
    exists added,
      out = buf ++ added
      /\ Forall (fun l => TextStyle.text l = text) added.
Proof.
  induction fuel as [|fuel IH]; intros i buf out Hrun; [discriminate|].
  cbn [TextStyle.buildLine_loop] in Hrun.
  destruct (TextStyle.loop_continues line i).
  2:{ injection Hrun as <-. exists []. now rewrite app_nil_r. }
  destruct (line !! Z.to_nat i) as [a|]; [|discriminate].
  destruct (line !! Z.to_nat (size_t_add i 1)) as [b|]; [|discriminate].
  destruct (Rltb _ _).
  - now apply IH in Hrun.
  - apply IH in Hrun as (added & -> & Hall).
    unfold TextStyle.addLabel. rewrite <- app_assoc.
    eexists. split; [reflexivity|]. now constructor.
Qed.

(** C8.  In [buildPoint], [buildLine] and [buildPolygon] the text of a
    label is the rule's text source when that is not empty and the "name"
    property of the feature otherwise; when this text is empty or the
    rule is not visible, no label is added.  When the text is not empty
    and the rule is visible, the labels are built and carry this text:
    [buildPoint] adds one label at the point, [buildLine] adds the labels
    of the sampled segments (on a line of 1 to [INT_MAX] points), and
    [buildPolygon] adds one label at the mean of the vertices (on a
    polygon of 1 to [INT_MAX] vertices). *)
Theorem build_text_source `{Externals} (style : TextStyle.t)
    (rule : TextStyle.DrawRule) (props : gmap string string)
    (point : vec3) (line : list vec3) (polygon : list (list vec3))
    (buffer : list TextStyle.LabelRequest) :
  let text := TextStyle.resolved_text rule props in
  let params := TextStyle.parseRule style rule in
  let carries_text := Forall (fun l => TextStyle.text l = text) in
  let point_label at_ :=
    {| TextStyle.text := text;
       TextStyle.transform := {| Label.anchor1 := at_; Label.anchor2 := at_ |};
       TextStyle.type := Label.point;
       TextStyle.params := params;
       TextStyle.options := TextStyle.optionsFromTextParams params |} in
  (text = ""%string \/ TextStyle.rule_visible rule = false ->
   TextStyle.buildPoint style point rule props buffer = buffer
   /\ TextStyle.buildLine style line rule props buffer = TextStyle.Done buffer
   /\ TextStyle.buildPolygon style polygon rule props buffer = buffer)
  /\ (text <> ""%string -> TextStyle.rule_visible rule = true ->
      TextStyle.buildPoint style point rule props buffer
      = buffer ++ [point_label (vec2_of point)]
      /\ (1 <= size line <= INT_MAX ->
          TextStyle.buildLine style line rule props buffer
          = TextStyle.Done
              (buffer ++ TextStyle.labels_at line text params
                           (TextStyle.sampled (length line))))
      /\ (1 <= size (concat polygon) <= INT_MAX ->
          TextStyle.buildPolygon style polygon rule props buffer
          = buffer ++ [point_label (TextStyle.mean (concat polygon))]))
  /\ (exists added,
        TextStyle.buildPoint style point rule props buffer = buffer ++ added
        /\ carries_text added)
  /\ (forall out,
        TextStyle.buildLine style line rule props buffer = TextStyle.Done out ->
        exists added, out = buffer ++ added /\ carries_text added)
  /\ (exists added,
        TextStyle.buildPolygon style polygon rule props buffer = buffer ++ added
        /\ carries_text added).
Proof.
  cbv zeta. split; [|split].
  - unfold TextStyle.buildPoint, TextStyle.buildLine, TextStyle.buildPolygon.
    rewrite applyTextSource_resolved, parseRule_visible, String_length_eqb_0.
    intros [Hempty|Hhidden].
    + rewrite Hempty. cbn [TextStyle.empty].
      destruct (negb (TextStyle.rule_visible rule)); auto.
    + rewrite Hhidden. auto.
  - intros Htext Hvis.
    assert (Hvis' : TextParams.visible (TextStyle.parseRule style rule) = true)
      by now rewrite parseRule_visible.
    assert (Htext' : TextStyle.applyTextSource (TextStyle.parseRule style rule)
                       props <> ""%string)
      by now rewrite applyTextSource_resolved.
    split; [|split].
    + unfold TextStyle.buildPoint.
      rewrite Hvis', String_length_eqb_0, applyTextSource_resolved. cbn [negb].
      destruct (TextStyle.empty _) eqn:He; [|reflexivity].
      apply empty_true in He. contradiction.
    + intros Hline. rewrite buildLine_visible_text by assumption.
      rewrite buildLine_loop_sampled by assumption.
      now rewrite applyTextSource_resolved.
    + intros [Hlo Hhi]. rewrite buildPolygon_visible_text by assumption.
      cbv zeta. rewrite to_int_small by lia.
      destruct (Z.eqb_spec (size (concat polygon)) 0) as [H0|_]; [lia|].
      now rewrite vec2_div_mean, applyTextSource_resolved.
  - unfold TextStyle.buildPoint, TextStyle.buildLine, TextStyle.buildPolygon.
    rewrite applyTextSource_resolved, parseRule_visible, String_length_eqb_0.
    split; [|split].
    + destruct (negb (TextStyle.rule_visible rule));
        [exists []; now rewrite app_nil_r|].
      destruct (TextStyle.empty _); [exists []; now rewrite app_nil_r|].
      eexists. split; [reflexivity|]. now constructor.
    + intros out Hrun.
      destruct (negb (TextStyle.rule_visible rule)).
      { injection Hrun as <-. exists []. now rewrite app_nil_r. }
      destruct (TextStyle.empty _).
      { injection Hrun as <-. exists []. now rewrite app_nil_r. }
      now apply buildLine_loop_texts in Hrun.
    + destruct (negb (TextStyle.rule_visible rule));
        [exists []; now rewrite app_nil_r|].
      destruct (TextStyle.empty _); [exists []; now rewrite app_nil_r|].
      destruct (TextStyle.accumulate polygon) as [centroid n].
      destruct (n =? 0); [exists []; now rewrite app_nil_r|].
      eexists. split; [reflexivity|]. now constructor.
Qed.

(** The theorem on a rule whose own text source is empty and a feature
    named "Main Street": the three builders fall back on the name, one
    label for the point, two for the nine points of the line, one for
    the polygon. *)
Lemma build_text_source_witness :
  map TextStyle.text
    (@TextStyle.buildPoint sample_externals sample_style (Vec3 1 2 0)
       empty_source_rule street_props [])
  = ["Main Street"%string]
  /\ (exists out,
        @TextStyle.buildLine sample_externals sample_style nine_points
           empty_source_rule street_props [] = TextStyle.Done out
        /\ map TextStyle.text out = ["Main Street"; "Main Street"]%string)
  /\ map TextStyle.text
       (@TextStyle.buildPolygon sample_externals sample_style sample_polygon
          empty_source_rule street_props [])
     = ["Main Street"%string].
Proof.
  destruct (@build_text_source sample_externals sample_style empty_source_rule
              street_props (Vec3 1 2 0) nine_points sample_polygon [])
    as (_ & Hbuilt & _).
  destruct Hbuilt as (Hpoint & Hline & Hpolygon);
    [discriminate | reflexivity |].
  split; [now rewrite Hpoint|]. split.
  - eexists. split; [apply Hline; vm_compute; split; discriminate|].
    rewrite sampled_closed_form. cbn [length nine_points app].
    change (9 / 2)%nat with 4%nat.
    unfold TextStyle.labels_at. cbn [flat_map].
    rewrite (label_at_long nine_points _ _ 0%nat _ eq_refl)
      by (apply (nine_points_no_short_segment 0%nat); reflexivity).
    rewrite (label_at_long nine_points _ _ 4%nat _ eq_refl)
      by (apply (nine_points_no_short_segment 4%nat); reflexivity).
    reflexivity.
  - rewrite Hpolygon by (vm_compute; split; discriminate). reflexivity.
Defined.

(** The fallback on the "name" of the feature, and a feature without
    a name, on a rule whose own text source is empty. *)
Example buildPoint_falls_back_on_name :
  map TextStyle.text
    (@TextStyle.buildPoint sample_externals sample_style (Vec3 1 2 0)
       empty_source_rule street_props [])
  = ["Main Street"%string].
Proof. reflexivity. Qed.

Example buildPoint_without_name :
  @TextStyle.buildPoint sample_externals sample_style (Vec3 1 2 0)
     empty_source_rule ∅ []
  = [].
Proof. reflexivity. Qed.

Example buildPolygon_without_vertices :
  @TextStyle.buildPolygon sample_externals sample_style [[]; []]
     plain_rule street_props []
  = [].
Proof.
  unfold TextStyle.buildPolygon. reflexivity.
Qed.

(** * Further properties of the label manager *)

(** ** The boxes collected while pruning *)

(** One iteration on a unit whose label is alive, with the box it adds. *)
Lemma prune_loop_alive_box fuel heap units (i : nat) u aabbs :
  size units < size_t_modulus ->
  units !! i = Some u -> Labels.alive heap u ->
  Labels.prune_loop (S fuel) heap units (Z.of_nat i) aabbs
  = Labels.prune_loop fuel heap units (Z.of_nat (S i)) (aabbs ++ Pass.box_of heap u).
Proof.
  intros Hsz Hu [l Hl].
  pose proof (lookup_lt_Some _ _ _ Hu) as Hlt.
  cbn [Labels.prune_loop]. unfold size in *.
  destruct (Z.ltb_spec (Z.of_nat i) (Z.of_nat (length units))); [|lia].
  rewrite Nat2Z.id, Hu. unfold Pass.box_of, Labels.getWeakLabel. rewrite Hl.
  unfold size_t_add. rewrite to_size_t_small by lia.
  replace (Z.of_nat i + 1) with (Z.of_nat (S i)) by lia.
  destruct (negb (Label.canOcclude l)); [now rewrite app_nil_r | reflexivity].
Qed.

(** What a finished run of the loop has collected: the units before the
    index are the ones it started with, and the boxes added are those of
    the units from the index on, in the order of the final list. *)
Lemma prune_loop_boxes heap fuel :
  forall units (i : nat) aabbs units' aabbs',
    size units < size_t_modulus ->
    (i <= length units)%nat ->
    Labels.prune_loop fuel heap units (Z.of_nat i) aabbs = Some (units', aabbs') ->
    take i units' = take i units
    /\ aabbs' = aabbs ++ Pass.boxes heap (drop i units').
Proof.
  induction fuel as [|fuel IH]; intros units i aabbs units' aabbs' Hsz Hi Hrun;
    [discriminate|].
  destruct (decide (i = length units)) as [->|Hne].
  - cbn [Labels.prune_loop] in Hrun. unfold size in Hrun.
    destruct (Z.ltb_spec (Z.of_nat (length units)) (Z.of_nat (length units)));
      [lia|].
    injection Hrun as <- <-. split; [reflexivity|].
    rewrite drop_all. cbn. now rewrite app_nil_r.
  - assert (Hlt : (i < length units)%nat) by lia.
    destruct (lookup_lt_is_Some_2 units i Hlt) as [u Hu].
    pose proof (take_drop_middle units i u Hu) as Hsplit.
    assert (Hlen : length (take i units) = i) by (rewrite length_take; lia).
    destruct (decide (Labels.alive heap u)) as [Halive|Hdead].
    + rewrite (prune_loop_alive_box fuel heap units i u aabbs Hsz Hu Halive) in Hrun.
      apply IH in Hrun as [Htake ->]; [|assumption|lia].
      assert (Hu' : units' !! i = Some u).
      { rewrite <- (lookup_take_lt units' (S i) i) by lia.
        rewrite Htake. rewrite lookup_take_lt by lia. exact Hu. }
      split.
      * replace i with (i `min` S i)%nat at 1 2 by lia.
        now rewrite <- !take_take, Htake.
      * rewrite (drop_S units' u i Hu'). unfold Pass.boxes. cbn [flat_map].
        now rewrite app_assoc.
    + remember (take i units) as pre eqn:Hpre_def.
      assert (Hi' : Z.of_nat i = size pre) by (unfold size; lia).
      assert (Hcase : drop (S i) units = []
                      \/ exists mid y, drop (S i) units = mid ++ [y]).
      { destruct (drop (S i) units) as [|y mid _] using rev_ind; eauto. }
      destruct Hcase as [Hrest|(mid & y & Hrest)]; rewrite Hrest in Hsplit;
        rewrite <- Hsplit, Hi' in Hrun; rewrite <- Hsplit in Hsz.
      * rewrite prune_loop_dead_last in Hrun by assumption.
        rewrite <- Hi' in Hrun.
        apply IH in Hrun as [Htake ->].
        -- split; [|reflexivity]. rewrite Htake.
           rewrite <- Hlen at 1. now rewrite firstn_all.
        -- rewrite size_app_cons in Hsz.
           pose proof (size_nonneg (@nil Labels.LabelUnit)). lia.
        -- lia.
      * rewrite prune_loop_dead_middle in Hrun by assumption.
        rewrite <- Hi' in Hrun.
        apply IH in Hrun as [Htake ->].
        -- split; [|reflexivity]. rewrite Htake.
           rewrite take_app_le by lia. rewrite <- Hlen at 1.
           now rewrite firstn_all.
        -- unfold size in *. rewrite !length_app in Hsz. simpl in Hsz.
           rewrite length_app in Hsz. simpl in Hsz.
           rewrite length_app. simpl. lia.
        -- rewrite length_app. lia.
Qed.

Lemma prune_loop_all_alive heap units fuel :
  size units < size_t_modulus ->
  Forall (Labels.alive heap) units ->
  forall (i : nat) aabbs,
    (i <= length units)%nat -> (length units - i < fuel)%nat ->
    Labels.prune_loop fuel heap units (Z.of_nat i) aabbs
    = Some (units, aabbs ++ Pass.boxes heap (drop i units)).
Proof.
  intros Hsz Hall. induction fuel as [|fuel IH]; intros i aabbs Hi Hfuel; [lia|].
  destruct (decide (i = length units)) as [->|Hne].
  - cbn [Labels.prune_loop]. unfold size.
    destruct (Z.ltb_spec (Z.of_nat (length units)) (Z.of_nat (length units)));
      [lia|].
    rewrite drop_all. cbn. now rewrite app_nil_r.
  - destruct (lookup_lt_is_Some_2 units i) as [u Hu]; [lia|].
    assert (Halive : Labels.alive heap u).
    { eapply Forall_lookup_1; eassumption. }
    rewrite (prune_loop_alive_box fuel heap units i u aabbs Hsz Hu Halive).
    rewrite IH by lia. rewrite (drop_S units u i Hu).
    unfold Pass.boxes. cbn [flat_map]. now rewrite app_assoc.
Qed.

(** Every collected box points back to the live, occluding label of a
    unit of the list, and is the box of that label. *)
Lemma boxes_back_pointers heap units :
  Forall (fun a => exists u l,
            u ∈ units
            /\ Label.m_userData a = Some (Labels.m_label u)
            /\ heap !! Labels.m_label u = Some l
            /\ Label.canOcclude l = true
            /\ a = Labels.with_userData (Label.getAABB l) (Labels.m_label u))
         (Pass.boxes heap units).
Proof.
  induction units as [|u units IH]; [constructor|].
  unfold Pass.boxes. cbn [flat_map]. apply Forall_app. split.
  - unfold Pass.box_of, Labels.getWeakLabel.
    destruct (heap !! Labels.m_label u) as [l|] eqn:Hl; [|constructor].
    destruct (Label.canOcclude l) eqn:Hc; cbn [negb]; [|constructor].
    constructor; [|constructor].
    exists u, l. repeat split; try assumption. left.
  - eapply Forall_impl; [exact IH|].
    intros a (u' & l & Hin & Hrest). exists u', l. split; [now right | exact Hrest].
Qed.

(** X1.  The prune loop hands the broad phase exactly the boxes of the
    units it keeps, in the order of the list it leaves: one box for each
    kept unit whose label can occlude, carrying the pointer to that
    label. *)
Theorem prune_collects_boxes (heap : gmap ptr Label.t)
    (units : list Labels.LabelUnit) :
  size units < size_t_modulus ->
  exists units' aabbs,
    Labels.prune heap units = Some (units', aabbs)
    /\ aabbs = Pass.boxes heap units'
    /\ Forall (fun a => exists u l,
                 u ∈ units'
                 /\ Label.m_userData a = Some (Labels.m_label u)
                 /\ heap !! Labels.m_label u = Some l
                 /\ Label.canOcclude l = true
                 /\ a = Labels.with_userData (Label.getAABB l) (Labels.m_label u))
              aabbs.
Proof.
  intros Hsz. unfold Labels.prune.
  destruct (prune_loop_invariant heap (S (length units)) units 0 [])
    as (units' & aabbs & Hrun & _); try assumption; try lia; [constructor|].
  change (Z.of_nat 0) with 0 in Hrun. exists units', aabbs.
  split; [exact Hrun|].
  apply (prune_loop_boxes heap _ units 0%nat) in Hrun as [_ Hboxes];
    [|assumption|lia].
  cbn in Hboxes. subst aabbs. split; [reflexivity|]. apply boxes_back_pointers.
Qed.

Lemma prune_collects_boxes_witness :
  exists units' aabbs,
    Labels.prune (cells Labels.two_labels)
      [sample_unit 7%positive; sample_unit 1%positive; sample_unit 2%positive]
    = Some (units', aabbs)
    /\ aabbs = Pass.boxes (cells Labels.two_labels) units'
    /\ Forall (fun a => exists u l,
                 u ∈ units'
                 /\ Label.m_userData a = Some (Labels.m_label u)
                 /\ cells Labels.two_labels !! Labels.m_label u = Some l
                 /\ Label.canOcclude l = true
                 /\ a = Labels.with_userData (Label.getAABB l) (Labels.m_label u))
              aabbs.
Proof.
  apply (prune_collects_boxes (cells Labels.two_labels)
           [sample_unit 7%positive; sample_unit 1%positive; sample_unit 2%positive]).
  reflexivity.
Defined.

(** X2.  When no unit of the list is dangling, pruning leaves the list
    as it is, order included, and collects the boxes of its occluding
    labels in list order. *)
Theorem prune_keeps_live_list (heap : gmap ptr Label.t)
    (units : list Labels.LabelUnit) :
  size units < size_t_modulus ->
  Forall (Labels.alive heap) units ->
  Labels.prune heap units = Some (units, Pass.boxes heap units).
Proof.
  intros Hsz Hall. unfold Labels.prune.
  change 0 with (Z.of_nat 0).
  rewrite (prune_loop_all_alive heap units _ Hsz Hall 0%nat []) by lia.
  reflexivity.
Qed.

Lemma prune_keeps_live_list_witness :
  Labels.prune (cells Labels.two_labels)
    [sample_unit 2%positive; sample_unit 1%positive]
  = Some ([sample_unit 2%positive; sample_unit 1%positive],
          Pass.boxes (cells Labels.two_labels)
            [sample_unit 2%positive; sample_unit 1%positive]).
Proof.
  apply (prune_keeps_live_list (cells Labels.two_labels)
           [sample_unit 2%positive; sample_unit 1%positive]).
  - reflexivity.
  - repeat constructor; eexists; reflexivity.
Defined.

(** ** What the resolve loop never does *)

Lemma marked_if_occluded_mono c q s p :
  Labels.occluded s p = true -> Labels.occluded (marked_if c q s) p = true.
Proof.
  intros Hp. destruct c; [|exact Hp]. cbn [marked_if].
  assert (Hlive : live s p).
  { unfold Labels.occluded in Hp. unfold live.
    destruct (cells s !! p); [eauto | discriminate]. }
  rewrite marked_occluded by assumption.
  now destruct (decide (q = p)).
Qed.

Lemma marks_members s A B :
  Forall (fun c : ptr * bool => c.2 = true /\ (c.1 = A \/ c.1 = B))
         (Labels.marks s A B)
  /\ (length (Labels.marks s A B) <= 3)%nat.
Proof.
  unfold Labels.marks.
  destruct (negb (Labels.last_frame s A) && Labels.waiting s B),
           (negb (Labels.last_frame s B) && Labels.waiting s A),
           (negb (Labels.last_frame s B));
    cbn; (split; [|lia]);
    repeat (apply Forall_cons; split; [cbn; auto|]); constructor.
Qed.

(** The run of the resolve loop on pairs of live labels. *)
Lemma resolve_run (occlusions : list (ptr * ptr))
    (s : store) :
  Forall (fun pr => live s pr.1 /\ live s pr.2) occlusions ->
  exists s' new,
    Labels.resolve occlusions s = Some (tt, s')
    /\ calls s' = calls s ++ new
    /\ Forall (fun c : ptr * bool =>
                 c.2 = true
                 /\ exists pr, pr ∈ occlusions /\ (c.1 = pr.1 \/ c.1 = pr.2))
              new
    /\ (length new <= 3 * length occlusions)%nat
    /\ (forall p, Labels.occluded s p = true -> Labels.occluded s' p = true)
    /\ (forall p, (forall pr, pr ∈ occlusions -> p <> pr.1 /\ p <> pr.2) ->
                  cells s' !! p = cells s !! p)
    /\ (forall p, live s' p <-> live s p).
Proof.
  revert s. induction occlusions as [|[A B] rest IH]; intros s Hlive.
  - exists s, []. cbn. rewrite app_nil_r.
    repeat split; auto; try tauto; try constructor.
  - apply Forall_cons in Hlive as [[HA HB] Hrest]. cbn [fst snd] in HA, HB.
    cbn [Labels.resolve]. unfold bind at 1.
    rewrite (resolve_pair_live s A B HA HB).
    set (s1 := marked_if _ A _).
    assert (Hl1 : forall p, live s1 p <-> live s p)
      by (intros p; unfold s1; now rewrite !marked_if_live).
    destruct (IH s1) as (s' & new & Hrun & Hcalls & Hnew & Hlen & Hmono & Hother & Hl).
    { eapply Forall_impl; [exact Hrest|]. intros pr [? ?].
      split; now apply Hl1. }
    destruct (marks_members s A B) as [Hm Hm3].
    exists s', (Labels.marks s A B ++ new). split; [exact Hrun|].
    split; [|split; [|split; [|split; [|split]]]].
    + rewrite Hcalls. unfold s1. rewrite !marked_if_calls.
      unfold Labels.marks. now rewrite <- !app_assoc.
    + apply Forall_app. split.
      * eapply Forall_impl; [exact Hm|]. intros c [Hc Hmem].
        split; [exact Hc|]. exists (A, B). split; [left | exact Hmem].
      * eapply Forall_impl; [exact Hnew|]. intros c [Hc (pr & Hin & Hmem)].
        split; [exact Hc|]. exists pr. split; [now right | exact Hmem].
    + rewrite length_app. cbn [length]. lia.
    + intros p Hp. apply Hmono. unfold s1.
      now repeat apply marked_if_occluded_mono.
    + intros p Hp. rewrite Hother.
      * destruct (Hp (A, B)) as [HpA HpB]; [left|]. cbn [fst snd] in HpA, HpB.
        unfold s1. rewrite !marked_if_other; congruence.
      * intros pr Hin. apply Hp. now right.
    + intros p. now rewrite Hl.
Qed.

(** X3.  On pairs of live labels the resolve loop returns.  Every
    [setOcclusion] call it makes has the argument [true] and a member of
    one of the pairs as its target, and there are at most three calls
    for each pair.  A mark that is set stays set, a label that is in no
    pair is not written to, and no label appears or disappears. *)
Theorem resolve_only_marks_pair_members (occlusions : list (ptr * ptr))
    (s : store) :
  Forall (fun pr => live s pr.1 /\ live s pr.2) occlusions ->
  exists s' new,
    Labels.resolve occlusions s = Some (tt, s')
    /\ calls s' = calls s ++ new
    /\ Forall (fun c : ptr * bool =>
                 c.2 = true
                 /\ exists pr, pr ∈ occlusions /\ (c.1 = pr.1 \/ c.1 = pr.2))
              new
    /\ (length new <= 3 * length occlusions)%nat
    /\ (forall p, Labels.occluded s p = true -> Labels.occluded s' p = true)
    /\ (forall p, (forall pr, pr ∈ occlusions -> p <> pr.1 /\ p <> pr.2) ->
                  cells s' !! p = cells s !! p)
    /\ (forall p, live s' p <-> live s p).
Proof. exact (resolve_run occlusions s). Qed.

Lemma resolve_only_marks_pair_members_witness :
  exists s' new,
    Labels.resolve [(2%positive, 1%positive); (1%positive, 2%positive)]
      Labels.two_labels = Some (tt, s')
    /\ calls s' = calls Labels.two_labels ++ new
    /\ Forall (fun c : ptr * bool =>
                 c.2 = true
                 /\ exists pr,
                      pr ∈ [(2%positive, 1%positive); (1%positive, 2%positive)]
                      /\ (c.1 = pr.1 \/ c.1 = pr.2))
              new
    /\ (length new <= 3 * 2)%nat
    /\ (forall p, Labels.occluded Labels.two_labels p = true ->
                  Labels.occluded s' p = true)
    /\ (forall p,
          (forall pr, pr ∈ [(2%positive, 1%positive); (1%positive, 2%positive)] ->
                      p <> pr.1 /\ p <> pr.2) ->
          cells s' !! p = cells Labels.two_labels !! p)
    /\ (forall p, live s' p <-> live Labels.two_labels p).
Proof.
  apply (resolve_only_marks_pair_members
           [(2%positive, 1%positive); (1%positive, 2%positive)] Labels.two_labels).
  repeat constructor; eexists; reflexivity.
Defined.

(** ** The set of occlusions *)

Lemma pair_lt_spec (a b : ptr * ptr) :
  Pass.pair_lt a b = true
  <-> (a.1 < b.1)%positive \/ (a.1 = b.1 /\ (a.2 < b.2)%positive).
Proof.
  unfold Pass.pair_lt.
  rewrite orb_true_iff, andb_true_iff, !Pos.ltb_lt, Pos.eqb_eq. tauto.
Qed.

Lemma pair_lt_irrefl (a : ptr * ptr) : Pass.pair_lt a a = false.
Proof.
  destruct (Pass.pair_lt a a) eqn:E; [|reflexivity].
  apply pair_lt_spec in E. lia.
Qed.

Lemma pair_lt_trans (a b c : ptr * ptr) :
  Pass.pair_lt a b = true -> Pass.pair_lt b c = true -> Pass.pair_lt a c = true.
Proof. rewrite !pair_lt_spec. lia. Qed.

Lemma pair_lt_total (a b : ptr * ptr) :
  Pass.pair_lt a b = false -> Pass.pair_lt b a = false -> a = b.
Proof.
  intros Hab Hba.
  destruct a as [a1 a2], b as [b1 b2].
  assert (Hn1 : ~ ((a1 < b1)%positive \/ (a1 = b1 /\ (a2 < b2)%positive))).
  { intros H. apply (pair_lt_spec (a1, a2) (b1, b2)) in H. congruence. }
  assert (Hn2 : ~ ((b1 < a1)%positive \/ (b1 = a1 /\ (b2 < a2)%positive))).
  { intros H. apply (pair_lt_spec (b1, b2) (a1, a2)) in H. congruence. }
  f_equal; lia.
Qed.

Lemma set_insert_elem (x y : ptr * ptr) (occlusions : list (ptr * ptr)) :
  y ∈ Pass.set_insert x occlusions <-> y = x \/ y ∈ occlusions.
Proof.
  induction occlusions as [|z rest IH]; cbn [Pass.set_insert].
  - rewrite list_elem_of_singleton, elem_of_nil. tauto.
  - destruct (Pass.pair_lt x z) eqn:Hxz.
    + rewrite !elem_of_cons. tauto.
    + destruct (Pass.pair_lt z x) eqn:Hzx.
      * rewrite !elem_of_cons, IH. tauto.
      * rewrite (pair_lt_total x z Hxz Hzx). rewrite !elem_of_cons. tauto.
Qed.

Lemma set_insert_ordered (x : ptr * ptr) (occlusions : list (ptr * ptr)) :
  Pass.set_ordered occlusions -> Pass.set_ordered (Pass.set_insert x occlusions).
Proof.
  unfold Pass.set_ordered.
  induction occlusions as [|z rest IH]; intros Hs; cbn [Pass.set_insert].
  - repeat constructor.
  - apply StronglySorted_inv in Hs as [Hrest Hz].
    destruct (Pass.pair_lt x z) eqn:Hxz.
    + constructor; [now constructor|].
      constructor; [exact Hxz|].
      eapply List.Forall_impl; [|exact Hz]. intros c Hc. cbn in Hc |- *.
      now apply (pair_lt_trans x z c).
    + destruct (Pass.pair_lt z x) eqn:Hzx; [|now constructor].
      constructor; [now apply IH|].
      apply List.Forall_forall. intros c Hc.
      apply list_elem_of_In, set_insert_elem in Hc as [->|Hc]; [exact Hzx|].
      rewrite List.Forall_forall in Hz. apply Hz. now apply list_elem_of_In.
Qed.

Lemma set_ordered_NoDup (occlusions : list (ptr * ptr)) :
  Pass.set_ordered occlusions -> NoDup occlusions.
Proof.
  unfold Pass.set_ordered. induction 1 as [|a l Hs IH Ha]; constructor.
  - intros Hin. rewrite List.Forall_forall in Ha.
    apply list_elem_of_In, Ha in Hin. now rewrite pair_lt_irrefl in Hin.
  - exact IH.
Qed.

(** ** The narrow phase and the closing loop *)

(** The run of the narrow-phase loop on boxes with bound back-pointers
    and indices within the boxes: it returns, the set stays ordered, and
    it gains exactly the pairs that the narrow test accepts. *)
Lemma narrow_loop_run `{Pass.Intersection} heap aabbs pairs :
  size aabbs < size_t_modulus ->
  Forall (Pass.box_live heap) aabbs ->
  Forall (Pass.in_bounds aabbs) pairs ->
  forall occlusions,
    Pass.set_ordered occlusions ->
    exists occlusions',
      Pass.narrow_loop heap aabbs pairs occlusions = Some occlusions'
      /\ Pass.set_ordered occlusions'
      /\ (forall pr, pr ∈ occlusions'
                     <-> pr ∈ occlusions
                         \/ exists ij, ij ∈ pairs
                                       /\ Pass.accepted heap aabbs ij = Some pr).
Proof.
  intros Hsz Hboxes Hpairs.
  induction Hpairs as [|ij pairs [Hi Hj] _ IH]; intros occlusions Hord.
  - exists occlusions. split; [reflexivity|]. split; [assumption|].
    intros pr. split; [auto|]. intros [?|(ij & Hin & _)]; [assumption|].
    now apply elem_of_nil in Hin.
  - cbn [Pass.narrow_loop].
    rewrite !to_size_t_small by lia.
    unfold size in Hi, Hj.
    destruct (lookup_lt_is_Some_2 aabbs (Z.to_nat ij.1)) as [a1 Ha1]; [lia|].
    destruct (lookup_lt_is_Some_2 aabbs (Z.to_nat ij.2)) as [a2 Ha2]; [lia|].
    rewrite Ha1, Ha2.
    destruct (Forall_lookup_1 _ _ _ _ Hboxes Ha1) as (l1 & Hu1 & [label1 Hl1]).
    destruct (Forall_lookup_1 _ _ _ _ Hboxes Ha2) as (l2 & Hu2 & [label2 Hl2]).
    rewrite Hu1, Hu2, Hl1, Hl2.
    assert (Hacc : Pass.accepted heap aabbs ij
                   = if Pass.narrow_phase (Pass.getOBB label1) (Pass.getOBB label2)
                     then Some (l1, l2) else None).
    { unfold Pass.accepted. now rewrite Ha1, Ha2, Hu1, Hu2, Hl1, Hl2. }
    destruct (Pass.narrow_phase (Pass.getOBB label1) (Pass.getOBB label2)).
    + destruct (IH (Pass.set_insert (l1, l2) occlusions))
        as (occ' & Hrun & Hord' & Hmem); [now apply set_insert_ordered|].
      exists occ'. split; [exact Hrun|]. split; [exact Hord'|].
      intros pr. rewrite Hmem, set_insert_elem. split.
      * intros [[->|Hin]|(ij' & Hin & Ha)].
        -- right. exists ij. split; [left | exact Hacc].
        -- now left.
        -- right. exists ij'. split; [now right | exact Ha].
      * intros [Hin|(ij' & Hin & Ha)]; [now left; right|].
        apply elem_of_cons in Hin as [->|Hin].
        -- left. left. congruence.
        -- right. eauto.
    + destruct (IH occlusions) as (occ' & Hrun & Hord' & Hmem); [assumption|].
      exists occ'. split; [exact Hrun|]. split; [exact Hord'|].
      intros pr. rewrite Hmem. split.
      * intros [Hin|(ij' & Hin & Ha)]; [now left|].
        right. exists ij'. split; [now right | exact Ha].
      * intros [Hin|(ij' & Hin & Ha)]; [now left|].
        apply elem_of_cons in Hin as [->|Hin]; [congruence|].
        right. eauto.
Qed.

(** The closing loop writes only to labels that are bound, so it binds
    the same pointers afterwards. *)
Lemma solve_loop_bound `{Pass.Intersection} units :
  forall heap p,
    is_Some (Pass.solve_loop units heap !! p) <-> is_Some (heap !! p).
Proof.
  induction units as [|u units IH]; intros heap p; cbn [Pass.solve_loop];
    [reflexivity|].
  unfold Labels.getWeakLabel.
  destruct (heap !! Labels.m_label u) as [l|] eqn:Hl; [|apply IH].
  rewrite IH. destruct (decide (Labels.m_label u = p)) as [<-|Hne].
  - rewrite lookup_insert_eq, Hl. split; eauto.
  - now rewrite lookup_insert_ne.
Qed.

(** ** The pass as a whole *)

(** The run of merge and prune, with the world it leaves spelled out. *)
Lemma merge_and_prune_run `{Externals} (w : Labels.World) :
  size (Labels.m_labelUnits (Labels.this w)
        ++ Labels.m_pendingLabelUnits (Labels.this w)) < size_t_modulus ->
  exists units' w',
    Labels.merge_and_prune w = Some (w', Pass.boxes (Labels.heap w) units')
    /\ Labels.m_labelUnits (Labels.this w') = units'
    /\ Labels.m_pendingLabelUnits (Labels.this w') = []
    /\ Labels.m_currentZoom (Labels.this w')
       = Labels.getZoom (Labels.m_view (Labels.this w))
    /\ Labels.m_view (Labels.this w') = Labels.m_view (Labels.this w)
    /\ Labels.heap w' = Labels.heap w
    /\ Labels.allocations w' = Labels.allocations w
    /\ Forall (Labels.alive (Labels.heap w)) units'
    /\ units' ≡ₚ filter (Labels.alive (Labels.heap w))
                   (Labels.m_labelUnits (Labels.this w)
                    ++ Labels.m_pendingLabelUnits (Labels.this w)).
Proof.
  intros Hsz. unfold Labels.merge_and_prune, Labels.prune.
  cbn [Labels.merge Labels.m_labelUnits].
  set (units := Labels.m_labelUnits (Labels.this w)
                ++ Labels.m_pendingLabelUnits (Labels.this w)) in *.
  destruct (prune_loop_invariant (Labels.heap w) (S (length units)) units 0 [])
    as (units' & aabbs' & Hrun & Hall & Hperm);
    try assumption; try lia; [constructor|].
  change (Z.of_nat 0) with 0 in Hrun. rewrite Hrun.
  apply (prune_loop_boxes (Labels.heap w) _ units 0%nat) in Hrun as [_ ->];
    [|assumption|lia].
  eexists units', _. split; [reflexivity|]. cbn. auto 10.
Qed.

Lemma boxes_live heap units :
  Forall (Pass.box_live heap) (Pass.boxes heap units).
Proof.
  eapply Forall_impl; [apply boxes_back_pointers|].
  intros a (u & l & _ & Hu & Hl & _). exists (Labels.m_label u). eauto.
Qed.

Lemma boxes_length heap units :
  (length (Pass.boxes heap units) <= length units)%nat.
Proof.
  induction units as [|u units IH]; [reflexivity|].
  unfold Pass.boxes. cbn [flat_map]. rewrite length_app.
  fold (Pass.boxes heap units). cbn [length].
  assert ((length (Pass.box_of heap u) <= 1)%nat).
  { unfold Pass.box_of. destruct (Labels.getWeakLabel heap u) as [[p l]|];
      [destruct (negb _)|]; cbn; lia. }
  lia.
Qed.

(** A pair the narrow test accepts consists of the live, occluding
    labels of two kept units. *)
Lemma accepted_members `{Pass.Intersection} heap units ij pr :
  Pass.accepted heap (Pass.boxes heap units) ij = Some pr ->
  forall p, p = pr.1 \/ p = pr.2 ->
    exists u l, u ∈ units /\ Labels.m_label u = p
                /\ heap !! p = Some l /\ Label.canOcclude l = true.
Proof.
  unfold Pass.accepted.
  destruct (Pass.boxes heap units !! Z.to_nat ij.1) as [a1|] eqn:Ha1;
    [|discriminate].
  destruct (Pass.boxes heap units !! Z.to_nat ij.2) as [a2|] eqn:Ha2;
    [|discriminate].
  pose proof (boxes_back_pointers heap units) as Hb.
  destruct (Forall_lookup_1 _ _ _ _ Hb Ha1) as (u1 & l1 & Hin1 & Hu1 & Hl1 & Hc1 & _).
  destruct (Forall_lookup_1 _ _ _ _ Hb Ha2) as (u2 & l2 & Hin2 & Hu2 & Hl2 & Hc2 & _).
  rewrite Hu1, Hu2, Hl1, Hl2.
  destruct (Pass.narrow_phase _ _); [|discriminate].
  intros [= <-] p [->| ->]; cbn [fst snd]; eauto 10.
Qed.

(** X4.  [updateOcclusions] returns, provided the broad phase reports
    indices of the boxes it was given: no index leaves the boxes and no
    pointer it follows is dangling.  Afterwards the pending queue is
    empty, the zoom is that of the view, the list holds the units whose
    label is alive (up to their order), and the same labels exist as
    before.  Every [setOcclusion] call has the argument [true] and goes
    to the live, occluding label of a unit that is kept. *)
Theorem updateOcclusions_returns `{Externals} `{Pass.Intersection}
    (w : Labels.World) :
  size (Labels.m_labelUnits (Labels.this w)
        ++ Labels.m_pendingLabelUnits (Labels.this w)) < size_t_modulus ->
  Pass.broad_phase_in_bounds ->
  exists w' marks,
    Pass.updateOcclusions w = Some (w', marks)
    /\ Labels.m_pendingLabelUnits (Labels.this w') = []
    /\ Labels.m_currentZoom (Labels.this w')
       = Labels.getZoom (Labels.m_view (Labels.this w))
    /\ Labels.m_labelUnits (Labels.this w')
       ≡ₚ filter (Labels.alive (Labels.heap w))
                 (Labels.m_labelUnits (Labels.this w)
                  ++ Labels.m_pendingLabelUnits (Labels.this w))
    /\ (forall p, is_Some (Labels.heap w' !! p) <-> is_Some (Labels.heap w !! p))
    /\ Forall (fun c : ptr * bool =>
                 c.2 = true
                 /\ exists u l,
                      u ∈ Labels.m_labelUnits (Labels.this w')
                      /\ Labels.m_label u = c.1
                      /\ Labels.heap w !! c.1 = Some l
                      /\ Label.canOcclude l = true)
              marks.
Proof.
  intros Hsz Hbroad. unfold Pass.updateOcclusions.
  destruct (merge_and_prune_run w Hsz)
    as (units' & w1 & -> & Hunits & Hpend & Hzoom & Hview & Hheap & Halloc
        & Halive & Hperm).
  set (aabbs := Pass.boxes (Labels.heap w) units').
  set (pairs := Pass.broad_phase aabbs _ _).
  assert (Hlen : size aabbs < size_t_modulus).
  { pose proof (boxes_length (Labels.heap w) units') as Hle.
    apply Permutation_length in Hperm.
    pose proof (length_filter (Labels.alive (Labels.heap w))
                  (Labels.m_labelUnits (Labels.this w)
                   ++ Labels.m_pendingLabelUnits (Labels.this w))) as Hf.
    unfold size in *. fold aabbs in Hle. lia. }
  rewrite Hheap.
  destruct (narrow_loop_run (Labels.heap w) aabbs pairs Hlen
              (boxes_live _ _) (Hbroad _ _ _) [])
    as (occlusions & -> & Hord & Hmem); [constructor|].
  assert (Hmembers : forall pr, pr ∈ occlusions ->
            forall p, p = pr.1 \/ p = pr.2 ->
              exists u l, u ∈ units' /\ Labels.m_label u = p
                          /\ Labels.heap w !! p = Some l
                          /\ Label.canOcclude l = true).
  { intros pr Hin. apply Hmem in Hin as [Hin|(ij & _ & Hacc)].
    - now apply elem_of_nil in Hin.
    - now apply (accepted_members _ _ _ _ Hacc). }
  destruct (resolve_run occlusions {| cells := Labels.heap w; calls := [] |})
    as (s' & new & -> & Hcalls & Hnew & _ & _ & _ & Hlive).
  { apply Forall_forall. intros pr Hin. unfold live. cbn [cells].
    destruct (Hmembers pr Hin pr.1) as (? & ? & _ & _ & -> & _); [now left|].
    destruct (Hmembers pr Hin pr.2) as (? & ? & _ & _ & -> & _); [now right|].
    eauto. }
  eexists _, _. split; [reflexivity|]. cbn [Labels.this Labels.heap].
  split; [exact Hpend|]. split; [exact Hzoom|].
  split; [now rewrite Hunits|]. split.
  - intros p. rewrite solve_loop_bound. apply (Hlive p).
  - rewrite Hcalls. cbn [calls app]. rewrite Hunits.
    eapply Forall_impl; [exact Hnew|].
    intros c [Hc (pr & Hin & Hp)]. split; [exact Hc|].
    now apply (Hmembers pr Hin).
Qed.

Lemma sample_broad_phase_in_bounds :
  @Pass.broad_phase_in_bounds sample_intersection.
Proof.
  intros aabbs split resolution. cbn [Pass.broad_phase sample_intersection].
  destruct (Z.leb_spec 2 (size aabbs)); repeat constructor; cbn; lia.
Qed.

Lemma updateOcclusions_returns_witness :
  exists w' marks,
    @Pass.updateOcclusions sample_externals sample_intersection sample_world
    = Some (w', marks)
    /\ Labels.m_pendingLabelUnits (Labels.this w') = []
    /\ Labels.m_currentZoom (Labels.this w')
       = Labels.getZoom (Labels.m_view (Labels.this sample_world))
    /\ Labels.m_labelUnits (Labels.this w')
       ≡ₚ filter (Labels.alive (Labels.heap sample_world))
                 (Labels.m_labelUnits (Labels.this sample_world)
                  ++ Labels.m_pendingLabelUnits (Labels.this sample_world))
    /\ (forall p, is_Some (Labels.heap w' !! p)
                  <-> is_Some (Labels.heap sample_world !! p))
    /\ Forall (fun c : ptr * bool =>
                 c.2 = true
                 /\ exists u l,
                      u ∈ Labels.m_labelUnits (Labels.this w')
                      /\ Labels.m_label u = c.1
                      /\ Labels.heap sample_world !! c.1 = Some l
                      /\ Label.canOcclude l = true)
              marks.
Proof.
  apply (@updateOcclusions_returns sample_externals sample_intersection
           sample_world).
  - reflexivity.
  - exact sample_broad_phase_in_bounds.
Defined.

(** The pass on the sample manager: the dangling unit goes, the pending
    unit comes in, and the one pair, stored as (1, 2), leads to no
    mark. *)
Example updateOcclusions_sample :
  (fun r => (Labels.m_labelUnits (Labels.this r.1), r.2))
    <$> @Pass.updateOcclusions sample_externals sample_intersection sample_world
  = Some ([sample_unit 1%positive; sample_unit 2%positive], []).
Proof. reflexivity. Qed.

(** X5.  The narrow-phase loop leaves in the set exactly the pairs of
    labels that the narrow test accepts, each ordered pair once however
    often the broad phase reports it, iterated in increasing order of
    (first pointer, second pointer). *)
Theorem narrow_loop_collects_accepted `{Pass.Intersection}
    (heap : gmap ptr Label.t) (aabbs : list Label.AABB) (pairs : list (Z * Z)) :
  size aabbs < size_t_modulus ->
  Forall (Pass.box_live heap) aabbs ->
  Forall (Pass.in_bounds aabbs) pairs ->
  exists occlusions,
    Pass.narrow_loop heap aabbs pairs [] = Some occlusions
    /\ Pass.set_ordered occlusions
    /\ NoDup occlusions
    /\ (forall pr, pr ∈ occlusions
                   <-> exists ij, ij ∈ pairs
                                  /\ Pass.accepted heap aabbs ij = Some pr).
Proof.
  intros Hsz Hboxes Hpairs.
  destruct (narrow_loop_run heap aabbs pairs Hsz Hboxes Hpairs [])
    as (occlusions & Hrun & Hord & Hmem); [constructor|].
  exists occlusions. split; [exact Hrun|]. split; [exact Hord|].
  split; [now apply set_ordered_NoDup|].
  intros pr. rewrite Hmem. split; [|eauto].
  intros [Hin|?]; [|assumption]. now apply elem_of_nil in Hin.
Qed.

Lemma narrow_loop_collects_accepted_witness :
  exists occlusions,
    @Pass.narrow_loop sample_intersection (cells Labels.two_labels)
      (Pass.boxes (cells Labels.two_labels)
         [sample_unit 2%positive; sample_unit 1%positive])
      [(0, 1); (1, 0); (0, 1)] []
    = Some occlusions
    /\ Pass.set_ordered occlusions
    /\ NoDup occlusions
    /\ (forall pr, pr ∈ occlusions
                   <-> exists ij,
                         ij ∈ [(0, 1); (1, 0); (0, 1)]
                         /\ @Pass.accepted sample_intersection
                              (cells Labels.two_labels)
                              (Pass.boxes (cells Labels.two_labels)
                                 [sample_unit 2%positive; sample_unit 1%positive])
                              ij = Some pr).
Proof.
  apply (@narrow_loop_collects_accepted sample_intersection
           (cells Labels.two_labels)
           (Pass.boxes (cells Labels.two_labels)
              [sample_unit 2%positive; sample_unit 1%positive])
           [(0, 1); (1, 0); (0, 1)]).
  - reflexivity.
  - apply boxes_live.
  - repeat (apply Forall_cons; split;
            [unfold Pass.in_bounds; cbn [fst snd]; repeat split;
             vm_compute; (reflexivity || discriminate)|]).
    constructor.
Defined.

(** Reported twice and in both orders, the two labels end up as the two
    ordered pairs, smaller first pointer first. *)
Example narrow_loop_sample :
  @Pass.narrow_loop sample_intersection (cells Labels.two_labels)
    (Pass.boxes (cells Labels.two_labels)
       [sample_unit 2%positive; sample_unit 1%positive])
    [(0, 1); (1, 0); (0, 1)] []
  = Some [(1%positive, 2%positive); (2%positive, 1%positive)].
Proof. reflexivity. Qed.

(** ** Labels that are admitted *)

Lemma LOD_discards_false `{Externals} (w : Labels.World) (tile : Labels.MapTile) :
  ~ Labels.LOD_rejects w tile ->
  Labels.LOD_discards (Labels.this w) tile = false.
Proof.
  intros Hadmit.
  destruct (Labels.LOD_discards (Labels.this w) tile) eqn:Hd; [|reflexivity].
  apply LOD_discards_spec in Hd. contradiction.
Qed.

(** X6.  When the tile is admitted, a buffer is current and the
    rasterization succeeds, [addTextLabel] returns a pointer that was
    not bound before.  It is bound to the label built with the text id
    taken from the buffer, rasterized and then updated once; all other
    labels are as they were.  The tile has registered the label under
    the style name, a unit for it is at the back of the pending queue,
    the authoritative list is untouched, and the current buffer is the
    one the rasterization left. *)
Theorem addTextLabel_enqueues `{Externals}
    (w : Labels.World) (tile : Labels.MapTile) (style : string)
    (tr : Label.Transform) (text : string) (type : Label.Type_)
    (buf : Buffer) :
  ~ Labels.LOD_rejects w tile ->
  Labels.currentBuffer (Labels.this w) = Some buf ->
  (rasterize (new_TextLabel tr text (genTextID buf).1 type)
             (genTextID buf).2).1.1 = true ->
  let raster := rasterize (new_TextLabel tr text (genTextID buf).1 type)
                          (genTextID buf).2 in
  exists p w' tile',
    Labels.addTextLabel w tile style tr text type = Some (Some p, w', tile')
    /\ Labels.heap w !! p = None
    /\ Labels.heap w' !! p
       = Some (Label_update
                 (mat_mul (Labels.getViewProjectionMatrix
                             (Labels.m_view (Labels.this w)))
                          (Labels.getModelMatrix tile))
                 (Labels.m_screenSize (Labels.this w)) 0%R raster.1.2)
    /\ (forall q, q <> p -> Labels.heap w' !! q = Labels.heap w !! q)
    /\ Labels.tile_labels tile' = Labels.tile_labels tile ++ [(style, p)]
    /\ Labels.m_pendingLabelUnits (Labels.this w')
       = Labels.m_pendingLabelUnits (Labels.this w)
         ++ [ {| Labels.m_label := p; Labels.m_tileID := Labels.getID tile;
                 Labels.m_styleName := style |} ]
    /\ Labels.m_labelUnits (Labels.this w') = Labels.m_labelUnits (Labels.this w)
    /\ Labels.currentBuffer (Labels.this w') = Some raster.2
    /\ Labels.allocations w' = S (Labels.allocations w).
Proof.
  intros Hadmit Hbuf Hok. cbv zeta.
  unfold Labels.addTextLabel.
  rewrite (LOD_discards_false w tile Hadmit), Hbuf.
  destruct (genTextID buf) as [textID buf1] eqn:Hid. cbn [fst snd] in Hok |- *.
  unfold Labels.new_Label.
  cbn [Labels.heap Labels.set_currentBuffer Labels.this Labels.allocations].
  set (p := fresh (dom (Labels.heap w))).
  rewrite lookup_insert_eq.
  destruct (rasterize (new_TextLabel tr text textID type) buf1)
    as [[ok l'] buf2] eqn:Hras.
  cbn [fst snd] in Hok |- *. subst ok. cbn [negb].
  unfold Labels.addLabel.
  cbn [Labels.heap Labels.set_currentBuffer Labels.set_heap Labels.this
       Labels.allocations].
  rewrite lookup_insert_eq.
  eexists p, _, _. split; [reflexivity|].
  cbn [Labels.heap Labels.set_pendingLabelUnits Labels.set_heap Labels.this
       Labels.allocations Labels.m_pendingLabelUnits Labels.m_labelUnits
       Labels.currentBuffer Labels.m_view Labels.m_screenSize
       Labels.MapTile_addLabel Labels.tile_labels].
  split; [apply fresh_unbound|].
  split; [apply lookup_insert_eq|].
  split; [|auto].
  intros q Hq. now rewrite !lookup_insert_ne by congruence.
Qed.

Lemma sample_world_admits :
  ~ @Labels.LOD_rejects sample_externals sample_world sample_tile.
Proof.
  unfold Labels.LOD_rejects.
  cbn [Labels.m_currentZoom Labels.this sample_world sample_labels Labels.z
       Labels.getID sample_tile sample_tileID s_maxZoom sample_externals].
  rewrite LODDiscardFunc_at_0. lra.
Qed.

Lemma addTextLabel_enqueues_witness :
  exists p w' tile',
    @Labels.addTextLabel sample_externals sample_world sample_tile "text"
      {| Label.anchor1 := Vec2 1 2; Label.anchor2 := Vec2 1 2 |}
      "Main Street" Label.point
    = Some (Some p, w', tile')
    /\ Labels.heap sample_world !! p = None
    /\ Labels.tile_labels tile' = [("text"%string, p)]
    /\ Labels.m_pendingLabelUnits (Labels.this w')
       = [sample_unit 2%positive;
          {| Labels.m_label := p; Labels.m_tileID := sample_tileID;
             Labels.m_styleName := "text" |}]
    /\ Labels.currentBuffer (Labels.this w') = Some 1.
Proof.
  destruct (@addTextLabel_enqueues sample_externals sample_world sample_tile
              "text" {| Label.anchor1 := Vec2 1 2; Label.anchor2 := Vec2 1 2 |}
              "Main Street" Label.point 0)
    as (p & w' & tile' & Hrun & Hfresh & _ & _ & Htile & Hpend & _ & Hbuf & _).
  - exact sample_world_admits.
  - reflexivity.
  - reflexivity.
  - exists p, w', tile'. auto.
Defined.

(** The result of [addSpriteLabel] on a tile that is admitted. *)
Lemma addSpriteLabel_run `{Externals} (w : Labels.World) (tile : Labels.MapTile)
    (style : string) (tr : Label.Transform) (sz : vec2) :
  ~ Labels.LOD_rejects w tile ->
  let p := fresh (dom (Labels.heap w)) in
  let l := Label_update
             (mat_mul (Labels.getViewProjectionMatrix (Labels.m_view (Labels.this w)))
                      (Labels.getModelMatrix tile))
             (Labels.m_screenSize (Labels.this w)) 0%R (new_SpriteLabel tr sz) in
  exists w' tile',
    Labels.addSpriteLabel w tile style tr sz = Some (Some p, w', tile')
    /\ Labels.heap w' = <[p := l]> (Labels.heap w)
    /\ Labels.m_pendingLabelUnits (Labels.this w')
       = Labels.m_pendingLabelUnits (Labels.this w)
         ++ [ {| Labels.m_label := p; Labels.m_tileID := Labels.getID tile;
                 Labels.m_styleName := style |} ]
    /\ Labels.m_labelUnits (Labels.this w') = Labels.m_labelUnits (Labels.this w).
Proof.
  intros Hadmit. cbv zeta. unfold Labels.addSpriteLabel.
  rewrite (LOD_discards_false w tile Hadmit).
  unfold Labels.new_Label, Labels.addLabel.
  cbn [Labels.heap Labels.this Labels.allocations].
  rewrite lookup_insert_eq.
  eexists _, _. split; [reflexivity|].
  cbn [Labels.heap Labels.set_pendingLabelUnits Labels.set_heap Labels.this
       Labels.m_pendingLabelUnits Labels.m_labelUnits Labels.m_view
       Labels.m_screenSize].
  split; [apply insert_insert_eq|]. auto.
Qed.

(** X7.  A sprite label that was admitted reaches the authoritative list
    with the next merge-and-prune: its unit is in the list, its label is
    alive, the pending queue is empty, and every unit that was alive
    before is still in the list. *)
Theorem sprite_label_reaches_the_list `{Externals}
    (w : Labels.World) (tile : Labels.MapTile) (style : string)
    (tr : Label.Transform) (sz : vec2) :
  ~ Labels.LOD_rejects w tile ->
  size (Labels.m_labelUnits (Labels.this w)
        ++ Labels.m_pendingLabelUnits (Labels.this w)) + 1 < size_t_modulus ->
  exists p w1 tile1 w2 aabbs,
    Labels.addSpriteLabel w tile style tr sz = Some (Some p, w1, tile1)
    /\ Labels.merge_and_prune w1 = Some (w2, aabbs)
    /\ {| Labels.m_label := p; Labels.m_tileID := Labels.getID tile;
          Labels.m_styleName := style |} ∈ Labels.m_labelUnits (Labels.this w2)
    /\ is_Some (Labels.heap w2 !! p)
    /\ Labels.m_pendingLabelUnits (Labels.this w2) = []
    /\ (forall u, u ∈ Labels.m_labelUnits (Labels.this w)
                      ++ Labels.m_pendingLabelUnits (Labels.this w) ->
                  Labels.alive (Labels.heap w) u ->
                  u ∈ Labels.m_labelUnits (Labels.this w2)).
Proof.
  intros Hadmit Hsz.
  destruct (addSpriteLabel_run w tile style tr sz Hadmit)
    as (w1 & tile1 & Hadd & Hheap & Hpend & Hunits).
  set (p := fresh (dom (Labels.heap w))) in *.
  destruct (merge_and_prune_run w1)
    as (units' & w2 & Hrun & Hu2 & Hp2 & _ & _ & Hh2 & _ & _ & Hperm).
  { rewrite Hpend, Hunits, app_assoc. unfold size in *.
    rewrite length_app. cbn [length]. lia. }
  exists p, w1, tile1, w2, (Pass.boxes (Labels.heap w1) units').
  split; [exact Hadd|]. split; [exact Hrun|].
  rewrite Hu2, Hh2, Hheap. rewrite Hpend, Hunits, Hheap in Hperm.
  split; [|split; [|split; [exact Hp2|]]].
  - rewrite Hperm. apply list_elem_of_filter. split.
    + unfold Labels.alive. cbn [Labels.m_label]. rewrite lookup_insert_eq. eauto.
    + rewrite app_assoc. apply elem_of_app. right. left.
  - rewrite lookup_insert_eq. eauto.
  - intros u Hin [l Hl]. rewrite Hperm. apply list_elem_of_filter. split.
    + unfold Labels.alive.
      destruct (decide (p = Labels.m_label u)) as [Heq|Hne].
      * rewrite <- Heq, lookup_insert_eq. eauto.
      * rewrite lookup_insert_ne by assumption. eauto.
    + rewrite app_assoc. apply elem_of_app. now left.
Qed.

Lemma sprite_label_reaches_the_list_witness :
  exists p w1 tile1 w2 aabbs,
    @Labels.addSpriteLabel sample_externals sample_world sample_tile "icons"
      {| Label.anchor1 := Vec2 3 4; Label.anchor2 := Vec2 3 4 |} (Vec2 8 8)
    = Some (Some p, w1, tile1)
    /\ Labels.merge_and_prune w1 = Some (w2, aabbs)
    /\ {| Labels.m_label := p; Labels.m_tileID := Labels.getID sample_tile;
          Labels.m_styleName := "icons" |} ∈ Labels.m_labelUnits (Labels.this w2)
    /\ is_Some (Labels.heap w2 !! p)
    /\ Labels.m_pendingLabelUnits (Labels.this w2) = []
    /\ (forall u, u ∈ Labels.m_labelUnits (Labels.this sample_world)
                      ++ Labels.m_pendingLabelUnits (Labels.this sample_world) ->
                  Labels.alive (Labels.heap sample_world) u ->
                  u ∈ Labels.m_labelUnits (Labels.this w2)).
Proof.
  apply (@sprite_label_reaches_the_list sample_externals sample_world
           sample_tile "icons"
           {| Label.anchor1 := Vec2 3 4; Label.anchor2 := Vec2 3 4 |} (Vec2 8 8)).
  - exact sample_world_admits.
  - reflexivity.
Defined.

(** ** Tiles at the current zoom *)

Lemma int_of_float_nonneg (x : R) : (0 <= x)%R -> 0 <= int_of_float x.
Proof.
  intros Hx. rewrite <- (int_of_float_IZR 0). now apply int_of_float_monotone.
Qed.

Lemma LODDiscardFunc_nonneg `{Externals} (maxZoom zoom : R) :
  (0 <= maxZoom)%R -> (zoom <= maxZoom + 1)%R -> 0 <= MAX_LOD ->
  0 <= Labels.LODDiscardFunc maxZoom zoom.
Proof.
  intros Hm Hz HM. rewrite LODDiscardFunc_defined by lra.
  assert (HL : (0 < ln (maxZoom + 2))%R).
  { rewrite <- ln_1. apply ln_increasing; lra. }
  assert (Hln : (0 <= ln (- zoom + (maxZoom + 2)))%R).
  { rewrite <- ln_1. apply ln_monotone; lra. }
  assert (Hv : (0 <= ln (- zoom + (maxZoom + 2)) / ln (maxZoom + 2)
                     * maxZoom * 0.5)%R).
  { apply Rmult_le_pos; [|lra]. apply Rmult_le_pos; [|assumption].
    apply Rmult_le_pos; [assumption|]. left. now apply Rinv_0_lt_compat. }
  assert (Hf : (0 <= floor (ln (- zoom + (maxZoom + 2)) / ln (maxZoom + 2)
                            * maxZoom * 0.5))%R).
  { unfold floor. apply IZR_le. now apply Int_part_nonneg. }
  pose proof MAX_LOD_int as [_ Hhi]. apply IZR_le in Hhi.
  rewrite <- (to_int_IZR 0) at 1 by (unfold INT_MIN, INT_MAX; lia).
  apply to_int_monotone.
  - apply Rmin_glb; [assumption | now apply IZR_le].
  - etransitivity; [apply Rmin_r | exact Hhi].
Qed.

(** X8.  While the zoom of the manager is at most [s_maxZoom + 1], the
    discard threshold is not negative, so a tile whose zoom level is not
    below the zoom of the manager is never discarded: [addSpriteLabel]
    returns a label for it. *)
Theorem same_level_tiles_are_admitted `{Externals}
    (w : Labels.World) (tile : Labels.MapTile) (style : string)
    (tr : Label.Transform) (sz : vec2) :
  (0 <= s_maxZoom)%R -> 0 <= MAX_LOD ->
  (Labels.m_currentZoom (Labels.this w) <= s_maxZoom + 1)%R ->
  (Labels.m_currentZoom (Labels.this w) <= IZR (Labels.z (Labels.getID tile)))%R ->
  0 <= Labels.LODDiscardFunc s_maxZoom (Labels.m_currentZoom (Labels.this w))
  /\ Labels.LOD_discards (Labels.this w) tile = false
  /\ exists p w' tile',
       Labels.addSpriteLabel w tile style tr sz = Some (Some p, w', tile').
Proof.
  intros Hm HM Hzoom Htile.
  pose proof (LODDiscardFunc_nonneg s_maxZoom
                (Labels.m_currentZoom (Labels.this w)) Hm Hzoom HM) as Hnn.
  assert (Hadmit : ~ Labels.LOD_rejects w tile).
  { unfold Labels.LOD_rejects. apply IZR_le in Hnn. lra. }
  split; [exact Hnn|]. split; [now apply LOD_discards_false|].
  destruct (addSpriteLabel_run w tile style tr sz Hadmit) as (w' & tile' & Hrun & _).
  eauto.
Qed.

Lemma same_level_tiles_are_admitted_witness :
  0 <= @Labels.LODDiscardFunc sample_externals 18 0
  /\ @Labels.LOD_discards sample_externals (Labels.this sample_world) sample_tile
     = false
  /\ exists p w' tile',
       @Labels.addSpriteLabel sample_externals sample_world sample_tile "icons"
         {| Label.anchor1 := Vec2 3 4; Label.anchor2 := Vec2 3 4 |} (Vec2 8 8)
       = Some (Some p, w', tile').
Proof.
  apply (@same_level_tiles_are_admitted sample_externals sample_world
           sample_tile "icons"
           {| Label.anchor1 := Vec2 3 4; Label.anchor2 := Vec2 3 4 |} (Vec2 8 8)).
  - cbn. lra.
  - cbn. lia.
  - cbn. lra.
  - cbn. lra.
Defined.

(** ** Zooms past [s_maxZoom + 1] *)

Lemma LODDiscardFunc_negative `{Externals} (maxZoom zoom : R) :
  (0 < maxZoom)%R -> (maxZoom + 1 < zoom)%R -> (zoom < maxZoom + 2)%R ->
  Labels.LODDiscardFunc maxZoom zoom <= -1.
Proof.
  intros Hm Hlo Hhi. rewrite LODDiscardFunc_defined by lra.
  assert (HL : (0 < ln (maxZoom + 2))%R).
  { rewrite <- ln_1. apply ln_increasing; lra. }
  assert (Hln : (ln (- zoom + (maxZoom + 2)) < 0)%R).
  { rewrite <- ln_1. apply ln_increasing; lra. }
  assert (Hv : (ln (- zoom + (maxZoom + 2)) / ln (maxZoom + 2)
                * maxZoom * 0.5 < 0)%R).
  { assert (Hq : (ln (- zoom + (maxZoom + 2)) / ln (maxZoom + 2) < 0)%R).
    { unfold Rdiv. rewrite <- (Rmult_0_l (/ ln (maxZoom + 2))).
      apply Rmult_lt_compat_r; [now apply Rinv_0_lt_compat | assumption]. }
    assert (Hqm : (ln (- zoom + (maxZoom + 2)) / ln (maxZoom + 2) * maxZoom < 0)%R).
    { rewrite <- (Rmult_0_l maxZoom). now apply Rmult_lt_compat_r. }
    rewrite <- (Rmult_0_l 0.5). apply Rmult_lt_compat_r; [lra | assumption]. }
  pose proof (Int_part_negative _ Hv) as Hfl.
  rewrite <- (to_int_IZR (-1)) by (unfold INT_MIN, INT_MAX; lia).
  apply to_int_monotone.
  - etransitivity; [apply Rmin_l|]. unfold floor. now apply IZR_le.
  - apply IZR_le. unfold INT_MAX. lia.
Qed.

(** X9.  When the zoom of the manager lies strictly between
    [s_maxZoom + 1] and [s_maxZoom + 2], the logarithm is negative and
    so is the threshold: every tile whose zoom level is below the zoom of
    the manager plus one is discarded, the tiles of the current level
    included, and both construction calls return null for it. *)
Theorem overzoom_discards_current_level `{Externals}
    (w : Labels.World) (tile : Labels.MapTile) (style : string)
    (tr : Label.Transform) (text : string) (type : Label.Type_) (sz : vec2) :
  (0 < s_maxZoom)%R ->
  (s_maxZoom + 1 < Labels.m_currentZoom (Labels.this w))%R ->
  (Labels.m_currentZoom (Labels.this w) < s_maxZoom + 2)%R ->
  (IZR (Labels.z (Labels.getID tile)) < Labels.m_currentZoom (Labels.this w) + 1)%R ->
  Labels.LODDiscardFunc s_maxZoom (Labels.m_currentZoom (Labels.this w)) <= -1
  /\ Labels.addTextLabel w tile style tr text type = Some (None, w, tile)
  /\ Labels.addSpriteLabel w tile style tr sz = Some (None, w, tile).
Proof.
  intros Hm Hlo Hhi Htile.
  pose proof (LODDiscardFunc_negative s_maxZoom
                (Labels.m_currentZoom (Labels.this w)) Hm Hlo Hhi) as Hneg.
  assert (Hd : Labels.LOD_discards (Labels.this w) tile = true).
  { apply LOD_discards_spec. apply IZR_le in Hneg. lra. }
  split; [exact Hneg|]. split.
  - now apply addTextLabel_discarded.
  - now apply addSpriteLabel_discarded.
Qed.

Lemma overzoom_discards_current_level_witness :
  @Labels.LODDiscardFunc sample_externals 18 19.5 <= -1
  /\ Labels.addTextLabel overzoomed_world sample_tile "text"
       {| Label.anchor1 := Vec2 0 0; Label.anchor2 := Vec2 0 0 |}
       "Main Street" Label.point
     = Some (None, overzoomed_world, sample_tile)
  /\ Labels.addSpriteLabel overzoomed_world sample_tile "text"
       {| Label.anchor1 := Vec2 0 0; Label.anchor2 := Vec2 0 0 |} (Vec2 8 8)
     = Some (None, overzoomed_world, sample_tile).
Proof.
  apply (@overzoom_discards_current_level sample_externals overzoomed_world
           sample_tile "text"
           {| Label.anchor1 := Vec2 0 0; Label.anchor2 := Vec2 0 0 |}
           "Main Street" Label.point (Vec2 8 8)).
  - cbn. lra.
  - cbn. lra.
  - cbn. lra.
  - cbn. lra.
Defined.

(** * Further properties of the text style *)

(** ** How many line labels, and where *)

Lemma label_at_shape (line : list vec3) text params i :
  Forall (fun l =>
            TextStyle.text l = text
            /\ TextStyle.type l = Label.line
            /\ TextStyle.params l = params
            /\ TextStyle.options l = TextStyle.optionsFromTextParams params
            /\ exists j, TextStyle.segment line j = Some (TextStyle.transform l)
                         /\ (TextStyle.minLength
                             <= TextStyle.segment_length (TextStyle.transform l))%R)
         (TextStyle.label_at line text params i).
Proof.
  unfold TextStyle.label_at.
  destruct (TextStyle.segment line i) as [tr|] eqn:Hseg; [|constructor].
  destruct (Rltb _ _) eqn:Hlt; [constructor|].
  apply Rltb_false in Hlt.
  constructor; [|constructor]. cbn. eauto 10.
Qed.

Lemma labels_at_shape (line : list vec3) text params indices :
  Forall (fun l =>
            TextStyle.text l = text
            /\ TextStyle.type l = Label.line
            /\ TextStyle.params l = params
            /\ TextStyle.options l = TextStyle.optionsFromTextParams params
            /\ exists j, TextStyle.segment line j = Some (TextStyle.transform l)
                         /\ (TextStyle.minLength
                             <= TextStyle.segment_length (TextStyle.transform l))%R)
         (TextStyle.labels_at line text params indices).
Proof.
  unfold TextStyle.labels_at.
  induction indices as [|i indices IH]; cbn [flat_map]; [constructor|].
  apply Forall_app. split; [apply label_at_shape | exact IH].
Qed.

Lemma labels_at_length (line : list vec3) text params indices :
  (length (TextStyle.labels_at line text params indices) <= length indices)%nat.
Proof.
  unfold TextStyle.labels_at.
  induction indices as [|i indices IH]; cbn [flat_map length]; [lia|].
  rewrite length_app. pose proof (label_at_length line text params i). lia.
Qed.

Lemma sampled_length (n : nat) :
  (length (TextStyle.sampled n) <= 2)%nat
  /\ (n = 1%nat -> TextStyle.sampled n = [])
  /\ (n = 2%nat -> TextStyle.sampled n = [0%nat]).
Proof.
  rewrite sampled_closed_form.
  destruct n as [|[|[|m]]]; cbn; repeat split; intros; try lia; congruence.
Qed.

(** X10.  Whatever the number of points, [buildLine] adds at most two
    labels to a line (none to a single point, at most one to a line of
    two points).  Each of them is a line label with the parameters and
    options of the rule, lying on a segment between two consecutive
    points of the line that is not shorter than 0.15. *)
Theorem buildLine_at_most_two_labels `{Externals} (style : TextStyle.t)
    (line : list vec3) (rule : TextStyle.DrawRule)
    (props : gmap string string) (buffer : list TextStyle.LabelRequest) :
  1 <= size line <= INT_MAX ->
  exists added,
    TextStyle.buildLine style line rule props buffer
    = TextStyle.Done (buffer ++ added)
    /\ (length added <= 2)%nat
    /\ (size line = 1 -> added = [])
    /\ (size line = 2 -> (length added <= 1)%nat)
    /\ Forall (fun l =>
                 TextStyle.type l = Label.line
                 /\ TextStyle.params l = TextStyle.parseRule style rule
                 /\ TextStyle.options l
                    = TextStyle.optionsFromTextParams
                        (TextStyle.parseRule style rule)
                 /\ exists j,
                      TextStyle.segment line j = Some (TextStyle.transform l)
                      /\ (TextStyle.minLength
                          <= TextStyle.segment_length (TextStyle.transform l))%R)
              added.
Proof.
  intros Hn.
  assert (Hnone : exists added : list TextStyle.LabelRequest,
            TextStyle.Done buffer = TextStyle.Done (buffer ++ added)
            /\ (length added <= 2)%nat
            /\ (size line = 1 -> added = [])
            /\ (size line = 2 -> (length added <= 1)%nat)
            /\ Forall (fun l =>
                 TextStyle.type l = Label.line
                 /\ TextStyle.params l = TextStyle.parseRule style rule
                 /\ TextStyle.options l
                    = TextStyle.optionsFromTextParams
                        (TextStyle.parseRule style rule)
                 /\ exists j,
                      TextStyle.segment line j = Some (TextStyle.transform l)
                      /\ (TextStyle.minLength
                          <= TextStyle.segment_length (TextStyle.transform l))%R)
              added).
  { exists []. rewrite app_nil_r. cbn. repeat split; auto; lia. }
  unfold TextStyle.buildLine.
  destruct (negb (TextParams.visible (TextStyle.parseRule style rule)));
    [exact Hnone|].
  destruct (String.length _ =? 0)%nat; [exact Hnone|].
  rewrite buildLine_loop_sampled by assumption.
  eexists. split; [reflexivity|].
  pose proof (labels_at_length line
                (TextStyle.applyTextSource (TextStyle.parseRule style rule) props)
                (TextStyle.parseRule style rule)
                (TextStyle.sampled (length line))) as Hlen.
  destruct (sampled_length (length line)) as (H2 & H1 & H2').
  split; [lia|]. split; [|split].
  - intros Hsz. rewrite H1; [reflexivity|]. unfold size in Hsz. lia.
  - intros Hsz. assert (Heq : length line = 2%nat) by (unfold size in Hsz; lia).
    rewrite (H2' Heq) in Hlen |- *. exact Hlen.
  - eapply Forall_impl; [apply labels_at_shape|].
    intros l (_ & Ht & Hp & Ho & Hs). auto.
Qed.

Lemma buildLine_at_most_two_labels_witness :
  exists added,
    @TextStyle.buildLine sample_externals sample_style nine_points plain_rule
       street_props []
    = TextStyle.Done ([] ++ added)
    /\ (length added <= 2)%nat.
Proof.
  destruct (@buildLine_at_most_two_labels sample_externals sample_style
              nine_points plain_rule street_props [])
    as (added & Hrun & Hlen & _).
  - unfold size, INT_MAX. simpl. lia.
  - exists added. auto.
Defined.

(** ** A stride of zero *)

(** X11.  A line whose point count, stored in an [int], gives the
    stride zero never gets through the loop of [buildLine]: on two
    points or more the loop condition holds at index 0, both reads are
    in bounds and the increment leaves the index at 0, whatever the fuel
    given.  This is the case of a count of 2^32 + 1. *)
Theorem buildLine_stalls_on_zero_stride `{Externals} (style : TextStyle.t)
    (line : list vec3) (rule : TextStyle.DrawRule)
    (props : gmap string string) (buffer : list TextStyle.LabelRequest) :
  2 <= size line < size_t_modulus ->
  TextStyle.skipOffset line = 0 ->
  (forall fuel text params buf,
     TextStyle.buildLine_loop fuel line text params 0 buf = TextStyle.OutOfFuel)
  /\ (TextParams.visible (TextStyle.parseRule style rule) = true ->
      TextStyle.applyTextSource (TextStyle.parseRule style rule) props <> ""%string ->
      TextStyle.buildLine style line rule props buffer = TextStyle.OutOfFuel).
Proof.
  intros Hn Hskip. split.
  - intros fuel text params buf. now apply buildLine_loop_stalls.
  - intros Hvis Htext. rewrite buildLine_visible_text by assumption.
    now apply buildLine_loop_stalls.
Qed.

Lemma buildLine_stalls_on_zero_stride_witness :
  (forall fuel text params buf,
     TextStyle.buildLine_loop fuel wrapped_line text params 0 buf
     = TextStyle.OutOfFuel)
  /\ (TextParams.visible
        (@TextStyle.parseRule sample_externals sample_style plain_rule) = true ->
      TextStyle.applyTextSource
        (@TextStyle.parseRule sample_externals sample_style plain_rule)
        street_props <> ""%string ->
      @TextStyle.buildLine sample_externals sample_style wrapped_line plain_rule
         street_props [] = TextStyle.OutOfFuel).
Proof.
  apply (@buildLine_stalls_on_zero_stride sample_externals sample_style
           wrapped_line plain_rule street_props []).
  - rewrite wrapped_line_size. split; [vm_compute; discriminate | reflexivity].
  - unfold TextStyle.skipOffset, TextStyle.lineLength.
    rewrite wrapped_line_size. reflexivity.
Defined.

(** ** Rings *)

(** X12.  [buildPolygon] sees a polygon only through the sequence of
    its vertices: how they are split into rings makes no difference, so
    the vertices of a hole weigh as much as those of the outer ring, and
    empty rings do not count. *)
Theorem buildPolygon_ignores_ring_structure `{Externals} (style : TextStyle.t)
    (polygon1 polygon2 : list (list vec3)) (rule : TextStyle.DrawRule)
    (props : gmap string string) (buffer : list TextStyle.LabelRequest) :
  concat polygon1 = concat polygon2 ->
  TextStyle.buildPolygon style polygon1 rule props buffer
  = TextStyle.buildPolygon style polygon2 rule props buffer.
Proof.
  intros Hflat. unfold TextStyle.buildPolygon, TextStyle.accumulate.
  now rewrite !accumulate_flat, Hflat.
Qed.

Lemma buildPolygon_ignores_ring_structure_witness :
  @TextStyle.buildPolygon sample_externals sample_style
     [[Vec3 0 0 0; Vec3 4 0 0]; []; [Vec3 4 4 0; Vec3 0 4 0]]
     plain_rule street_props []
  = @TextStyle.buildPolygon sample_externals sample_style
      [[Vec3 0 0 0; Vec3 4 0 0; Vec3 4 4 0; Vec3 0 4 0]]
      plain_rule street_props [].
Proof.
  apply (@buildPolygon_ignores_ring_structure sample_externals sample_style
           [[Vec3 0 0 0; Vec3 4 0 0]; []; [Vec3 4 4 0; Vec3 0 4 0]]
           [[Vec3 0 0 0; Vec3 4 0 0; Vec3 4 4 0; Vec3 0 4 0]]
           plain_rule street_props []).
  reflexivity.
Defined.

(** ** Rule parsing *)

Lemma string_append_assoc (a b c : string) :
  ((a ++ b) ++ c)%string = (a ++ (b ++ c))%string.
Proof.
  induction a as [|ch a IH]; [reflexivity|].
  change (String ch ((a ++ b) ++ c)%string = String ch (a ++ (b ++ c))%string).
  now f_equal.
Qed.

(** What [parseRule] does with keys that a rule does not carry.
    A missing font size leaves the default size, which is still
    multiplied by the pixel scale and still feeds the blur spread.  The
    stroke colour is the one under [font_stroke_color] only when the
    rule also has [font_stroke]; without [font_stroke] the default stays
    whatever [font_stroke_color] holds.  Without family, weight and
    style the font key is the two separators alone.  A missing fill,
    visibility flag or text source leaves the default. *)
Theorem parseRule_missing_keys `{Externals} (style : TextStyle.t)
    (rule : TextStyle.DrawRule) :
  let p := TextStyle.parseRule style rule in
  let d := default_Parameters in
  (TextStyle.get_float rule StyleParamKey.font_size = None ->
   TextParams.fontSize p = (TextParams.fontSize d * TextStyle.m_pixelScale style)%R
   /\ TextParams.blurSpread p
      = if TextStyle.m_sdf style then (TextParams.fontSize d / 16 * 5)%R else 0%R)
  /\ (TextStyle.get_color rule StyleParamKey.font_stroke = None ->
      TextParams.strokeColor p = TextParams.strokeColor d)
  /\ (forall c,
        TextStyle.get_color rule StyleParamKey.font_stroke = Some c ->
        TextParams.strokeColor p
        = match TextStyle.get_color rule StyleParamKey.font_stroke_color with
          | Some c' => c'
          | None => c
          end)
  /\ (TextStyle.get_string rule StyleParamKey.font_family = None ->
      TextStyle.get_string rule StyleParamKey.font_weight = None ->
      TextStyle.get_string rule StyleParamKey.font_style = None ->
      TextParams.fontKey p = "__"%string)
  /\ (TextStyle.get_string rule StyleParamKey.transform = None ->
      TextParams.transform p = TextParams.transform d)
  /\ (TextStyle.get_color rule StyleParamKey.font_fill = None ->
      TextParams.fill p = TextParams.fill d)
  /\ (TextStyle.get_bool rule StyleParamKey.visible = None ->
      TextParams.visible p = TextParams.visible d)
  /\ (TextStyle.get_string rule StyleParamKey.text_source = None ->
      TextParams.textSource p = TextParams.textSource d).
Proof.
  cbv zeta. unfold TextStyle.parseRule, TextStyle.get.
  cbn [TextParams.fontSize TextParams.blurSpread TextParams.strokeColor
       TextParams.fontKey TextParams.transform TextParams.fill
       TextParams.visible TextParams.textSource].
  repeat match goal with |- _ /\ _ => split end.
  - intros ->. split; reflexivity.
  - intros ->. reflexivity.
  - intros c ->. now destruct (TextStyle.get_color rule StyleParamKey.font_stroke_color).
  - intros -> -> ->. reflexivity.
  - intros ->. reflexivity.
  - intros ->. reflexivity.
  - intros ->. reflexivity.
  - intros ->. reflexivity.
Qed.

(** X13.  The pixel scale enters the parameters only through the font
    size: the size is the size of the rule times the scale, and the blur
    spread is taken from the size before scaling, so two styles that
    differ in their pixel scale alone give the same blur spread. *)
Theorem parseRule_pixel_scale `{Externals} (rule : TextStyle.DrawRule) :
  exists size_of_rule : R,
    forall style,
      TextParams.fontSize (TextStyle.parseRule style rule)
      = (size_of_rule * TextStyle.m_pixelScale style)%R
      /\ TextParams.blurSpread (TextStyle.parseRule style rule)
         = (if TextStyle.m_sdf style then (size_of_rule / 16 * 5)%R else 0%R)
      /\ forall style',
           TextStyle.m_sdf style' = TextStyle.m_sdf style ->
           TextParams.blurSpread (TextStyle.parseRule style' rule)
           = TextParams.blurSpread (TextStyle.parseRule style rule)
           /\ TextParams.fontKey (TextStyle.parseRule style' rule)
              = TextParams.fontKey (TextStyle.parseRule style rule)
           /\ TextStyle.optionsFromTextParams (TextStyle.parseRule style' rule)
              = TextStyle.optionsFromTextParams (TextStyle.parseRule style rule).
Proof.
  exists (TextStyle.get (TextStyle.get_float rule StyleParamKey.font_size)
            (TextParams.fontSize default_Parameters)).2.
  intros style. split; [reflexivity|]. split; [reflexivity|].
  intros style' Hsdf. unfold TextStyle.parseRule. cbn. now rewrite Hsdf.
Qed.

(** X14.  The font key does not tell family, weight and style apart
    when they contain the separator: moving a piece that follows a
    separator from the end of the family to the front of the weight
    gives the same key. *)
Theorem fontKey_collision `{Externals} (style : TextStyle.t)
    (rule1 rule2 : TextStyle.DrawRule) (a b c : string) :
  TextStyle.get_string rule1 StyleParamKey.font_family = Some (a ++ "_" ++ b)%string ->
  TextStyle.get_string rule1 StyleParamKey.font_weight = Some c ->
  TextStyle.get_string rule2 StyleParamKey.font_family = Some a ->
  TextStyle.get_string rule2 StyleParamKey.font_weight = Some (b ++ "_" ++ c)%string ->
  TextStyle.get_string rule1 StyleParamKey.font_style
  = TextStyle.get_string rule2 StyleParamKey.font_style ->
  TextParams.fontKey (TextStyle.parseRule style rule1)
  = TextParams.fontKey (TextStyle.parseRule style rule2).
Proof.
  intros Hf1 Hw1 Hf2 Hw2 Hs. unfold TextStyle.parseRule.
  cbn [TextParams.fontKey]. rewrite Hf1, Hw1, Hf2, Hw2, Hs.
  cbn [TextStyle.get snd]. now rewrite !string_append_assoc.
Qed.

(** * The debug overlay *)

Lemma to_short_small z : - 2 ^ 15 <= z < 2 ^ 15 -> Debug.to_short z = z.
Proof. intros Hz. unfold Debug.to_short. rewrite Z.mod_small by lia. lia. Qed.

Lemma ceiling_bounds (x : R) :
  (x <= IZR (Debug.ceiling x))%R /\ (IZR (Debug.ceiling x) < x + 1)%R.
Proof.
  unfold Debug.ceiling. rewrite opp_IZR.
  destruct (base_Int_part (- x)) as [H1 H2]. lra.
Qed.

Lemma short_of_ceilf (x : R) :
  - 2 ^ 15 <= Debug.ceiling x < 2 ^ 15 ->
  Debug.to_short (int_of_float (Debug.ceilf x)) = Debug.ceiling x.
Proof.
  intros Hr. unfold Debug.ceilf. fold (Debug.ceiling x).
  rewrite int_of_float_IZR. now apply to_short_small.
Qed.

(** One cell, with the [short] arithmetic in range. *)
Lemma grid_cell_spec res xpad ypad x y out :
  - 2 ^ 15 <= x + xpad < 2 ^ 15 -> - 2 ^ 15 <= y + ypad < 2 ^ 15 ->
  Debug.grid_cell res xpad ypad (x, y, out)
  = if Rltb (IZR (x + xpad)) (vx res)
    then (x + xpad, y, out ++ [Debug.DrawRect x y (x + xpad) (y + ypad)])
    else (0, y + ypad, out ++ [Debug.DrawRect x y (x + xpad) (y + ypad)]).
Proof.
  intros Hx Hy. unfold Debug.grid_cell.
  rewrite !to_short_small by assumption.
  now destruct (Rltb _ _).
Qed.

(** One row on a viewport that three cells do not span and four do. *)
Lemma grid_row_spec res xpad ypad y out :
  0 <= xpad -> 4 * xpad < 2 ^ 15 ->
  (IZR (3 * xpad) < vx res)%R -> (vx res <= IZR (4 * xpad))%R ->
  - 2 ^ 15 <= y + ypad < 2 ^ 15 ->
  Nat.iter 4 (Debug.grid_cell res xpad ypad) (0, y, out)
  = (0, y + ypad,
     out ++ [Debug.DrawRect 0 y xpad (y + ypad);
             Debug.DrawRect xpad y (2 * xpad) (y + ypad);
             Debug.DrawRect (2 * xpad) y (3 * xpad) (y + ypad);
             Debug.DrawRect (3 * xpad) y (4 * xpad) (y + ypad)]).
Proof.
  intros Hx0 Hx4 H3 H4 Hy.
  assert (L1 : Rltb (IZR (0 + xpad)) (vx res) = true).
  { apply Rltb_true. eapply Rle_lt_trans; [|exact H3]. apply IZR_le. lia. }
  assert (L2 : Rltb (IZR (0 + xpad + xpad)) (vx res) = true).
  { apply Rltb_true. eapply Rle_lt_trans; [|exact H3]. apply IZR_le. lia. }
  assert (L3 : Rltb (IZR (0 + xpad + xpad + xpad)) (vx res) = true).
  { apply Rltb_true. eapply Rle_lt_trans; [|exact H3]. apply IZR_le. lia. }
  assert (L4 : Rltb (IZR (0 + xpad + xpad + xpad + xpad)) (vx res) = false).
  { apply Rltb_false. eapply Rle_trans; [exact H4|]. apply IZR_le. lia. }
  cbn [Nat.iter nat_rect].
  rewrite (grid_cell_spec res xpad ypad 0 y) by lia. rewrite L1.
  rewrite (grid_cell_spec res xpad ypad (0 + xpad) y) by lia. rewrite L2.
  rewrite (grid_cell_spec res xpad ypad (0 + xpad + xpad) y) by lia. rewrite L3.
  rewrite (grid_cell_spec res xpad ypad (0 + xpad + xpad + xpad) y) by lia.
  rewrite L4. rewrite <- !app_assoc. cbn [app].
  repeat f_equal; lia.
Qed.

Lemma outlines_boxes heap units :
  Debug.outlines heap units
  = flat_map (fun a => match Label.m_userData a with
                       | Some p => [Debug.DrawPoly p]
                       | None => []
                       end)
             (Pass.boxes heap units).
Proof.
  unfold Debug.outlines, Pass.boxes.
  induction units as [|u units IH]; [reflexivity|].
  cbn [flat_map]. rewrite flat_map_app, <- IH. f_equal.
  unfold Pass.box_of. destruct (Labels.getWeakLabel heap u) as [[p l]|];
    [|reflexivity].
  destruct (Label.canOcclude l); reflexivity.
Qed.

Lemma grid_regular (res : vec2) :
  (12 <= vx res <= 32764)%R -> (0 <= vy res <= 32764)%R ->
  Debug.grid res
  = Debug.regular_grid (Debug.ceiling (vx res / 4)) (Debug.ceiling (vy res / 4))
  /\ (vx res <= IZR (4 * Debug.ceiling (vx res / 4)))%R
  /\ (vy res <= IZR (4 * Debug.ceiling (vy res / 4)))%R.
Proof.
  intros HW HH.
  destruct (ceiling_bounds (vx res / 4)) as [Hx1 Hx2].
  destruct (ceiling_bounds (vy res / 4)) as [Hy1 Hy2].
  set (xpad := Debug.ceiling (vx res / 4)) in *.
  set (ypad := Debug.ceiling (vy res / 4)) in *.
  assert (Hxlo : 3 <= xpad) by (apply le_IZR; lra).
  assert (Hxhi : xpad < 8192) by (apply lt_IZR; lra).
  assert (Hylo : 0 <= ypad) by (apply le_IZR; lra).
  assert (Hyhi : ypad < 8192) by (apply lt_IZR; lra).
  assert (H3 : (IZR (3 * xpad) < vx res)%R) by (rewrite mult_IZR; lra).
  assert (H4 : (vx res <= IZR (4 * xpad))%R) by (rewrite mult_IZR; lra).
  assert (H4y : (vy res <= IZR (4 * ypad))%R) by (rewrite mult_IZR; lra).
  split; [|split; assumption].
  unfold Debug.grid. cbn [vx vy].
  rewrite !short_of_ceilf by (fold xpad ypad; lia).
  fold xpad ypad.
  change (Nat.iter 4 (Nat.iter 4 (Debug.grid_cell res xpad ypad)) (0, 0, []))
    with (Nat.iter 4 (Debug.grid_cell res xpad ypad)
            (Nat.iter 4 (Debug.grid_cell res xpad ypad)
               (Nat.iter 4 (Debug.grid_cell res xpad ypad)
                  (Nat.iter 4 (Debug.grid_cell res xpad ypad) (0, 0, []))))).
  rewrite (grid_row_spec res xpad ypad 0) by (assumption || lia).
  rewrite (grid_row_spec res xpad ypad (0 + ypad)) by (assumption || lia).
  rewrite (grid_row_spec res xpad ypad (0 + ypad + ypad)) by (assumption || lia).
  rewrite (grid_row_spec res xpad ypad (0 + ypad + ypad + ypad))
    by (assumption || lia).
  cbn [snd]. rewrite <- !app_assoc. cbn [app].
  unfold Debug.regular_grid. cbn [flat_map map app].
  repeat f_equal; lia.
Qed.

(** X15.  With the debug flag off [drawDebug] draws nothing.  With the
    flag on it outlines exactly the labels whose boxes the occlusion
    pass collects, in list order, and then draws the grid.  On a
    viewport that is 12 to 32764 wide and at most 32764 high the grid is
    the regular one of four by four cells, row by row, each cell
    [ceil(width / 4)] wide and [ceil(height / 4)] high, and the sixteen
    cells cover the viewport. *)
Theorem drawDebug_regular_grid `{Externals} (w : Labels.World) :
  let view := Labels.m_view (Labels.this w) in
  (12 <= Labels.getWidth view <= 32764)%R ->
  (0 <= Labels.getHeight view <= 32764)%R ->
  Debug.drawDebug false w = []
  /\ Debug.drawDebug true w
     = flat_map (fun a => match Label.m_userData a with
                          | Some p => [Debug.DrawPoly p]
                          | None => []
                          end)
                (Pass.boxes (Labels.heap w) (Labels.m_labelUnits (Labels.this w)))
       ++ Debug.regular_grid (Debug.ceiling (Labels.getWidth view / 4))
                             (Debug.ceiling (Labels.getHeight view / 4))
  /\ (Labels.getWidth view <= IZR (4 * Debug.ceiling (Labels.getWidth view / 4)))%R
  /\ (Labels.getHeight view <= IZR (4 * Debug.ceiling (Labels.getHeight view / 4)))%R.
Proof.
  cbv zeta. intros HW HH.
  destruct (grid_regular (Vec2 (Labels.getWidth (Labels.m_view (Labels.this w)))
                               (Labels.getHeight (Labels.m_view (Labels.this w))))
              HW HH) as (Hgrid & Hcx & Hcy).
  cbn [vx vy] in Hgrid, Hcx, Hcy.
  split; [reflexivity|]. split; [|split; assumption].
  unfold Debug.drawDebug. cbn [negb]. now rewrite Hgrid, outlines_boxes.
Qed.

Lemma drawDebug_regular_grid_witness :
  @Debug.drawDebug sample_externals false sample_world = []
  /\ @Debug.drawDebug sample_externals true sample_world
     = flat_map (fun a => match Label.m_userData a with
                          | Some p => [Debug.DrawPoly p]
                          | None => []
                          end)
                (Pass.boxes (Labels.heap sample_world)
                   (Labels.m_labelUnits (Labels.this sample_world)))
       ++ Debug.regular_grid (Debug.ceiling (800 / 4)) (Debug.ceiling (600 / 4))
  /\ (800 <= IZR (4 * Debug.ceiling (800 / 4)))%R
  /\ (600 <= IZR (4 * Debug.ceiling (600 / 4)))%R.
Proof.
  apply (@drawDebug_regular_grid sample_externals sample_world).
  - cbn. lra.
  - cbn. lra.
Defined.

(** * Further cases of label construction and of the font key *)

Lemma fontKey_collision_witness :
  TextParams.fontKey
    (@TextStyle.parseRule sample_externals sample_style open_sans_rule)
  = TextParams.fontKey
      (@TextStyle.parseRule sample_externals sample_style open_rule).
Proof.
  apply (@fontKey_collision sample_externals sample_style open_sans_rule
           open_rule "Open" "Sans" "bold"); reflexivity.
Defined.

Example fontKey_open_sans :
  TextParams.fontKey
    (@TextStyle.parseRule sample_externals sample_style open_sans_rule)
  = "Open_Sans_bold_"%string.
Proof. reflexivity. Qed.

(** X16.  When the tile is admitted and a buffer is current but the
    rasterization fails, [addTextLabel] has nevertheless taken a text id
    from the buffer and allocated a label: the current buffer is the one
    the rasterization left and the count of allocations has grown by
    one, while the label is gone again and the heap, the tile, the
    pending queue and the authoritative list are as they were. *)
Theorem addTextLabel_failed_rasterization `{Externals}
    (w : Labels.World) (tile : Labels.MapTile) (style : string)
    (tr : Label.Transform) (text : string) (type : Label.Type_)
    (buf : Buffer) :
  ~ Labels.LOD_rejects w tile ->
  Labels.currentBuffer (Labels.this w) = Some buf ->
  (rasterize (new_TextLabel tr text (genTextID buf).1 type)
             (genTextID buf).2).1.1 = false ->
  exists w',
    Labels.addTextLabel w tile style tr text type = Some (None, w', tile)
    /\ Labels.currentBuffer (Labels.this w')
       = Some (rasterize (new_TextLabel tr text (genTextID buf).1 type)
                         (genTextID buf).2).2
    /\ Labels.allocations w' = S (Labels.allocations w)
    /\ Labels.heap w' = Labels.heap w
    /\ Labels.m_pendingLabelUnits (Labels.this w')
       = Labels.m_pendingLabelUnits (Labels.this w)
    /\ Labels.m_labelUnits (Labels.this w') = Labels.m_labelUnits (Labels.this w).
Proof.
  intros Hadmit Hbuf Hfail. unfold Labels.addTextLabel.
  rewrite (LOD_discards_false w tile Hadmit), Hbuf.
  destruct (genTextID buf) as [textID buf1] eqn:Hid. cbn [fst snd] in Hfail |- *.
  unfold Labels.new_Label.
  cbn [Labels.heap Labels.set_currentBuffer Labels.this Labels.allocations].
  rewrite lookup_insert_eq.
  destruct (rasterize (new_TextLabel tr text textID type) buf1)
    as [[ok l'] buf2] eqn:Hras.
  cbn [fst snd] in Hfail |- *. subst ok. cbn [negb].
  eexists. split; [reflexivity|]. cbn.
  split; [reflexivity|]. split; [reflexivity|]. split; [|auto].
  rewrite insert_insert_eq. apply delete_insert_id, fresh_unbound.
Qed.

Lemma failing_world_admits :
  ~ @Labels.LOD_rejects failing_externals failing_world failing_tile.
Proof.
  unfold Labels.LOD_rejects.
  cbn [Labels.m_currentZoom Labels.this failing_world Labels.z
       Labels.getID failing_tile sample_tileID s_maxZoom failing_externals].
  assert (H0 : @Labels.LODDiscardFunc failing_externals 18 0 = 6)
    by exact LODDiscardFunc_at_0.
  rewrite H0. lra.
Qed.

Lemma addTextLabel_failed_rasterization_witness :
  exists w',
    @Labels.addTextLabel failing_externals failing_world failing_tile "text"
      {| Label.anchor1 := Vec2 1 2; Label.anchor2 := Vec2 1 2 |}
      "Main Street" Label.point
    = Some (None, w', failing_tile)
    /\ Labels.currentBuffer (Labels.this w') = Some 1
    /\ Labels.allocations w' = 1%nat
    /\ Labels.heap w' = Labels.heap failing_world.
Proof.
  destruct (@addTextLabel_failed_rasterization failing_externals failing_world
              failing_tile "text"
              {| Label.anchor1 := Vec2 1 2; Label.anchor2 := Vec2 1 2 |}
              "Main Street" Label.point 0)
    as (w' & Hrun & Hbuf & Halloc & Hheap & _).
  - exact failing_world_admits.
  - reflexivity.
  - reflexivity.
  - exists w'. auto.
Defined.
